(** * Viseme scheduler: timeline, queue, interpolation and pose filter

    A shallow embedding of [lib/visemeScheduler.ts]: the timeline builder
    [buildTimes], the chunk queue ([pushChunk], [startNext], [stop]), the
    Catmull-Rom sampler and the per-tick pose filter [getFrame].

    Number model.  A JavaScript number is modelled by [num]: a rational or
    [NaN].  The functions of the source are embedded with exact arithmetic,
    and a statement about them is about the formula the code computes, read
    over the rationals.  The source itself computes in binary64 and keeps
    frames, time axes and poses in [Float32Array]s.  Where a statement
    depends on that rounding, the functions concerned are embedded a second
    time, in [Module Binary], with every operation rounded to binary64 and
    every store rounded to binary32, and the statement is about that
    embedding.  The two infinities are in neither model: the statements about
    [Binary] bound their inputs so that no operation reaches [2^1024] and no
    store reaches [2^128].  Reading a typed array out of range gives
    [undefined] in the source; every such read is consumed by arithmetic, by
    a comparison or by [||], where [undefined] acts as [NaN], so the model
    reads [NaN] there. *)

From Equations Require Import Equations.
From Stdlib Require Import String Ascii.
From Stdlib Require Import QArith Qminmax Qround Qabs Qpower Lqa Lia Bool ZArith
  List Sorted.
Import ListNotations.

Local Open Scope Q_scope.

(* ===================================================================== *)
(** ** JavaScript numbers *)
(* ===================================================================== *)

Module JS.

Inductive num : Type :=
| Fin (q : Q)
| NaN.

Declare Scope js_scope.
Delimit Scope js_scope with js.
Bind Scope js_scope with num.

Definition lift2 (f : Q -> Q -> Q) (a b : num) : num :=
  match a, b with
  | Fin x, Fin y => Fin (f x y)
  | _, _ => NaN
  end.

Definition add : num -> num -> num := lift2 Qplus.
Definition sub : num -> num -> num := lift2 Qminus.
Definition mul : num -> num -> num := lift2 Qmult.

Definition neg (a : num) : num :=
  match a with
  | Fin x => Fin (- x)
  | NaN => NaN
  end.

(** Division.  Every division of the source is by a non-zero constant or is
    guarded by a test that the divisor is positive; a zero divisor (an
    infinity or NaN in the source) is mapped to [NaN]. *)
Definition div (a b : num) : num :=
  match a, b with
  | Fin x, Fin y => if Qeq_bool y 0 then NaN else Fin (x / y)
  | _, _ => NaN
  end.

Definition Qltb (x y : Q) : bool := negb (Qle_bool y x).

(** [a < b]; false as soon as one side is [NaN]. *)
Definition lt (a b : num) : bool :=
  match a, b with
  | Fin x, Fin y => Qltb x y
  | _, _ => false
  end.

Definition gt (a b : num) : bool := lt b a.

Definition Math_max (a b : num) : num :=
  match a, b with
  | Fin x, Fin y => Fin (if Qle_bool x y then y else x)
  | _, _ => NaN
  end.

Definition Math_min (a b : num) : num :=
  match a, b with
  | Fin x, Fin y => Fin (if Qle_bool x y then x else y)
  | _, _ => NaN
  end.

Definition isFinite (a : num) : bool :=
  match a with
  | Fin _ => true
  | NaN => false
  end.

Definition isNaN (a : num) : bool := negb (isFinite a).

(** Truthiness of a number: [0] and [NaN] are falsy. *)
Definition truthy (a : num) : bool :=
  match a with
  | Fin x => negb (Qeq_bool x 0)
  | NaN => false
  end.

(** [a || b] on numbers. *)
Definition or_ (a b : num) : num := if truthy a then a else b.

(** [Number(x)] of an optional field: [undefined] becomes [NaN]. *)
Definition Number (o : option num) : num :=
  match o with
  | Some x => x
  | None => NaN
  end.

Definition of_nat (n : nat) : num := Fin (inject_Z (Z.of_nat n)).

(** [Math.PI], the binary64 value, which is a rational number. *)
Definition Math_PI : num := Fin (884279719003555 # 281474976710656).

(** Typed-array read [a[i]] in a numeric context. *)
Definition rd (a : list num) (i : nat) : num := nth i a NaN.

Definition rdZ (a : list num) (i : Z) : num :=
  if (i <? 0)%Z then NaN else rd a (Z.to_nat i).

(** Typed-array write [a[i] = v]; a write out of range is ignored. *)
Fixpoint set (a : list num) (i : nat) (v : num) : list num :=
  match a, i with
  | [], _ => []
  | _ :: a', O => v :: a'
  | x :: a', S i' => x :: set a' i' v
  end.

(** [a[a.length - 1]] in a numeric context. *)
Definition tail_of (a : list num) : num := last a NaN.

(** [for (let i = 0; i < n; i++) body], threading the loop state. *)
Definition for_loop {S : Type} (n : nat) (body : nat -> S -> S) (s : S) : S :=
  fold_left (fun acc i => body i acc) (seq 0 n) s.

End JS.

Import JS.

Infix "+" := add : js_scope.
Infix "-" := sub : js_scope.
Infix "*" := mul : js_scope.
Infix "/" := div : js_scope.
Notation "- x" := (neg x) : js_scope.

(** Equality of numbers up to the representation of the rational. *)
Definition num_eq (a b : num) : Prop :=
  match a, b with
  | Fin x, Fin y => x == y
  | NaN, NaN => True
  | _, _ => False
  end.

(** [a] is a finite number of the closed unit interval. *)
Definition in01 (a : num) : Prop :=
  match a with
  | Fin x => 0 <= x <= 1
  | NaN => False
  end.

Definition finite (a : num) : Prop := isFinite a = true.

(* ===================================================================== *)
(** ** Scalar helpers of the source *)
(* ===================================================================== *)

Definition COLS : nat := 15.

Definition clamp01 (x : num) : num :=
  if lt x (Fin 0) then Fin 0 else if gt x (Fin 1) then Fin 1 else x.

Definition lerp (a b t : num) : num :=
  (a + (b - a) * (if lt t (Fin 0) then Fin 0 else if gt t (Fin 1) then Fin 1 else t))%js.

Definition catmullRom (p0 p1 p2 p3 t : num) : num :=
  let t2 := (t * t)%js in
  let t3 := (t2 * t)%js in
  (Fin (1 # 2) *
   ((Fin 2 * p1) + (- p0 + p2) * t
    + (Fin 2 * p0 - Fin 5 * p1 + Fin 4 * p2 - p3) * t2
    + (- p0 + Fin 3 * p1 - Fin 3 * p2 + p3) * t3))%js.

(** The loop of [lowerBound]: [while (lo <= hi) { mid = (lo + hi) >>> 1; ... }].
    [lo + hi] is never negative when the loop is entered from [lowerBound],
    so the unsigned shift is the floor of the half. *)
Equations? lb_loop (arr : list num) (t : num) (lo hi : Z) : Z
  by wf (Z.to_nat (hi - lo + 1)) Nat.lt :=
  lb_loop arr t lo hi with Z_le_gt_dec lo hi => {
    | left _ =>
        let mid := Z.shiftr (lo + hi) 1 in
        if lt (rdZ arr mid) t
        then lb_loop arr t (mid + 1) hi
        else lb_loop arr t lo (mid - 1)
    | right _ => lo }.
Proof.
  all: unfold Nat.lt; subst mid;
    rewrite Z.shiftr_div_pow2 by lia; change (2 ^ 1)%Z with 2%Z.
  - assert (lo <= (lo + hi) / 2)%Z by (apply Z.div_le_lower_bound; lia). lia.
  - assert ((lo + hi) / 2 <= hi)%Z by (apply Z.div_le_upper_bound; lia). lia.
Qed.

Definition lowerBound (arr : list num) (t : num) : Z :=
  let len := Z.of_nat (length arr) in
  Z.max 1 (Z.min (len - 1) (lb_loop arr t 0 (len - 1))).

(* ===================================================================== *)
(** ** Chunk messages and the timeline builder *)
(* ===================================================================== *)

(** [AudioChunkMsg].  [viseme] and [viseme_times] hold their entries after
    [Number(.)]; a missing row ([row || []]) is the empty row.  The metadata
    fields ([audio_format], [viseme_format], [viseme_profile], [chunk_index],
    [offset_ms]) do not reach the scheduler state and are left out. *)
Record AudioChunkMsg : Type := {
  audio : option string;
  viseme : list (list num);
  viseme_times : option (list num);
  duration_ms : option num;
  frame_ms : option num;
  viseme_fps : option num
}.

(** The loop of the first branch of [buildTimes]:
    [v = Math.max(0, isFinite(t[i]) ? t[i] : prev); out[i] = v < prev ? prev : v]. *)
Fixpoint floor_loop (prev : num) (t : list num) : list num :=
  match t with
  | [] => []
  | x :: t' =>
      let v := Math_max (Fin 0) (if isFinite x then x else prev) in
      let o := if lt v prev then prev else v in
      o :: floor_loop o t'
  end.

(** [for (i = 0; i < framesN; i++) out[i] = i * dt] on a fresh array. *)
Definition ramp (framesN : nat) (dt : num) : list num :=
  map (fun i => (of_nat i * dt)%js) (seq 0 framesN).

(** [x && x > 0] on an optional number. *)
Definition positive_hint (o : option num) : bool :=
  match o with
  | Some x => truthy x && gt x (Fin 0)
  | None => false
  end.

(** [Math.max(0.02, (Number(msg.duration_ms) || 0) / 1000)]. *)
Definition durS_of (msg : AudioChunkMsg) : num :=
  Math_max (Fin (2 # 100)) (or_ (Number (duration_ms msg)) (Fin 0) / Fin 1000)%js.

(** [Array.isArray(msg.viseme_times) && msg.viseme_times.length >= 2]. *)
Definition explicit_times (msg : AudioChunkMsg) : option (list num) :=
  match viseme_times msg with
  | Some vt => if (2 <=? length vt)%nat then Some vt else None
  | None => None
  end.

Definition buildTimes (framesN : nat) (msg : AudioChunkMsg) : list num :=
  match explicit_times msg with
  | Some vt => floor_loop (Fin 0) (firstn framesN vt)
  | None =>
      if positive_hint (frame_ms msg)
      then ramp framesN (Number (frame_ms msg) / Fin 1000)%js
      else if positive_hint (viseme_fps msg)
      then ramp framesN (Fin 1 / Number (viseme_fps msg))%js
      else
        let durS := durS_of msg in
        let step := if (1 <? framesN)%nat
                    then (durS / of_nat (framesN - 1))%js else durS in
        ramp framesN step
  end.

(** The rows stored by [pushChunk]:
    [Float32Array.from((row || []).slice(0, COLS).map(v => clamp01(Number(v) || 0)))]. *)
Definition store_row (row : list num) : list num :=
  map (fun v => clamp01 (or_ v (Fin 0))) (firstn COLS row).

Definition store_frames (msg : AudioChunkMsg) : list (list num) :=
  map store_row (viseme msg).

(* ===================================================================== *)
(** ** Scheduler state *)
(* ===================================================================== *)

(** The [HTMLAudioElement] built from the base64 payload.  Its [duration]
    and [currentTime] belong to the browser; the scheduler reads them, and
    the model receives each reading in an [Env]. *)
Inductive HTMLAudioElement : Type :=
| Audio (payload : string).

(** [metaListener] is the registration of the ['loadedmetadata'] listener
    [onMeta] on the chunk's audio element.  [done] is written by the
    completion callbacks, on a chunk that they drop in the same step, and is
    read nowhere. *)
Record Chunk : Type := {
  frames : list (list num);
  timesRaw : list num;
  times : list num;
  duration : num;
  audioEl : option HTMLAudioElement;
  startedAt : num;
  fadeInEnd : num;
  fadeInFrom : list num;
  done : bool;
  metaListener : bool
}.

Record State : Type := {
  queue : list Chunk;
  active : option Chunk;
  muted : bool;
  pos : list num;
  vel : list num;
  tmp : list num;
  lastTick : num
}.

(** What a call reads from the platform: [performance.now() / 1000] and the
    [duration] and [currentTime] of the audio element it looks at. *)
Record Env : Type := {
  now : Q;
  audio_duration : num;
  audio_currentTime : num
}.

(** The argument of [createVisemeScheduler]. *)
Record Options : Type := {
  o_zeta : option num;
  o_freqBase : option num;
  o_freqJaw : option num;
  o_exaggeration : option num;
  o_crossfadeS : option num;
  o_neutralDecayPerSec : option num
}.

Definition no_options : Options :=
  {| o_zeta := None; o_freqBase := None; o_freqJaw := None;
     o_exaggeration := None; o_crossfadeS := None;
     o_neutralDecayPerSec := None |}.

(** [x ?? d]. *)
Definition nullish (o : option num) (d : num) : num :=
  match o with
  | Some x => x
  | None => d
  end.

Definition zeros (n : nat) : list num := repeat (Fin 0) n.

(** What [getFrame] hands back: an array, [null], or an exception. *)
Inductive result : Type :=
| Frame (a : list num)
| Null
| Throws.

Definition set_queue (s : State) (q : list Chunk) : State :=
  {| queue := q; active := active s; muted := muted s; pos := pos s;
     vel := vel s; tmp := tmp s; lastTick := lastTick s |}.

Definition set_active (s : State) (a : option Chunk) : State :=
  {| queue := queue s; active := a; muted := muted s; pos := pos s;
     vel := vel s; tmp := tmp s; lastTick := lastTick s |}.

Definition set_muted (s : State) (m : bool) : State :=
  {| queue := queue s; active := active s; muted := m; pos := pos s;
     vel := vel s; tmp := tmp s; lastTick := lastTick s |}.

Definition set_lastTick (s : State) (t : num) : State :=
  {| queue := queue s; active := active s; muted := muted s; pos := pos s;
     vel := vel s; tmp := tmp s; lastTick := t |}.

Definition set_pose (s : State) (p v t : list num) : State :=
  {| queue := queue s; active := active s; muted := muted s; pos := p;
     vel := v; tmp := t; lastTick := lastTick s |}.

(** [s || ...] on a string: the empty string is falsy. *)
Definition nonempty (o : option string) : bool :=
  match o with
  | Some (String _ _) => true
  | _ => false
  end.

Definition isSome {A : Type} (o : option A) : bool :=
  match o with
  | Some _ => true
  | None => false
  end.

(** [a[i]] on an array of objects. *)
Definition at_Z {A : Type} (a : list A) (i : Z) : option A :=
  if (i <? 0)%Z then None else nth_error a (Z.to_nat i).

(** [fr[i] || fr[j]]: a frame object is truthy, [undefined] is not. *)
Definition frame_or (fr : list (list num)) (i j : Z) : option (list num) :=
  match at_Z fr i with
  | Some f => Some f
  | None => at_Z fr j
  end.

(** [sampleCatmullRom(ch, t, out)].  [None] is the [TypeError] of reading an
    index of an [undefined] frame. *)
Definition sampleCatmullRom (ch : Chunk) (t : num) (out : list num)
  : option (list num) :=
  let times := times ch in
  let idx1 := lowerBound times t in
  let i1 := idx1 in
  let i0 := (idx1 - 1)%Z in
  let nF := Z.of_nat (length (frames ch)) in
  let i2 := Z.min (i1 + 1) (nF - 1) in
  let i_1 := Z.max (i0 - 1) 0 in
  let t0 := rdZ times i0 in
  let t1 := rdZ times i1 in
  let u := if gt t1 t0 then ((t - t0) / (t1 - t0))%js else Fin 0 in
  match frame_or (frames ch) i_1 0, frame_or (frames ch) i0 0,
        frame_or (frames ch) i1 (nF - 1), frame_or (frames ch) i2 (nF - 1) with
  | Some f_1, Some f0, Some f1, Some f2 =>
      Some (for_loop COLS
              (fun i out =>
                 set out i (clamp01 (catmullRom (rd f_1 i) (rd f0 i)
                                                (rd f1 i) (rd f2 i) u)))
              out)
  | _, _, _, _ => None
  end.

(** The chunk object built by [pushChunk], before it is queued. *)
Definition new_chunk (msg : AudioChunkMsg) (is_muted : bool) : Chunk :=
  let frames := store_frames msg in
  let timesRaw := buildTimes (length frames) msg in
  {| frames := frames;
     timesRaw := timesRaw;
     times := [];
     duration := durS_of msg;
     audioEl := if nonempty (audio msg) && negb is_muted
                then match audio msg with
                     | Some p => Some (Audio p)
                     | None => None
                     end
                else None;
     startedAt := Fin 0;
     fadeInEnd := Fin 0;
     fadeInFrom := zeros COLS;
     done := false;
     metaListener := false |}.

Section Scheduler.

(** [Math.exp]: its results are binary64 values, hence rationals. *)
Variable Math_exp : Q -> Q.

Variable opts : Options.

Definition zeta : num := nullish (o_zeta opts) (Fin (84 # 100)).
Definition freqBase : num := nullish (o_freqBase opts) (Fin (75 # 10)).
Definition freqJaw : num := nullish (o_freqJaw opts) (Fin 10).
Definition exaggeration : num := nullish (o_exaggeration opts) (Fin (104 # 100)).
Definition crossfadeS : num := nullish (o_crossfadeS opts) (Fin (85 # 1000)).
Definition neutralDecayPerSec : num := nullish (o_neutralDecayPerSec opts) (Fin 1).

Definition exp_num (a : num) : num :=
  match a with
  | Fin x => Fin (Math_exp x)
  | NaN => NaN
  end.

(** The state right after [createVisemeScheduler], created at time [t0]. *)
Definition init (t0 : Q) : State :=
  {| queue := []; active := None; muted := false;
     pos := zeros COLS; vel := zeros COLS; tmp := zeros COLS;
     lastTick := Fin t0 |}.

(** [begin(durEl)] of [startNext], on the chunk [ch] and the current pose.
    The callback it arms ([onended] or the timeout) is the event
    [Completed] below. *)
Definition begin (e : Env) (p : list num) (ch : Chunk) (durEl : num) : Chunk :=
  let rawTail := or_ (tail_of (timesRaw ch)) (Fin 0) in
  let scale := if gt rawTail (Fin 0) then (durEl / rawTail)%js else Fin 1 in
  let times' := map (fun t => (t * scale)%js) (timesRaw ch) in
  let duration' := or_ (tail_of times') (Math_max (Fin (2 # 100)) durEl) in
  let startedAt' := Fin (now e) in
  {| frames := frames ch;
     timesRaw := timesRaw ch;
     times := times';
     duration := duration';
     audioEl := audioEl ch;
     startedAt := startedAt';
     fadeInEnd := (startedAt' + crossfadeS)%js;
     fadeInFrom := p;
     done := done ch;
     metaListener := false |}.

(** [onMeta()]: the duration handed to [begin]. *)
Definition onMeta_duration (e : Env) (ch : Chunk) : num :=
  if isFinite (audio_duration e) && gt (audio_duration e) (Fin 0)
  then audio_duration e
  else or_ (or_ (duration ch) (or_ (tail_of (timesRaw ch)) (Fin 0)))
           (Fin (5 # 10)).

Definition with_listener (ch : Chunk) : Chunk :=
  {| frames := frames ch; timesRaw := timesRaw ch; times := times ch;
     duration := duration ch; audioEl := audioEl ch;
     startedAt := startedAt ch; fadeInEnd := fadeInEnd ch;
     fadeInFrom := fadeInFrom ch; done := done ch; metaListener := true |}.

(** What [startNext] does with the chunk it has just shifted. *)
Definition activate (e : Env) (s : State) (ch : Chunk) : Chunk :=
  if isSome (audioEl ch) && negb (muted s)
  then
    if negb (isNaN (audio_duration e)) && gt (audio_duration e) (Fin 0)
    then begin e (pos s) ch (onMeta_duration e ch)
    else with_listener ch
  else
    begin e (pos s) ch
          (or_ (duration ch) (or_ (tail_of (timesRaw ch)) (Fin 0))).

Definition startNext (e : Env) (s : State) : State :=
  match active s, queue s with
  | None, ch :: q => set_active (set_queue s q) (Some (activate e s ch))
  | _, _ => s
  end.

Definition pushChunk (msg : AudioChunkMsg) (e : Env) (s : State) : State :=
  let ch := new_chunk msg (muted s) in
  startNext e (set_queue s (queue s ++ [ch])).

(** The ['loadedmetadata'] event of the active chunk's audio element. *)
Definition onMeta (e : Env) (s : State) : State :=
  match active s with
  | Some ch =>
      if metaListener ch
      then set_active s (Some (begin e (pos s) ch (onMeta_duration e ch)))
      else s
  | None => s
  end.

(** A completion callback, [onended] or the timeout:
    [ch.done = true; active = null; startNext()]. *)
Definition completed (e : Env) (s : State) : State :=
  startNext e (set_active s None).

Definition setMuted (v : bool) (s : State) : State := set_muted s v.

Definition stop (s : State) : State := set_active (set_queue s []) None.

(** The idle branch of [getFrame]. *)
Definition relax (dt : num) (p v : list num) : list num * list num :=
  let k := exp_num (- neutralDecayPerSec * dt)%js in
  for_loop COLS
    (fun i pv => (set (fst pv) i (rd (fst pv) i * k)%js,
                  set (snd pv) i (rd (snd pv) i * k)%js))
    (p, v).

(** The crossfade loop of [getFrame]. *)
Definition crossfade (ch : Chunk) (now_ : num) (t : list num) : list num :=
  if lt now_ (fadeInEnd ch)
  then
    let cfk := (Fin 1 - Math_max (Fin 0) ((fadeInEnd ch - now_) / crossfadeS))%js in
    for_loop COLS (fun i t => set t i (lerp (rd (fadeInFrom ch) i) (rd t i) cfk)) t
  else t.

(** One iteration of the spring loop of [getFrame]. *)
Definition spring_body (dt : num) (target : list num) (i : nat)
  (pv : list num * list num) : list num * list num :=
  let p := fst pv in
  let v := snd pv in
  let f := if (i =? 0)%nat then freqJaw else freqBase in
  let w := (Fin 2 * Math_PI * f)%js in
  let acc := (w * w * (rd target i - rd p i) - Fin 2 * zeta * w * rd v i)%js in
  let v := set v i (rd v i + acc * dt)%js in
  let p := set p i (rd p i + rd v i * dt)%js in
  let p := set p i (clamp01 (rd p i * or_ exaggeration (Fin 1))%js) in
  (p, v).

Definition spring (dt : num) (target p v : list num) : list num * list num :=
  for_loop COLS (spring_body dt target) (p, v).

(** The playback position read by [getFrame]. *)
Definition playback_time (e : Env) (ch : Chunk) : num :=
  let t := (Fin (now e) - startedAt ch)%js in
  if isSome (audioEl ch) && negb (isNaN (audio_currentTime e))
  then Math_max (Fin 0) (Math_min (audio_currentTime e) (duration ch))
  else Math_min (Math_max (Fin 0) t) (duration ch).

(** [dt = Math.max(0.001, Math.min(0.033, now - lastTick))]. *)
Definition tick_dt (e : Env) (s : State) : num :=
  Math_max (Fin (1 # 1000))
           (Math_min (Fin (33 # 1000)) (Fin (now e) - lastTick s)%js).

Definition getFrame (e : Env) (s : State) : result * State :=
  let now_ := Fin (now e) in
  let dt := tick_dt e s in
  let s := set_lastTick s now_ in
  match active s with
  | Some ch =>
      if (length (frames ch) =? 0)%nat || (length (times ch) =? 0)%nat
      then
        let pv := relax dt (pos s) (vel s) in
        (Frame (fst pv), set_pose s (fst pv) (snd pv) (tmp s))
      else
        match sampleCatmullRom ch (playback_time e ch) (tmp s) with
        | None => (Throws, s)
        | Some t1 =>
            let t2 := crossfade ch now_ t1 in
            let pv := spring dt t2 (pos s) (vel s) in
            (Frame (fst pv), set_pose s (fst pv) (snd pv) t2)
        end
  | None =>
      let pv := relax dt (pos s) (vel s) in
      (Frame (fst pv), set_pose s (fst pv) (snd pv) (tmp s))
  end.

(** What the outside world can do to a scheduler. *)
Inductive event : Type :=
| PushChunk (msg : AudioChunkMsg) (e : Env)
| GetFrame (e : Env)
| LoadedMetadata (e : Env)
| Completed (e : Env)
| SetMuted (v : bool)
| Stop.

Definition step (s : State) (ev : event) : State :=
  match ev with
  | PushChunk msg e => pushChunk msg e s
  | GetFrame e => snd (getFrame e s)
  | LoadedMetadata e => onMeta e s
  | Completed e => completed e s
  | SetMuted v => setMuted v s
  | Stop => stop s
  end.

Definition run (s : State) (evs : list event) : State := fold_left step evs s.

(** The chunk that [startNext] shifts off the queue in state [s], if any. *)
Definition shifts (s : State) : option Chunk :=
  match active s, queue s with
  | None, ch :: _ => Some ch
  | _, _ => None
  end.

(** The chunk queued by an event, and the chunk its [startNext] shifts. *)
Definition submitted (s : State) (ev : event) : list Chunk :=
  match ev with
  | PushChunk msg _ => [new_chunk msg (muted s)]
  | _ => []
  end.

Definition activated (s : State) (ev : event) : list Chunk :=
  match ev with
  | PushChunk msg _ =>
      match shifts (set_queue s (queue s ++ [new_chunk msg (muted s)])) with
      | Some ch => [ch]
      | None => []
      end
  | Completed _ =>
      match shifts (set_active s None) with
      | Some ch => [ch]
      | None => []
      end
  | _ => []
  end.

(** Submission and activation logs of a run, in order. *)
Fixpoint submissions (s : State) (evs : list event) : list Chunk :=
  match evs with
  | [] => []
  | ev :: evs' => submitted s ev ++ submissions (step s ev) evs'
  end.

Fixpoint activations (s : State) (evs : list event) : list Chunk :=
  match evs with
  | [] => []
  | ev :: evs' => activated s ev ++ activations (step s ev) evs'
  end.

Definition is_stop (ev : event) : bool :=
  match ev with
  | Stop => true
  | _ => false
  end.

End Scheduler.

(** [l1] is [l2] with some elements removed, order kept. *)
Inductive subseq {A : Type} : list A -> list A -> Prop :=
| subseq_nil : subseq [] []
| subseq_skip : forall x l1 l2, subseq l1 l2 -> subseq l1 (x :: l2)
| subseq_keep : forall x l1 l2, subseq l1 l2 -> subseq (x :: l1) (x :: l2).

(* ===================================================================== *)
(** ** Binary arithmetic *)
(* ===================================================================== *)

(** The source computes in binary64 and keeps frames, time axes and poses in
    [Float32Array]s.  Both formats round to nearest, ties to even; [round]
    is that rounding on the rationals, for a precision of [prec] bits and a
    smallest exponent [emin] (gradual underflow).  The largest exponent is
    left out: a magnitude of [2^1024] (binary64) or [2^128] (binary32) and
    more, which the source turns into an infinity, stays a rational here,
    and the statements below keep away from it. *)

Definition pow2 (e : Z) : Q := 2 ^ e.

(** [floor (log2 |x|)], for [x <> 0]. *)
Definition ilog2 (x : Q) : Z :=
  let e := (Z.log2 (Z.abs (Qnum x)) - Z.log2 (Zpos (Qden x)))%Z in
  if Qle_bool (pow2 e) (Qabs x) then e else (e - 1)%Z.

(** The nearest integer, ties to even. *)
Definition rne (y : Q) : Z :=
  let f := Qfloor y in
  match Qcompare (y - inject_Z f) (1 # 2) with
  | Lt => f
  | Gt => (f + 1)%Z
  | Eq => if Z.even f then f else (f + 1)%Z
  end.

Definition round (prec emin : Z) (x : Q) : Q :=
  if Qeq_bool x 0 then 0
  else
    let e := Z.max (ilog2 x - (prec - 1)) emin in
    inject_Z (rne (x / pow2 e)) * pow2 e.

(** The result of a binary64 operation whose exact result is [x]. *)
Definition fl64 : Q -> Q := round 53 (-1074).

(** [Math.fround]: what a [Float32Array] keeps of [x]. *)
Definition fround : Q -> Q := round 24 (-149).

(** A binary32 number: a fixed point of [fround] below [2^128]. *)
Definition binary32 (x : Q) : Prop := fround x == x /\ Qabs x < pow2 128.

(** A number that a [Float32Array] holds. *)
Definition f32 (a : num) : Prop :=
  match a with
  | Fin x => binary32 x
  | NaN => False
  end.

(** Zero, or not below [2^-25]. *)
Definition coarse (a : num) : Prop :=
  match a with
  | Fin x => x == 0 \/ pow2 (-25) <= x
  | NaN => False
  end.

(** The multiples of [2^-48]. *)
Definition grid (x : Q) : Prop := exists m : Z, x == inject_Z m * pow2 (-48).

(** The functions below are embedded once more, under their names, with
    every arithmetic operation rounded to binary64 and every write to a
    [Float32Array] rounded to binary32.  Comparisons, [Math.max], [Math.min],
    [||], negation and reads of an array are exact, as are the integer
    literals and [0.5]; a literal such as [0.02] is the binary64 number
    nearest to it.  A number of a message may be any rational; the binary64
    numbers that a parser produces are among them. *)
Module Binary.

Definition lift2 (f : Q -> Q -> Q) (a b : num) : num :=
  match a, b with
  | Fin x, Fin y => Fin (fl64 (f x y))
  | _, _ => NaN
  end.

Definition add : num -> num -> num := lift2 Qplus.
Definition sub : num -> num -> num := lift2 Qminus.
Definition mul : num -> num -> num := lift2 Qmult.

Definition div (a b : num) : num :=
  match a, b with
  | Fin x, Fin y => if Qeq_bool y 0 then NaN else Fin (fl64 (x / y))
  | _, _ => NaN
  end.

(** A value written into a [Float32Array]. *)
Definition store32 (a : num) : num :=
  match a with
  | Fin x => Fin (fround x)
  | NaN => NaN
  end.

Declare Scope b64_scope.
Delimit Scope b64_scope with b64.
Arguments add (a b)%_b64.
Arguments sub (a b)%_b64.
Arguments mul (a b)%_b64.
Arguments div (a b)%_b64.
Infix "+" := add : b64_scope.
Infix "-" := sub : b64_scope.
Infix "*" := mul : b64_scope.
Infix "/" := div : b64_scope.
Notation "- x" := (neg x) : b64_scope.

Definition catmullRom (p0 p1 p2 p3 t : num) : num :=
  let t2 := (t * t)%b64 in
  let t3 := (t2 * t)%b64 in
  (Fin (1 # 2) *
   ((Fin 2 * p1) + (- p0 + p2) * t
    + (Fin 2 * p0 - Fin 5 * p1 + Fin 4 * p2 - p3) * t2
    + (- p0 + Fin 3 * p1 - Fin 3 * p2 + p3) * t3))%b64.

Definition sampleCatmullRom (ch : Chunk) (t : num) (out : list num)
  : option (list num) :=
  let times := times ch in
  let idx1 := lowerBound times t in
  let i1 := idx1 in
  let i0 := (idx1 - 1)%Z in
  let nF := Z.of_nat (length (frames ch)) in
  let i2 := Z.min (i1 + 1) (nF - 1) in
  let i_1 := Z.max (i0 - 1) 0 in
  let t0 := rdZ times i0 in
  let t1 := rdZ times i1 in
  let u := if gt t1 t0 then ((t - t0) / (t1 - t0))%b64 else Fin 0 in
  match frame_or (frames ch) i_1 0, frame_or (frames ch) i0 0,
        frame_or (frames ch) i1 (nF - 1), frame_or (frames ch) i2 (nF - 1) with
  | Some f_1, Some f0, Some f1, Some f2 =>
      Some (for_loop COLS
              (fun i out =>
                 set out i (store32 (clamp01 (catmullRom (rd f_1 i) (rd f0 i)
                                                         (rd f1 i) (rd f2 i) u))))
              out)
  | _, _, _, _ => None
  end.

(** An entry of [Float32Array.from(msg.viseme_times.map(Number))] as the
    loop of [buildTimes] sees it.  A magnitude that rounds to [2^128] or more
    is stored as an infinity; the loop reads the entry through [isFinite]
    first, which rejects an infinity as it rejects [NaN], so [NaN] stands
    for both here. *)
Definition from32 (a : num) : num :=
  match a with
  | Fin x =>
      if Qle_bool (pow2 128) (Qabs (fround x)) then NaN else Fin (fround x)
  | NaN => NaN
  end.

(** [for (i = 0; i < framesN; i++) out[i] = i * dt] on a [Float32Array]. *)
Definition ramp (framesN : nat) (dt : num) : list num :=
  map (fun i => store32 (of_nat i * dt)%b64) (seq 0 framesN).

(** [Math.max(0.02, (Number(msg.duration_ms) || 0) / 1000)]; the literal
    [0.02] is the binary64 number nearest to it. *)
Definition durS_of (msg : AudioChunkMsg) : num :=
  Math_max (Fin (fl64 (2 # 100)))
           (or_ (Number (duration_ms msg)) (Fin 0) / Fin 1000)%b64.

Definition buildTimes (framesN : nat) (msg : AudioChunkMsg) : list num :=
  match explicit_times msg with
  | Some vt => floor_loop (Fin 0) (firstn framesN (map from32 vt))
  | None =>
      if positive_hint (frame_ms msg)
      then ramp framesN (Number (frame_ms msg) / Fin 1000)%b64
      else if positive_hint (viseme_fps msg)
      then ramp framesN (Fin 1 / Number (viseme_fps msg))%b64
      else
        let durS := durS_of msg in
        let step := if (1 <? framesN)%nat
                    then (durS / of_nat (framesN - 1))%b64 else durS in
        ramp framesN step
  end.

(** The first three statements of [begin(durEl)]: the scaled axis and the
    duration it gives the chunk. *)
Definition begin_axis (timesRaw : list num) (durEl : num) : list num * num :=
  let rawTail := or_ (tail_of timesRaw) (Fin 0) in
  let scale := if gt rawTail (Fin 0) then (durEl / rawTail)%b64 else Fin 1 in
  let times' := map (fun t => store32 (t * scale)%b64) timesRaw in
  (times', or_ (tail_of times') (Math_max (Fin (fl64 (2 # 100))) durEl)).

(** The idle branch of [getFrame]: [k = Math.exp(-neutralDecayPerSec * dt)],
    then [pos[i] *= k; vel[i] *= k] on the two [Float32Array]s. *)
Definition relax (Math_exp : Q -> Q) (decay dt : num) (p v : list num)
  : list num * list num :=
  let k := exp_num Math_exp (- decay * dt)%b64 in
  for_loop COLS
    (fun i pv => (set (fst pv) i (store32 (rd (fst pv) i * k)%b64),
                  set (snd pv) i (store32 (rd (snd pv) i * k)%b64)))
    (p, v).

End Binary.

(* ===================================================================== *)
(** ** Facts about numbers, arrays and loops *)
(* ===================================================================== *)

Lemma Qle_bool_false (x y : Q) : Qle_bool x y = false -> y < x.
Proof.
  intro H. apply Qnot_le_lt. intro E.
  apply Qle_bool_iff in E. congruence.
Qed.

Lemma Qeq_bool_false (x y : Q) : Qeq_bool x y = false -> ~ x == y.
Proof. apply Qeq_bool_neq. Qed.

Lemma Qltb_true (x y : Q) : Qltb x y = true <-> x < y.
Proof.
  unfold Qltb. rewrite negb_true_iff. split; intro H.
  - now apply Qle_bool_false.
  - destruct (Qle_bool y x) eqn:E; [|reflexivity].
    apply Qle_bool_iff in E. lra.
Qed.

Lemma Qltb_false (x y : Q) : Qltb x y = false <-> y <= x.
Proof.
  unfold Qltb. rewrite negb_false_iff. apply Qle_bool_iff.
Qed.

(** Case analysis on every rational test of the goal. *)
Ltac q_cases :=
  repeat match goal with
  | |- context [Qltb ?a ?b] =>
      let H := fresh "Hlt" in
      destruct (Qltb a b) eqn:H;
      [apply Qltb_true in H | apply Qltb_false in H]
  | |- context [Qle_bool ?a ?b] =>
      let H := fresh "Hle" in
      destruct (Qle_bool a b) eqn:H;
      [apply Qle_bool_iff in H | apply Qle_bool_false in H]
  | |- context [Qeq_bool ?a ?b] =>
      let H := fresh "Heq" in
      destruct (Qeq_bool a b) eqn:H;
      [apply Qeq_bool_iff in H | apply Qeq_bool_false in H]
  end.

Lemma num_eq_refl (a : num) : num_eq a a.
Proof. destruct a; simpl; [reflexivity | exact I]. Qed.

Lemma num_eq_sym (a b : num) : num_eq a b -> num_eq b a.
Proof. destruct a, b; simpl; auto. intro H; now symmetry. Qed.

Lemma num_eq_trans (a b c : num) : num_eq a b -> num_eq b c -> num_eq a c.
Proof.
  destruct a, b, c; simpl; auto; try tauto.
  intros H1 H2. now rewrite H1.
Qed.

Lemma clamp01_in01 (x : num) : finite x -> in01 (clamp01 x).
Proof.
  destruct x as [q|]; [intros _ | discriminate].
  unfold clamp01, gt, lt. q_cases; simpl; lra.
Qed.

Lemma clamp01_NaN : clamp01 NaN = NaN.
Proof. reflexivity. Qed.

Lemma clamp01_id (x : num) : in01 x -> clamp01 x = x.
Proof.
  destruct x as [q|]; simpl; [intros [H0 H1] | tauto].
  unfold clamp01, gt, lt. q_cases; try reflexivity; lra.
Qed.

Lemma set_length (a : list num) (i : nat) (v : num) :
  length (set a i v) = length a.
Proof.
  revert i. induction a as [|x a IH]; intros [|i]; simpl; auto.
Qed.

Lemma rd_set_same (a : list num) (i : nat) (v : num) :
  (i < length a)%nat -> rd (set a i v) i = v.
Proof.
  unfold rd. revert i. induction a as [|x a IH]; intros [|i] H; simpl in *;
    try lia; auto. apply IH. lia.
Qed.

Lemma rd_set_other (a : list num) (i j : nat) (v : num) :
  i <> j -> rd (set a i v) j = rd a j.
Proof.
  unfold rd. revert i j. induction a as [|x a IH]; intros [|i] [|j] H; simpl;
    auto; try congruence.
Qed.

Lemma for_loop_S {S : Type} (n : nat) (body : nat -> S -> S) (s : S) :
  for_loop (Datatypes.S n) body s = body n (for_loop n body s).
Proof.
  unfold for_loop. rewrite seq_S, fold_left_app. reflexivity.
Qed.

(** A loop whose body keeps a property keeps it. *)
Lemma for_loop_inv {S : Type} (P : S -> Prop) (n : nat)
  (body : nat -> S -> S) (s : S) :
  P s -> (forall i x, (i < n)%nat -> P x -> P (body i x)) ->
  P (for_loop n body s).
Proof.
  induction n as [|n IH]; intros H0 Hb.
  - exact H0.
  - rewrite for_loop_S. apply Hb; [lia|]. apply IH; auto.
Qed.

(** The loop [for i < n: out[i] = f i]: slot [i] ends up holding [f i]. *)
Lemma fill_loop_length (n : nat) (f : nat -> num) (out : list num) :
  length (for_loop n (fun i o => set o i (f i)) out) = length out.
Proof.
  apply (for_loop_inv (fun o => length o = length out)); auto.
  intros i x _ H. now rewrite set_length.
Qed.

Lemma fill_loop_rd (n : nat) (f : nat -> num) (out : list num) (i : nat) :
  (i < n)%nat -> (n <= length out)%nat ->
  rd (for_loop n (fun i o => set o i (f i)) out) i = f i.
Proof.
  induction n as [|n IH]; intros Hi Hn; [lia|].
  rewrite for_loop_S.
  destruct (Nat.eq_dec i n) as [->|Hne].
  - apply rd_set_same. rewrite fill_loop_length. lia.
  - rewrite rd_set_other by congruence. apply IH; lia.
Qed.

Lemma update_loop_length (n : nat) (g : nat -> num -> num) (out : list num) :
  length (for_loop n (fun i o => set o i (g i (rd o i))) out) = length out.
Proof.
  apply (for_loop_inv (fun o => length o = length out)); auto.
  intros i x _ H. now rewrite set_length.
Qed.

(** The loop [for i < n: a[i] = g i a[i]] leaves the slots from [n] on. *)
Lemma update_loop_rd_above (n : nat) (g : nat -> num -> num)
  (out : list num) (i : nat) :
  (n <= i)%nat ->
  rd (for_loop n (fun i o => set o i (g i (rd o i))) out) i = rd out i.
Proof.
  induction n as [|n IH]; intro Hi; [reflexivity|].
  rewrite for_loop_S, rd_set_other by lia. apply IH. lia.
Qed.

Lemma update_loop_rd (n : nat) (g : nat -> num -> num)
  (out : list num) (i : nat) :
  (i < n)%nat -> (n <= length out)%nat ->
  rd (for_loop n (fun i o => set o i (g i (rd o i))) out) i = g i (rd out i).
Proof.
  induction n as [|n IH]; intros Hi Hn; [lia|].
  rewrite for_loop_S.
  destruct (Nat.eq_dec i n) as [->|Hne].
  - rewrite rd_set_same by (rewrite update_loop_length; lia).
    now rewrite update_loop_rd_above by lia.
  - rewrite rd_set_other by congruence. apply IH; lia.
Qed.

Lemma floor_loop_length (prev : num) (t : list num) :
  length (floor_loop prev t) = length t.
Proof.
  revert prev. induction t as [|x t IH]; intro prev; simpl; auto.
Qed.

Lemma ramp_length (n : nat) (dt : num) : length (ramp n dt) = n.
Proof. unfold ramp. now rewrite length_map, length_seq. Qed.

Lemma buildTimes_length (n : nat) (msg : AudioChunkMsg) :
  length (buildTimes n msg) =
  match explicit_times msg with
  | Some vt => Nat.min n (length vt)
  | None => n
  end.
Proof.
  unfold buildTimes. destruct (explicit_times msg) as [vt|].
  - now rewrite floor_loop_length, length_firstn.
  - repeat match goal with |- context [if ?b then _ else _] => destruct b end;
      apply ramp_length.
Qed.

Lemma store_frames_length (msg : AudioChunkMsg) :
  length (store_frames msg) = length (viseme msg).
Proof. unfold store_frames. apply length_map. Qed.

Lemma store_row_length (row : list num) :
  length (store_row row) = Nat.min COLS (length row).
Proof. unfold store_row. now rewrite length_map, length_firstn. Qed.

Lemma store_value_in01 (v : num) : in01 (clamp01 (or_ v (Fin 0))).
Proof.
  apply clamp01_in01. destruct v as [q|]; unfold or_; simpl; [|reflexivity].
  now destruct (negb (Qeq_bool q 0)).
Qed.

Lemma store_row_in01 (row : list num) : Forall in01 (store_row row).
Proof.
  unfold store_row. apply Forall_map, Forall_forall.
  intros v _. apply store_value_in01.
Qed.

(* ===================================================================== *)
(** ** Rounding to nearest *)
(* ===================================================================== *)

Lemma pow2_pos (e : Z) : 0 < pow2 e.
Proof. apply Qpower_0_lt. reflexivity. Qed.

Lemma pow2_add (a b : Z) : pow2 (a + b) == pow2 a * pow2 b.
Proof. apply Qpower_plus. discriminate. Qed.

Lemma pow2_lt (a b : Z) : (a < b)%Z -> pow2 a < pow2 b.
Proof. intro H. apply Qpower_lt_compat_l; [exact H | reflexivity]. Qed.

Lemma pow2_le (a b : Z) : (a <= b)%Z -> pow2 a <= pow2 b.
Proof. intro H. apply Qpower_le_compat_l; [exact H | discriminate]. Qed.

Lemma pow2_lt_inv (a b : Z) : pow2 a < pow2 b -> (a < b)%Z.
Proof. intro H. apply (Qpower_lt_compat_l_inv 2); [exact H | reflexivity]. Qed.

Lemma pow2_Z (k : Z) : (0 <= k)%Z -> pow2 k == inject_Z (2 ^ k).
Proof. intro H. unfold pow2. now rewrite Zpower_Qpower. Qed.

Lemma pow2_sub (a b : Z) : pow2 (a - b) == pow2 a / pow2 b.
Proof.
  assert (H : pow2 a == pow2 (a - b) * pow2 b).
  { rewrite <- pow2_add. now replace (a - b + b)%Z with a by ring. }
  rewrite H. field. pose proof (pow2_pos b). lra.
Qed.

Lemma log2_bounds (a : Z) :
  (0 < a)%Z -> pow2 (Z.log2 a) <= inject_Z a < pow2 (Z.log2 a + 1).
Proof.
  intro H. destruct (Z.log2_spec a H) as [L U].
  pose proof (Z.log2_nonneg a).
  rewrite !pow2_Z by lia. rewrite <- Zle_Qle, <- Zlt_Qlt.
  replace (Z.log2 a + 1)%Z with (Z.succ (Z.log2 a)) by lia. tauto.
Qed.

Lemma Qabs_frac (x : Q) :
  Qabs x == inject_Z (Z.abs (Qnum x)) / inject_Z (Zpos (Qden x)).
Proof.
  destruct x as [n d]. cbn [Qnum Qden]. rewrite <- Zabs_Qabs.
  apply Qmake_Qdiv.
Qed.

Lemma frac_lt (a d A D : Q) :
  0 < d -> 0 < D -> a * D < A * d -> a / d < A / D.
Proof.
  intros Hd HD H. apply Qlt_shift_div_l; [exact HD|].
  setoid_replace (a / d * D) with (a * D / d) by (field; lra).
  apply Qlt_shift_div_r; [exact Hd | exact H].
Qed.

Lemma frac_le (a d A D : Q) :
  0 < d -> 0 < D -> a * D <= A * d -> a / d <= A / D.
Proof.
  intros Hd HD H. apply Qle_shift_div_l; [exact HD|].
  setoid_replace (a / d * D) with (a * D / d) by (field; lra).
  apply Qle_shift_div_r; [exact Hd | exact H].
Qed.

Lemma ilog2_spec (x : Q) :
  ~ x == 0 -> pow2 (ilog2 x) <= Qabs x < pow2 (ilog2 x + 1).
Proof.
  intro Hx. unfold ilog2.
  set (a := Z.abs (Qnum x)). set (d := Zpos (Qden x)).
  assert (Ha : (0 < a)%Z).
  { unfold a. destruct x as [n dd]. cbn [Qnum].
    assert (n <> 0)%Z; [|lia]. intro E. apply Hx. subst n. reflexivity. }
  assert (Hd : (0 < d)%Z) by (unfold d; lia).
  destruct (log2_bounds a Ha) as [A1 A2].
  destruct (log2_bounds d Hd) as [D1 D2].
  pose proof (pow2_pos (Z.log2 a)) as P0.
  pose proof (pow2_pos (Z.log2 d)) as P1.
  pose proof (pow2_pos (Z.log2 d + 1)) as P2.
  assert (Hq : Qabs x == inject_Z a / inject_Z d) by apply Qabs_frac.
  assert (Hdq : 0 < inject_Z d) by (rewrite Zlt_Qlt in Hd; exact Hd).
  cbv zeta.
  destruct (Qle_bool (pow2 (Z.log2 a - Z.log2 d)) (Qabs x)) eqn:T.
  - apply Qle_bool_iff in T. split; [exact T|].
    replace (Z.log2 a - Z.log2 d + 1)%Z with (Z.log2 a + 1 - Z.log2 d)%Z by ring.
    rewrite pow2_sub, Hq.
    apply frac_lt; [exact Hdq | exact P1 |].
    apply Qlt_le_trans with (pow2 (Z.log2 a + 1) * pow2 (Z.log2 d)).
    + apply Qmult_lt_compat_r; [exact P1 | exact A2].
    + apply Qmult_le_l; [apply pow2_pos | exact D1].
  - assert (T' : Qabs x < pow2 (Z.log2 a - Z.log2 d)).
    { apply Qnot_le_lt. intro E. apply Qle_bool_iff in E. congruence. }
    replace (Z.log2 a - Z.log2 d - 1 + 1)%Z with (Z.log2 a - Z.log2 d)%Z by ring.
    split; [|exact T'].
    replace (Z.log2 a - Z.log2 d - 1)%Z with (Z.log2 a - (Z.log2 d + 1))%Z by ring.
    rewrite pow2_sub, Hq.
    apply frac_le; [exact P2 | exact Hdq |].
    apply Qle_trans with (pow2 (Z.log2 a) * pow2 (Z.log2 d + 1)).
    + apply Qmult_le_l; [exact P0 | apply Qlt_le_weak; exact D2].
    + apply Qmult_le_compat_r; [exact A1 | apply Qlt_le_weak; exact P2].
Qed.

Lemma ilog2_unique (x : Q) (i : Z) :
  pow2 i <= Qabs x < pow2 (i + 1) -> ilog2 x = i.
Proof.
  intros [L U].
  assert (Hx : ~ x == 0).
  { intro E. assert (A : Qabs x == 0) by (rewrite E; reflexivity).
    pose proof (pow2_pos i) as P. rewrite A in L. 
    apply (Qlt_irrefl 0). apply Qlt_le_trans with (pow2 i); assumption. }
  destruct (ilog2_spec x Hx) as [L' U'].
  assert (ilog2 x < i + 1)%Z by (apply pow2_lt_inv; lra).
  assert (i < ilog2 x + 1)%Z by (apply pow2_lt_inv; lra).
  lia.
Qed.

Lemma ilog2_eq (x y : Q) : x == y -> ~ x == 0 -> ilog2 x = ilog2 y.
Proof.
  intros E Hx. symmetry. apply ilog2_unique. rewrite <- E.
  now apply ilog2_spec.
Qed.

#[global] Instance rne_proper : Proper (Qeq ==> eq) rne.
Proof.
  intros x y E. unfold rne. rewrite (Qfloor_comp x y E).
  now rewrite E.
Qed.

Lemma rne_Z (z : Z) : rne (inject_Z z) = z.
Proof.
  unfold rne. rewrite Qfloor_Z.
  assert (E : Qcompare (inject_Z z - inject_Z z) (1 # 2) = Lt).
  { apply Qlt_alt. setoid_replace (inject_Z z - inject_Z z) with 0 by ring.
    reflexivity. }
  now rewrite E.
Qed.

Lemma rne_floor (y : Q) : (Qfloor y <= rne y <= Qfloor y + 1)%Z.
Proof.
  unfold rne. destruct (Qcompare _ _); [destruct (Z.even _)| |]; lia.
Qed.

#[global] Instance round_proper (prec emin : Z) :
  Proper (Qeq ==> Qeq) (round prec emin).
Proof.
  intros x y E. unfold round.
  destruct (Qeq_bool x 0) eqn:X.
  - apply Qeq_bool_iff in X.
    assert (Y : Qeq_bool y 0 = true) by (apply Qeq_bool_iff; rewrite <- E; exact X).
    rewrite Y. reflexivity.
  - assert (X' : ~ x == 0) by (apply Qeq_bool_neq; exact X).
    assert (Y : Qeq_bool y 0 = false).
    { destruct (Qeq_bool y 0) eqn:Y; [|reflexivity].
      apply Qeq_bool_iff in Y. rewrite <- E in Y. contradiction. }
    rewrite Y. cbv zeta. rewrite <- (ilog2_eq x y E X').
    set (e := Z.max (ilog2 x - (prec - 1)) emin).
    assert (D : x / pow2 e == y / pow2 e) by (now rewrite E).
    now rewrite D.
Qed.

#[global] Instance fl64_proper : Proper (Qeq ==> Qeq) fl64.
Proof. apply round_proper. Qed.

#[global] Instance fround_proper : Proper (Qeq ==> Qeq) fround.
Proof. apply round_proper. Qed.

(** A multiple of [2^g] that needs at most [prec] bits is not changed. *)
Lemma round_exact (prec emin : Z) (x : Q) (m g : Z) :
  x == inject_Z m * pow2 g -> (emin <= g)%Z -> Qabs x < pow2 (g + prec) ->
  round prec emin x == x.
Proof.
  intros Hm Hg Hb. unfold round.
  destruct (Qeq_bool x 0) eqn:X; [apply Qeq_bool_iff in X; now rewrite X|].
  assert (X' : ~ x == 0) by (apply Qeq_bool_neq; exact X).
  cbv zeta. set (e := Z.max (ilog2 x - (prec - 1)) emin).
  destruct (ilog2_spec x X') as [L _].
  assert (Hi : (ilog2 x < g + prec)%Z) by (apply pow2_lt_inv; lra).
  assert (He : (e <= g)%Z) by (unfold e; lia).
  assert (Hd : x / pow2 e == inject_Z (m * 2 ^ (g - e))).
  { rewrite inject_Z_mult, <- pow2_Z by lia. rewrite pow2_sub, Hm.
    field. pose proof (pow2_pos e). lra. }
  rewrite Hd, rne_Z. rewrite inject_Z_mult, <- pow2_Z by lia.
  rewrite pow2_sub, Hm. field. pose proof (pow2_pos e). lra.
Qed.

(** What is not below the smallest positive number is not rounded to 0. *)
Lemma round_pos (prec emin : Z) (x : Q) :
  (0 < prec)%Z -> pow2 emin <= x -> 0 < round prec emin x.
Proof.
  intros Hp Hx. pose proof (pow2_pos emin) as P.
  unfold round.
  assert (X' : ~ x == 0) by lra.
  destruct (Qeq_bool x 0) eqn:X; [apply Qeq_bool_iff in X; contradiction|].
  cbv zeta. set (e := Z.max (ilog2 x - (prec - 1)) emin).
  destruct (ilog2_spec x X') as [L U].
  rewrite Qabs_pos in L, U by lra.
  assert (Hi : (emin < ilog2 x + 1)%Z) by (apply pow2_lt_inv; lra).
  assert (He : (e <= ilog2 x)%Z) by (unfold e; lia).
  pose proof (pow2_pos e) as Pe.
  assert (H1 : 1 <= x / pow2 e).
  { apply Qle_shift_div_l; [exact Pe|]. rewrite Qmult_1_l.
    apply Qle_trans with (pow2 (ilog2 x)); [apply pow2_le; exact He | exact L]. }
  assert (Hf : (1 <= Qfloor (x / pow2 e))%Z).
  { change 1%Z with (Qfloor 1). apply Qfloor_resp_le. exact H1. }
  pose proof (rne_floor (x / pow2 e)) as R.
  assert (0 < inject_Z (rne (x / pow2 e))).
  { change 0 with (inject_Z 0). rewrite <- Zlt_Qlt. lia. }
  apply Qmult_lt_0_compat; assumption.
Qed.

(** The shape of a rounded number. *)
Lemma round_shape (prec emin : Z) (x : Q) :
  exists m e, round prec emin x == inject_Z m * pow2 e /\
              (emin <= e)%Z /\ (~ x == 0 -> (ilog2 x - (prec - 1) <= e)%Z).
Proof.
  unfold round. destruct (Qeq_bool x 0) eqn:X.
  - exists 0%Z, emin. split; [ring|]. split; [lia|].
    intro N. apply Qeq_bool_iff in X. contradiction.
  - cbv zeta. eexists _, _. split; [reflexivity|]. split; lia.
Qed.

Lemma dyadic_coarser (x : Q) (m e g : Z) :
  x == inject_Z m * pow2 e -> (g <= e)%Z ->
  x == inject_Z (m * 2 ^ (e - g)) * pow2 g.
Proof.
  intros H Hg. rewrite inject_Z_mult, <- pow2_Z by lia.
  rewrite pow2_sub, H. field. pose proof (pow2_pos g). lra.
Qed.

Lemma round_0 (prec emin : Z) : round prec emin 0 == 0.
Proof. reflexivity. Qed.

Lemma fl64_0 : fl64 0 == 0.
Proof. reflexivity. Qed.

Lemma fl64_1 : fl64 1 == 1.
Proof.
  apply (round_exact 53 (-1074) 1 1 0); [reflexivity | lia |]. reflexivity.
Qed.

Lemma binary32_shape (x : Q) :
  fround x == x ->
  exists m e, x == inject_Z m * pow2 e /\ (-149 <= e)%Z /\
              Qabs x < pow2 (e + 24) /\
              (~ x == 0 -> (ilog2 x - 23 <= e)%Z).
Proof.
  intro F. destruct (round_shape 24 (-149) x) as [m [e [S [E1 E2]]]].
  fold (fround x) in S. rewrite F in S.
  destruct (Qeq_dec x 0) as [Z|NZ].
  - exists 0%Z, (-149)%Z. split; [rewrite Z; ring|]. split; [lia|].
    split; [|intro; contradiction].
    assert (A : Qabs x == 0) by (rewrite Z; reflexivity).
    rewrite A. apply pow2_pos.
  - exists m, e. split; [exact S|]. split; [exact E1|].
    specialize (E2 NZ). split; [|intros _; lia].
    destruct (ilog2_spec x NZ) as [_ U].
    apply Qlt_le_trans with (pow2 (ilog2 x + 1)); [exact U|].
    apply pow2_le. lia.
Qed.

Lemma Qeq_bool_nz (x : Q) : ~ x == 0 -> Qeq_bool x 0 = false.
Proof.
  intro H. destruct (Qeq_bool x 0) eqn:E; [|reflexivity].
  apply Qeq_bool_iff in E. contradiction.
Qed.

Lemma rne_mono (x y : Q) : x <= y -> (rne x <= rne y)%Z.
Proof.
  intro H. pose proof (Qfloor_resp_le x y H) as F.
  destruct (Z.eq_dec (Qfloor x) (Qfloor y)) as [E|N].
  - unfold rne. rewrite E.
    destruct (Qcompare (x - inject_Z (Qfloor y)) (1 # 2)) eqn:Cx;
      destruct (Qcompare (y - inject_Z (Qfloor y)) (1 # 2)) eqn:Cy;
      try (destruct (Z.even (Qfloor y))); try lia;
      first [apply Qeq_alt in Cx | apply Qlt_alt in Cx | apply Qgt_alt in Cx];
      first [apply Qeq_alt in Cy | apply Qlt_alt in Cy | apply Qgt_alt in Cy];
      lra.
  - pose proof (rne_floor x). pose proof (rne_floor y). lia.
Qed.

Lemma ilog2_mono (x y : Q) : 0 < x -> x <= y -> (ilog2 x <= ilog2 y)%Z.
Proof.
  intros Hx H.
  destruct (ilog2_spec x ltac:(lra)) as [L _].
  destruct (ilog2_spec y ltac:(lra)) as [_ U].
  rewrite Qabs_pos in L, U by lra.
  assert (ilog2 x < ilog2 y + 1)%Z by (apply pow2_lt_inv; lra). lia.
Qed.

Lemma round_nonneg (prec emin : Z) (x : Q) : 0 <= x -> 0 <= round prec emin x.
Proof.
  intro H. unfold round. destruct (Qeq_bool x 0); [lra|]. cbv zeta.
  set (e := Z.max _ _). pose proof (pow2_pos e) as P.
  apply Qmult_le_0_compat; [|lra].
  change 0 with (inject_Z 0). rewrite <- Zle_Qle.
  rewrite <- (rne_Z 0). apply rne_mono.
  apply Qle_shift_div_l; [exact P|]. change (inject_Z 0) with 0. lra.
Qed.

(** Rounding keeps the order of non-negative numbers. *)
Lemma round_mono (prec emin : Z) (x y : Q) :
  (0 < prec)%Z -> 0 <= x -> x <= y -> round prec emin x <= round prec emin y.
Proof.
  intros Hp Hx Hxy.
  destruct (Qeq_dec x 0) as [Zx|Nx].
  { rewrite Zx, round_0. apply round_nonneg. lra. }
  assert (Px : 0 < x) by lra. assert (Py : 0 < y) by lra.
  unfold round.
  assert (Ex : Qeq_bool x 0 = false) by (apply Qeq_bool_nz; exact Nx).
  assert (Ey : Qeq_bool y 0 = false) by (apply Qeq_bool_nz; lra).
  rewrite Ex, Ey. cbv zeta.
  pose proof (ilog2_mono x y Px Hxy) as Hi.
  set (ex := Z.max (ilog2 x - (prec - 1)) emin).
  set (ey := Z.max (ilog2 y - (prec - 1)) emin).
  pose proof (pow2_pos ex) as Pex. pose proof (pow2_pos ey) as Pey.
  destruct (Z.eq_dec ex ey) as [E|N].
  - rewrite E. apply Qmult_le_compat_r; [|lra].
    rewrite <- Zle_Qle. apply rne_mono.
    apply Qmult_le_compat_r; [exact Hxy|]. apply Qlt_le_weak, Qinv_lt_0_compat, Pey.
  - assert (Hlt : (ex < ey)%Z) by (unfold ex, ey in *; lia).
    set (j := ilog2 y).
    assert (Hey : ey = (j - (prec - 1))%Z) by (unfold ex, ey, j in *; lia).
    assert (Hj : (ilog2 x < j)%Z) by (unfold ex, ey, j in *; lia).
    destruct (ilog2_spec x Nx) as [_ Ux]. destruct (ilog2_spec y ltac:(lra)) as [Ly _].
    rewrite Qabs_pos in Ux, Ly by lra. fold j in Ly.
    apply Qle_trans with (pow2 j).
    + (* round x <= 2^j *)
      assert (Hxe : x / pow2 ex <= inject_Z (2 ^ (j - ex))).
      { rewrite <- pow2_Z by lia. rewrite pow2_sub.
        apply Qmult_le_compat_r; [|apply Qlt_le_weak, Qinv_lt_0_compat, Pex].
        apply Qle_trans with (pow2 (ilog2 x + 1)); [lra | apply pow2_le; lia]. }
      apply rne_mono in Hxe. rewrite rne_Z in Hxe.
      rewrite Zle_Qle in Hxe. rewrite <- pow2_Z in Hxe by lia.
      setoid_replace (pow2 j) with (pow2 (j - ex) * pow2 ex)
        by (rewrite <- pow2_add; now replace (j - ex + ex)%Z with j by ring).
      apply Qmult_le_compat_r; [exact Hxe | lra].
    + (* 2^j <= round y *)
      assert (Hye : inject_Z (2 ^ (j - ey)) <= y / pow2 ey).
      { rewrite <- pow2_Z by lia. rewrite pow2_sub.
        apply Qmult_le_compat_r; [exact Ly|].
        apply Qlt_le_weak, Qinv_lt_0_compat, Pey. }
      apply rne_mono in Hye. rewrite rne_Z in Hye.
      rewrite Zle_Qle in Hye. rewrite <- pow2_Z in Hye by lia.
      setoid_replace (pow2 j) with (pow2 (j - ey) * pow2 ey)
        by (rewrite <- pow2_add; now replace (j - ey + ey)%Z with j by ring).
      apply Qmult_le_compat_r; [exact Hye | lra].
Qed.

Lemma rne_err (q : Q) : Qabs (inject_Z (rne q) - q) <= 1 # 2.
Proof.
  unfold rne. pose proof (Qfloor_le q) as L. pose proof (Qlt_floor q) as U.
  rewrite inject_Z_plus in U. change (inject_Z 1) with 1 in U.
  set (f := Qfloor q) in *.
  apply Qabs_Qle_condition.
  destruct (Qcompare (q - inject_Z f) (1 # 2)) eqn:C.
  - apply Qeq_alt in C. destruct (Z.even f).
    + lra.
    + rewrite inject_Z_plus. change (inject_Z 1) with 1. lra.
  - apply Qlt_alt in C. lra.
  - apply Qgt_alt in C. rewrite inject_Z_plus. change (inject_Z 1) with 1. lra.
Qed.

(** The rounding error is at most half a unit of the last place. *)
Lemma round_err (prec emin : Z) (x : Q) :
  ~ x == 0 ->
  Qabs (round prec emin x - x)
  <= (1 # 2) * pow2 (Z.max (ilog2 x - (prec - 1)) emin).
Proof.
  intro Nx. unfold round. rewrite (Qeq_bool_nz x Nx). cbv zeta.
  set (e := Z.max _ _). pose proof (pow2_pos e) as P.
  assert (E : inject_Z (rne (x / pow2 e)) * pow2 e - x
              == (inject_Z (rne (x / pow2 e)) - x / pow2 e) * pow2 e)
    by (field; lra).
  rewrite E, Qabs_Qmult, (Qabs_pos (pow2 e)) by lra.
  apply Qmult_le_compat_r; [apply rne_err | lra].
Qed.

(** Above the subnormal range the error is relative. *)
Lemma round_rel (prec emin : Z) (x : Q) :
  pow2 (emin + prec - 1) <= Qabs x ->
  Qabs (round prec emin x - x) <= pow2 (- prec) * Qabs x.
Proof.
  intro H. pose proof (pow2_pos (emin + prec - 1)) as P.
  assert (Nx : ~ x == 0).
  { intro E. assert (A : Qabs x == 0) by (rewrite E; reflexivity). lra. }
  eapply Qle_trans; [apply round_err; exact Nx|].
  destruct (ilog2_spec x Nx) as [L U].
  assert (Hi : (emin + prec - 1 < ilog2 x + 1)%Z) by (apply pow2_lt_inv; lra).
  replace (Z.max (ilog2 x - (prec - 1)) emin) with (ilog2 x - (prec - 1))%Z by lia.
  replace (ilog2 x - (prec - 1))%Z with (1 + (- prec + ilog2 x))%Z by ring.
  rewrite !pow2_add. change (pow2 1) with 2.
  setoid_replace ((1 # 2) * (2 * (pow2 (- prec) * pow2 (ilog2 x))))
    with (pow2 (- prec) * pow2 (ilog2 x)) by ring.
  apply Qmult_le_l; [apply pow2_pos | exact L].
Qed.

Lemma round_nonpos (prec emin : Z) (x : Q) : x <= 0 -> round prec emin x <= 0.
Proof.
  intro H. unfold round. destruct (Qeq_bool x 0); [lra|]. cbv zeta.
  set (e := Z.max _ _). pose proof (pow2_pos e) as P.
  assert (R : (rne (x / pow2 e) <= 0)%Z).
  { rewrite <- (rne_Z 0). apply rne_mono.
    apply Qle_shift_div_r; [exact P|]. change (inject_Z 0) with 0. lra. }
  rewrite Zle_Qle in R. change (inject_Z 0) with 0 in R.
  assert (0 <= - inject_Z (rne (x / pow2 e)) * pow2 e)
    by (apply Qmult_le_0_compat; lra).
  lra.
Qed.

Lemma pow2_fixed (prec emin g : Z) :
  (0 < prec)%Z -> (emin <= g)%Z -> round prec emin (pow2 g) == pow2 g.
Proof.
  intros Hp Hg. apply (round_exact prec emin (pow2 g) 1 g); [ring | exact Hg |].
  rewrite Qabs_pos by (apply Qlt_le_weak, pow2_pos). apply pow2_lt. lia.
Qed.

(** Rounding does not lead across a power of two. *)
Lemma round_le_pow2 (prec emin g : Z) (x : Q) :
  (0 < prec)%Z -> (emin <= g)%Z -> 0 <= x -> x <= pow2 g ->
  round prec emin x <= pow2 g.
Proof.
  intros Hp Hg H0 H. rewrite <- (pow2_fixed prec emin g Hp Hg).
  now apply round_mono.
Qed.

(** Rounding twice is rounding once. *)
Lemma round_idem (prec emin : Z) (x : Q) :
  (0 < prec)%Z -> round prec emin (round prec emin x) == round prec emin x.
Proof.
  intro Hp. destruct (Qeq_dec x 0) as [Zx|Nx]; [now rewrite Zx, !round_0|].
  set (e := Z.max (ilog2 x - (prec - 1)) emin).
  set (m := rne (x / pow2 e)).
  assert (E : round prec emin x == inject_Z m * pow2 e).
  { unfold round. rewrite (Qeq_bool_nz x Nx). reflexivity. }
  rewrite E.
  pose proof (pow2_pos e) as Pe.
  destruct (ilog2_spec x Nx) as [_ U].
  assert (Hq : Qabs (x / pow2 e) <= inject_Z (2 ^ prec)).
  { rewrite <- pow2_Z by lia.
    unfold Qdiv. rewrite Qabs_Qmult, Qabs_Qinv, (Qabs_pos (pow2 e)) by lra.
    apply Qle_shift_div_r; [exact Pe|]. rewrite <- pow2_add.
    apply Qle_trans with (pow2 (ilog2 x + 1)); [lra | apply pow2_le; unfold e; lia]. }
  apply Qabs_Qle_condition in Hq. destruct Hq as [Hl Hu].
  assert (Hm : (- 2 ^ prec <= m <= 2 ^ prec)%Z).
  { unfold m. split.
    - rewrite <- (rne_Z (- 2 ^ prec)). apply rne_mono. now rewrite inject_Z_opp.
    - rewrite <- (rne_Z (2 ^ prec)). now apply rne_mono. }
  assert (P2 : (0 < 2 ^ prec)%Z) by (apply Z.pow_pos_nonneg; lia).
  destruct (Z.eq_dec (Z.abs m) (2 ^ prec)) as [C|C].
  - (* a carry: the result is a power of two *)
    apply (round_exact prec emin _ (Z.sgn m) (e + prec)).
    + assert (M : inject_Z m == inject_Z (Z.sgn m) * inject_Z (2 ^ prec))
        by (rewrite <- inject_Z_mult, <- C; f_equiv; lia).
      rewrite pow2_add, (pow2_Z prec), M by lia. ring.
    + unfold e. lia.
    + rewrite Qabs_Qmult, (Qabs_pos (pow2 e)) by lra.
      assert (A : Qabs (inject_Z m) == inject_Z (Z.abs m))
        by (unfold inject_Z; now rewrite Zabs_Qabs).
      rewrite A, C, <- pow2_Z, <- pow2_add by lia.
      apply pow2_lt. lia.
  - apply (round_exact prec emin _ m e); [reflexivity | unfold e; lia |].
    rewrite Qabs_Qmult, (Qabs_pos (pow2 e)) by lra.
    assert (A : Qabs (inject_Z m) == inject_Z (Z.abs m))
      by (unfold inject_Z; now rewrite Zabs_Qabs).
    rewrite A. replace (e + prec)%Z with (prec + e)%Z by ring.
    rewrite pow2_add, (pow2_Z prec) by lia.
    apply Qmult_lt_r; [exact Pe|]. rewrite <- Zlt_Qlt. lia.
Qed.

Lemma fl64_le_pow2 (g : Z) (x : Q) :
  (-1074 <= g)%Z -> 0 <= x -> x <= pow2 g -> fl64 x <= pow2 g.
Proof. intros. apply round_le_pow2; auto; lia. Qed.

Lemma fround_le_pow2 (g : Z) (x : Q) :
  (-149 <= g)%Z -> 0 <= x -> x <= pow2 g -> fround x <= pow2 g.
Proof. intros. apply round_le_pow2; auto; lia. Qed.

Lemma fl64_nonneg (x : Q) : 0 <= x -> 0 <= fl64 x.
Proof. apply round_nonneg. Qed.

Lemma fround_nonneg (x : Q) : 0 <= x -> 0 <= fround x.
Proof. apply round_nonneg. Qed.

Lemma fl64_mono (x y : Q) : 0 <= x -> x <= y -> fl64 x <= fl64 y.
Proof. apply round_mono. lia. Qed.

Lemma fround_mono (x y : Q) : 0 <= x -> x <= y -> fround x <= fround y.
Proof. apply round_mono. lia. Qed.

(** A positive number and its rounding, above the subnormal range. *)
Lemma round_rel_pos (prec emin : Z) (x : Q) :
  pow2 (emin + prec - 1) <= x ->
  x * (1 - pow2 (- prec)) <= round prec emin x <= x * (1 + pow2 (- prec)).
Proof.
  intro H. pose proof (pow2_pos (emin + prec - 1)) as P.
  assert (A : Qabs x == x) by (apply Qabs_pos; lra).
  pose proof (round_rel prec emin x) as R. rewrite A in R. specialize (R H).
  apply Qabs_Qle_condition in R. lra.
Qed.

Lemma fl64_rel (x : Q) :
  pow2 (-1022) <= x -> x * (1 - pow2 (-53)) <= fl64 x <= x * (1 + pow2 (-53)).
Proof. exact (round_rel_pos 53 (-1074) x). Qed.

Lemma fround_rel (x : Q) :
  pow2 (-126) <= x -> x * (1 - pow2 (-24)) <= fround x <= x * (1 + pow2 (-24)).
Proof. exact (round_rel_pos 24 (-149) x). Qed.

(* ===================================================================== *)
(** ** The timeline builder and the stored rows *)
(* ===================================================================== *)

(** Three rows of fifteen zeros with two explicit timestamps. *)
Definition msg_two_stamps : AudioChunkMsg :=
  {| audio := None;
     viseme := [zeros COLS; zeros COLS; zeros COLS];
     viseme_times := Some [Fin 0; Fin 1];
     duration_ms := None; frame_ms := None; viseme_fps := None |}.

(** C2, at the failing input: three rows with the timestamps [[0, 1]] give a
    chunk of three frames whose raw time axis has two entries. *)
Lemma frames_times_length_differ :
  length (frames (new_chunk msg_two_stamps false)) = 3%nat /\
  length (timesRaw (new_chunk msg_two_stamps false)) = 2%nat /\
  length (frames (new_chunk msg_two_stamps false))
    <> length (timesRaw (new_chunk msg_two_stamps false)).
Proof. repeat split. vm_compute. discriminate. Qed.

(** The lengths in a new chunk: one frame per viseme row; an entry of the raw
    axis per frame in the three generated modes, where the axis is allocated
    with [framesN] entries; with explicit timestamps the smaller of the number
    of timestamps and the number of frames, since [slice(0, framesN)] only
    shortens. *)
Lemma new_chunk_lengths (msg : AudioChunkMsg) (is_muted : bool) :
  let ch := new_chunk msg is_muted in
  length (frames ch) = length (viseme msg) /\
  length (timesRaw ch) =
    match explicit_times msg with
    | Some vt => Nat.min (length (frames ch)) (length vt)
    | None => length (frames ch)
    end /\
  (length (timesRaw ch) <= length (frames ch))%nat.
Proof.
  simpl. rewrite buildTimes_length, store_frames_length.
  repeat split. destruct (explicit_times msg); lia.
Qed.

(** One row holding the single value [0.5], with a one second duration. *)
Definition msg_short_row : AudioChunkMsg :=
  {| audio := None;
     viseme := [[Fin (1 # 2)]];
     viseme_times := None;
     duration_ms := Some (Fin 1000); frame_ms := None; viseme_fps := None |}.

(** C3, at the failing input: the row [[0.5]] is stored as a row of one
    element, not fifteen, and its channel 1 reads as [NaN], not as [0]. *)
Theorem short_row_not_padded :
  frames (new_chunk msg_short_row false) = [[Fin (1 # 2)]] /\
  rd (nth 0 (frames (new_chunk msg_short_row false)) []) 1 = NaN.
Proof. split; reflexivity. Qed.

(** Two rows with the explicit timestamps [[0.5, 1]]. *)
Definition msg_late_start : AudioChunkMsg :=
  {| audio := None;
     viseme := [zeros COLS; zeros COLS];
     viseme_times := Some [Fin (1 # 2); Fin 1];
     duration_ms := None; frame_ms := None; viseme_fps := None |}.

(** C4, at the failing input: with the timestamps [[0.5, 1]] the raw axis is
    [[0.5, 1]], whose first entry is not [0]. *)
Theorem explicit_times_start_late :
  buildTimes 2 msg_late_start = [Fin (1 # 2); Fin 1] /\
  ~ num_eq (rd (buildTimes 2 msg_late_start) 0) (Fin 0).
Proof. split; [reflexivity|]. vm_compute. discriminate. Qed.


(** The duration hint in seconds, floored at 20 ms, in the spec's words. *)
Definition spec_duration (msg : AudioChunkMsg) : Q :=
  match duration_ms msg with
  | Some (Fin d) => Qmax (2 # 100) (d / 1000)
  | _ => 2 # 100
  end.

(** The spacing of [n] samples spread evenly over [[0, D]]. *)
Definition spec_step (n : nat) (D : Q) : Q :=
  if (1 <? n)%nat then D / inject_Z (Z.of_nat (n - 1)) else D.


Lemma durS_of_spec (msg : AudioChunkMsg) :
  num_eq (durS_of msg) (Fin (spec_duration msg)).
Proof.
  unfold durS_of, spec_duration.
  destruct (duration_ms msg) as [[d|]|]; cbn [Number]; try reflexivity.
  unfold or_, truthy.
  destruct (Q.max_spec (2 # 100) (d / 1000)) as [[H1 H2]|[H1 H2]].
  all: destruct (Qeq_bool d 0) eqn:E; cbn [negb div];
    change (Qeq_bool 1000 0) with false; cbv iota; cbn [Math_max num_eq].
  all: q_cases; try lra.
  all: apply Qeq_bool_iff in E; rewrite E in *; lra.
Qed.

Lemma spec_duration_floor (msg : AudioChunkMsg) : 2 # 100 <= spec_duration msg.
Proof.
  unfold spec_duration. destruct (duration_ms msg) as [[d|]|]; try lra.
  destruct (Q.max_spec (2 # 100) (d / 1000)) as [[H1 H2]|[H1 H2]]; lra.
Qed.

Lemma inject_nat_nonzero (n : nat) :
  (0 < n)%nat -> Qeq_bool (inject_Z (Z.of_nat n)) 0 = false.
Proof.
  intro H. destruct (Qeq_bool _ _) eqn:E; [|reflexivity].
  apply Qeq_bool_iff in E. unfold Qeq in E. simpl in E. lia.
Qed.

Lemma inject_nat_pos (n : nat) : (0 < n)%nat -> 0 < inject_Z (Z.of_nat n).
Proof. intro H. unfold Qlt. simpl. lia. Qed.


(** Four rows and the single hint [duration_ms = 1000]. *)
Definition msg_one_second : AudioChunkMsg :=
  {| audio := None;
     viseme := [zeros COLS; zeros COLS; zeros COLS; zeros COLS];
     viseme_times := None;
     duration_ms := Some (Fin 1000); frame_ms := None; viseme_fps := None |}.



(** The hint [duration_ms = 250] with an empty timestamp list, five rows. *)
Definition msg_quarter_second : AudioChunkMsg :=
  {| audio := None;
     viseme := repeat (zeros COLS) 5;
     viseme_times := Some [];
     duration_ms := Some (Fin 250); frame_ms := None; viseme_fps := None |}.


(* ===================================================================== *)
(** ** The scheduler: shape of the state *)
(* ===================================================================== *)

Section SchedulerFacts.

Variable Math_exp : Q -> Q.
Variable opts : Options.

Local Abbreviation getFrame := (getFrame Math_exp opts).
Local Abbreviation relax := (relax Math_exp opts).
Local Abbreviation spring := (spring opts).
Local Abbreviation step := (step Math_exp opts).
Local Abbreviation run := (run Math_exp opts).
Local Abbreviation startNext := (startNext opts).

(** The pose vectors keep the length they were allocated with. *)
Definition pose_ok (s : State) : Prop :=
  length (pos s) = COLS /\ length (vel s) = COLS.

Lemma relax_split (dt : num) (p v : list num) :
  relax dt p v =
  (for_loop COLS
     (fun i o => set o i (rd o i * exp_num Math_exp (- neutralDecayPerSec opts * dt))%js) p,
   for_loop COLS
     (fun i o => set o i (rd o i * exp_num Math_exp (- neutralDecayPerSec opts * dt))%js) v).
Proof.
  unfold relax. generalize COLS. intro n.
  induction n as [|n IH]; [reflexivity|].
  rewrite !for_loop_S, IH. reflexivity.
Qed.

Lemma relax_length (dt : num) (p v : list num) :
  length (fst (relax dt p v)) = length p /\
  length (snd (relax dt p v)) = length v.
Proof.
  rewrite relax_split. cbn [fst snd].
  split; apply (update_loop_length COLS (fun _ x => (x * _)%js)).
Qed.

Lemma relax_rd (dt : num) (p v : list num) (i : nat) :
  (i < COLS)%nat -> length p = COLS ->
  rd (fst (relax dt p v)) i
  = (rd p i * exp_num Math_exp (- neutralDecayPerSec opts * dt))%js.
Proof.
  intros Hi Hp. rewrite relax_split. cbn [fst].
  apply (update_loop_rd COLS (fun _ x => (x * _)%js)); lia.
Qed.

Lemma spring_length (dt : num) (target p v : list num) :
  length (fst (spring dt target p v)) = length p /\
  length (snd (spring dt target p v)) = length v.
Proof.
  unfold spring.
  apply (for_loop_inv
           (fun pv => length (fst pv) = length p /\ length (snd pv) = length v));
    [split; reflexivity|].
  intros i [p' v'] _ [Hp Hv]. unfold spring_body. cbn [fst snd].
  now rewrite !set_length.
Qed.

Lemma at_Z_some {A : Type} (a : list A) (i : Z) :
  (0 <= i < Z.of_nat (length a))%Z -> exists x, at_Z a i = Some x.
Proof.
  intro H. unfold at_Z.
  destruct (i <? 0)%Z eqn:E; [apply Z.ltb_lt in E; lia|].
  destruct (nth_error a (Z.to_nat i)) eqn:En; [eauto|].
  apply nth_error_None in En. lia.
Qed.

Lemma frame_or_some (fr : list (list num)) (i j : Z) :
  (0 <= j < Z.of_nat (length fr))%Z -> exists f, frame_or fr i j = Some f.
Proof.
  intro H. unfold frame_or. destruct (at_Z fr i); [eauto|].
  now apply at_Z_some.
Qed.

(** [sampleCatmullRom] does not throw on a chunk that has a frame. *)
Lemma sampleCatmullRom_some (ch : Chunk) (t : num) (out : list num) :
  length (frames ch) <> 0%nat ->
  exists r, sampleCatmullRom ch t out = Some r /\ length r = length out.
Proof.
  intro H. unfold sampleCatmullRom.
  set (nF := Z.of_nat (length (frames ch))).
  assert (H0 : (0 <= 0 < nF)%Z) by (unfold nF; lia).
  assert (H1 : (0 <= nF - 1 < nF)%Z) by (unfold nF; lia).
  destruct (frame_or_some (frames ch) (Z.max (lowerBound (times ch) t - 1 - 1) 0) 0 H0) as [a Ha].
  destruct (frame_or_some (frames ch) (lowerBound (times ch) t - 1) 0 H0) as [b Hb].
  destruct (frame_or_some (frames ch) (lowerBound (times ch) t) (nF - 1) H1) as [c Hc].
  destruct (frame_or_some (frames ch) (Z.min (lowerBound (times ch) t + 1) (nF - 1)) (nF - 1) H1) as [d Hd].
  cbv zeta. rewrite Ha, Hb, Hc, Hd.
  eexists; split; [reflexivity|]. apply fill_loop_length.
Qed.

(** [getFrame] never throws and never returns [null]: it returns the pose
    vector, whose length it keeps. *)
Lemma getFrame_frame (e : Env) (s : State) :
  exists a, fst (getFrame e s) = Frame a /\
            a = pos (snd (getFrame e s)) /\
            length a = length (pos s) /\
            length (vel (snd (getFrame e s))) = length (vel s).
Proof.
  unfold getFrame. cbn [active set_lastTick pos vel tmp].
  destruct (active s) as [ch|].
  - destruct ((length (frames ch) =? 0)%nat || (length (times ch) =? 0)%nat) eqn:E.
    + cbn [fst snd pos vel set_pose].
      exists (fst (relax (tick_dt e s) (pos s) (vel s))).
      split; [reflexivity|]. split; [reflexivity|]. apply relax_length.
    + apply orb_false_iff in E. destruct E as [E _]. apply Nat.eqb_neq in E.
      destruct (sampleCatmullRom_some ch (playback_time e ch) (tmp s) E) as [r [Hr _]].
      rewrite Hr. cbn [fst snd pos vel set_pose].
      eexists. split; [reflexivity|]. split; [reflexivity|]. apply spring_length.
  - cbn [fst snd pos vel set_pose].
    exists (fst (relax (tick_dt e s) (pos s) (vel s))).
    split; [reflexivity|]. split; [reflexivity|]. apply relax_length.
Qed.

Lemma startNext_pose (e : Env) (s : State) :
  pos (startNext e s) = pos s /\ vel (startNext e s) = vel s.
Proof.
  unfold startNext. destruct (active s), (queue s); split; reflexivity.
Qed.

Lemma step_pose_ok (s : State) (ev : event) : pose_ok s -> pose_ok (step s ev).
Proof.
  unfold pose_ok. intros [Hp Hv]. destruct ev as [msg e|e|e|e|v|]; cbn [step].
  - unfold pushChunk.
    destruct (startNext_pose e (set_queue s (queue s ++ [new_chunk msg (muted s)]))) as [-> ->].
    now split.
  - destruct (getFrame_frame e s) as [a [_ [Ha [Hl Hlv]]]]. subst a.
    split; congruence.
  - unfold onMeta. destruct (active s) as [ch|]; [|now split].
    destruct (metaListener ch); now split.
  - unfold completed. destruct (startNext_pose e (set_active s None)) as [-> ->].
    now split.
  - now split.
  - now split.
Qed.

Lemma run_pose_ok (s : State) (evs : list event) : pose_ok s -> pose_ok (run s evs).
Proof.
  revert s. induction evs as [|ev evs IH]; intros s H; [exact H|].
  apply IH, step_pose_ok, H.
Qed.

(** C10: in every state reached from a fresh scheduler, [getFrame] returns
    an array of exactly 15 elements: it returns neither [null] nor throws,
    idle or active, also on a chunk without frames or without a scaled time
    axis. *)
Theorem getFrame_returns_15 (t0 : Q) (evs : list event) (e : Env) :
  exists a, fst (getFrame e (run (init t0) evs)) = Frame a /\ length a = COLS.
Proof.
  destruct (getFrame_frame e (run (init t0) evs)) as [a [Ha [_ [Hl _]]]].
  exists a. split; [exact Ha|]. rewrite Hl.
  apply (run_pose_ok (init t0) evs). split; reflexivity.
Qed.

End SchedulerFacts.

(* ===================================================================== *)
(** ** The chunk queue *)
(* ===================================================================== *)

Lemma subseq_refl {A : Type} (l : list A) : subseq l l.
Proof. induction l; [apply subseq_nil | now apply subseq_keep]. Qed.

Lemma subseq_app_same {A : Type} (p l1 l2 : list A) :
  subseq l1 l2 -> subseq (p ++ l1) (p ++ l2).
Proof. intro H. induction p; simpl; [exact H | now apply subseq_keep]. Qed.

Lemma subseq_app_skip {A : Type} (p l1 l2 : list A) :
  subseq l1 l2 -> subseq l1 (p ++ l2).
Proof. intro H. induction p; simpl; [exact H | now apply subseq_skip]. Qed.

Section QueueFacts.

Variable Math_exp : Q -> Q.
Variable opts : Options.

Local Abbreviation getFrame := (getFrame Math_exp opts).
Local Abbreviation step := (step Math_exp opts).
Local Abbreviation run := (run Math_exp opts).
Local Abbreviation startNext := (startNext opts).
Local Abbreviation submissions := (submissions Math_exp opts).
Local Abbreviation activations := (activations Math_exp opts).

Lemma getFrame_queue (e : Env) (s : State) :
  queue (snd (getFrame e s)) = queue s /\
  active (snd (getFrame e s)) = active s /\
  muted (snd (getFrame e s)) = muted s.
Proof.
  unfold getFrame. cbn [active set_lastTick pos vel tmp].
  destruct (active s) as [ch|] eqn:Ea; [|rewrite <- Ea; repeat split].
  destruct (_ || _); [rewrite <- Ea; repeat split|].
  destruct (sampleCatmullRom _ _ _); rewrite <- Ea; repeat split.
Qed.

Lemma startNext_shifts (e : Env) (s : State) :
  match shifts s with
  | Some c => queue s = c :: queue (startNext e s) /\
              active (startNext e s) = Some (activate opts e s c)
  | None => startNext e s = s
  end.
Proof.
  unfold shifts, startNext.
  destruct (active s), (queue s); try reflexivity. now split.
Qed.

(** An event other than [stop] moves chunks from the head of the queue to
    the active slot and appends the submitted chunk at the tail. *)
Lemma step_fifo (s : State) (ev : event) :
  is_stop ev = false ->
  queue s ++ submitted s ev = activated s ev ++ queue (step s ev).
Proof.
  intro Hs. destruct ev as [msg e|e|e|e|v|]; cbn [submitted activated step].
  - unfold pushChunk.
    pose proof (startNext_shifts e (set_queue s (queue s ++ [new_chunk msg (muted s)]))) as H.
    destruct (shifts _) as [c|].
    + destruct H as [H _]. cbn [queue set_queue] in H. exact H.
    + rewrite H. reflexivity.
  - destruct (getFrame_queue e s) as [-> _]. now rewrite app_nil_r.
  - rewrite app_nil_r. unfold onMeta. destruct (active s) as [ch|]; [|reflexivity].
    now destruct (metaListener ch).
  - unfold completed.
    pose proof (startNext_shifts e (set_active s None)) as H.
    destruct (shifts _) as [c|].
    + destruct H as [H _]. cbn [queue set_active] in H. now rewrite app_nil_r.
    + rewrite H. now rewrite app_nil_r.
  - now rewrite app_nil_r.
  - discriminate.
Qed.

Lemma run_fifo (s : State) (evs : list event) :
  existsb is_stop evs = false ->
  queue s ++ submissions s evs = activations s evs ++ queue (run s evs).
Proof.
  revert s. induction evs as [|ev evs IH]; intros s H; cbn.
  - now rewrite app_nil_r.
  - cbn in H. apply orb_false_iff in H. destruct H as [H1 H2].
    rewrite app_assoc, (step_fifo s ev H1), <- !app_assoc.
    f_equal. apply IH, H2.
Qed.

Lemma run_subseq (s : State) (evs : list event) :
  subseq (activations s evs ++ queue (run s evs)) (queue s ++ submissions s evs).
Proof.
  revert s. induction evs as [|ev evs IH]; intro s; cbn.
  - rewrite app_nil_r. apply subseq_refl.
  - destruct (is_stop ev) eqn:Hs.
    + destruct ev; try discriminate. cbn.
      apply subseq_app_skip. apply (IH (stop s)).
    + rewrite app_assoc, (step_fifo s ev Hs), <- !app_assoc.
      apply subseq_app_same, IH.
Qed.

Lemma startNext_noop (e : Env) (s : State) (c : Chunk) :
  active s = Some c -> startNext e s = s.
Proof. intro H. unfold startNext. now rewrite H. Qed.

Lemma begin_keeps (e : Env) (p : list num) (ch : Chunk) (d : num) :
  frames (begin opts e p ch d) = frames ch /\
  timesRaw (begin opts e p ch d) = timesRaw ch /\
  audioEl (begin opts e p ch d) = audioEl ch.
Proof. repeat split. Qed.

Lemma activate_keeps (e : Env) (s : State) (ch : Chunk) :
  frames (activate opts e s ch) = frames ch /\
  timesRaw (activate opts e s ch) = timesRaw ch /\
  audioEl (activate opts e s ch) = audioEl ch.
Proof.
  unfold activate.
  destruct (_ && _); [destruct (_ && _)|]; repeat split.
Qed.

(** A step activates at most one chunk, and that chunk then fills the
    active slot. *)
Lemma activated_single (s : State) (ev : event) (c : Chunk) :
  In c (activated s ev) ->
  activated s ev = [c] /\
  exists c', active (step s ev) = Some c' /\
             frames c' = frames c /\ timesRaw c' = timesRaw c.
Proof.
  destruct ev as [msg e|e|e|e|v|]; cbn [activated step];
    try (intros []).
  - unfold pushChunk.
    pose proof (startNext_shifts e (set_queue s (queue s ++ [new_chunk msg (muted s)]))) as H.
    destruct (shifts _) as [c0|]; [|intros []].
    intros [->|[]]. split; [reflexivity|]. destruct H as [_ H].
    eexists; split; [exact H|]. split; apply activate_keeps.
  - unfold completed.
    pose proof (startNext_shifts e (set_active s None)) as H.
    destruct (shifts _) as [c0|]; [|intros []].
    intros [->|[]]. split; [reflexivity|]. destruct H as [_ H].
    eexists; split; [exact H|]. split; apply activate_keeps.
Qed.

(** C6: from a fresh scheduler, the chunks activated so far followed by the
    pending queue are a subsequence of the chunks submitted so far, in
    submission order, and are all of them when no [stop] occurred; a step
    activates at most one chunk, which then fills the single active slot
    ([active] holds one chunk or none); and [startNext] is a no-op while a
    chunk is active. *)
Theorem fifo_activation (t0 : Q) (evs : list event) :
  subseq (activations (init t0) evs ++ queue (run (init t0) evs))
         (submissions (init t0) evs) /\
  (existsb is_stop evs = false ->
   submissions (init t0) evs
   = activations (init t0) evs ++ queue (run (init t0) evs)) /\
  (forall (s : State) (ev : event) (c : Chunk),
     In c (activated s ev) ->
     activated s ev = [c] /\
     exists c', active (step s ev) = Some c' /\
                frames c' = frames c /\ timesRaw c' = timesRaw c) /\
  (forall (e : Env) (s : State) (c : Chunk),
     active s = Some c -> startNext e s = s).
Proof.
  split; [apply (run_subseq (init t0))|].
  split; [intro H; apply (run_fifo (init t0) evs H)|].
  split; [apply activated_single | apply startNext_noop].
Qed.

(** C9: [stop] empties the queue and the active slot and leaves the filtered
    pose and the velocity as they are; the next [getFrame] is an idle tick,
    which returns every channel of that pose multiplied by
    [exp(-neutralDecayPerSec * dt)]. *)
Theorem stop_keeps_pose (s : State) :
  queue (stop s) = [] /\ active (stop s) = None /\
  pos (stop s) = pos s /\ vel (stop s) = vel s /\
  forall (e : Env) (i : nat),
    (i < COLS)%nat -> length (pos s) = COLS ->
    exists a, fst (getFrame e (stop s)) = Frame a /\
              rd a i = (rd (pos s) i
                        * exp_num Math_exp (- neutralDecayPerSec opts * tick_dt e s))%js.
Proof.
  repeat (split; [reflexivity|]).
  intros e i Hi Hp. unfold getFrame. cbn [active set_lastTick stop set_active set_queue].
  cbn [fst pos vel]. eexists; split; [reflexivity|].
  apply relax_rd; assumption.
Qed.

End QueueFacts.

(** A rational stand-in for [Math.exp], the (2,2) Pade approximant, to run
    the scheduler on concrete inputs. *)
Definition exp_approx (x : Q) : Q :=
  (1 + x / 2 + x * x / 12) / (1 - x / 2 + x * x / 12).

(** A platform reading at time [t] with no audio metadata. *)
Definition env_at (t : Q) : Env :=
  {| now := t; audio_duration := NaN; audio_currentTime := NaN |}.

Definition demo_events : list event :=
  [PushChunk msg_one_second (env_at 0);
   PushChunk msg_quarter_second (env_at (1 # 100));
   GetFrame (env_at (2 # 100));
   Completed (env_at (3 # 2))].

Lemma fifo_activation_witness :
  existsb is_stop demo_events = false /\
  submissions exp_approx no_options (init 0) demo_events
  = activations exp_approx no_options (init 0) demo_events
    ++ queue (run exp_approx no_options (init 0) demo_events).
Proof.
  split; [reflexivity|].
  apply (proj1 (proj2 (fifo_activation exp_approx no_options 0 demo_events))).
  reflexivity.
Defined.

Lemma stop_keeps_pose_witness :
  (3 < COLS)%nat /\
  length (pos (run exp_approx no_options (init 0) demo_events)) = COLS /\
  exists a,
    fst (getFrame exp_approx no_options (env_at 2)
           (stop (run exp_approx no_options (init 0) demo_events))) = Frame a /\
    rd a 3 = (rd (pos (run exp_approx no_options (init 0) demo_events)) 3
              * exp_num exp_approx
                  (- neutralDecayPerSec no_options
                   * tick_dt (env_at 2)
                       (run exp_approx no_options (init 0) demo_events)))%js.
Proof.
  split; [unfold COLS; lia|]. split; [reflexivity|].
  apply (proj2 (proj2 (proj2 (proj2
           (stop_keeps_pose exp_approx no_options
              (run exp_approx no_options (init 0) demo_events)))))).
  - unfold COLS; lia.
  - reflexivity.
Defined.

(* ===================================================================== *)
(** ** Rescaling the time axis at activation *)
(* ===================================================================== *)

Lemma tail_of_map_Fin (qs : list Q) :
  qs <> [] -> tail_of (map Fin qs) = Fin (last qs 0).
Proof.
  unfold tail_of. induction qs as [|q qs IH]; [congruence|]. intros _.
  destruct qs as [|q' qs]; [reflexivity|].
  change (last (map Fin (q' :: qs)) NaN = Fin (last (q' :: qs) 0)).
  apply IH. discriminate.
Qed.


Section Rescale.

Variable opts : Options.




End Rescale.

Definition Q_of (a : num) : Q :=
  match a with
  | Fin q => q
  | NaN => 0
  end.

(** One row of fifteen zeros with a half second duration: its raw axis is
    [[0]]. *)
Definition msg_single : AudioChunkMsg :=
  {| audio := None;
     viseme := [zeros COLS];
     viseme_times := None;
     duration_ms := Some (Fin 500); frame_ms := None; viseme_fps := None |}.


(* ===================================================================== *)
(** ** The interpolator at a control point *)
(* ===================================================================== *)

(** A strictly increasing time axis. *)
Definition increasing (l : list num) : Prop :=
  forall i j, (i < j < length l)%nat -> lt (rd l i) (rd l j) = true.

Lemma lt_irrefl (a : num) : lt a a = false.
Proof. destruct a as [q|]; [|reflexivity]. apply Qltb_false. lra. Qed.

Lemma lt_asym (a b : num) : lt a b = true -> lt b a = false.
Proof.
  destruct a as [x|], b as [y|]; try discriminate. cbn [lt].
  intro H. apply Qltb_true in H. apply Qltb_false. lra.
Qed.

Lemma rdZ_nat (a : list num) (i : nat) : rdZ a (Z.of_nat i) = rd a i.
Proof.
  unfold rdZ. destruct (Z.of_nat i <? 0)%Z eqn:E; [apply Z.ltb_lt in E; lia|].
  now rewrite Nat2Z.id.
Qed.

Lemma half_between (lo hi : Z) :
  (lo <= hi)%Z -> (lo <= Z.shiftr (lo + hi) 1 <= hi)%Z.
Proof.
  intro H. rewrite Z.shiftr_div_pow2 by lia. change (2 ^ 1)%Z with 2%Z.
  split; [apply Z.div_le_lower_bound | apply Z.div_le_upper_bound]; lia.
Qed.

Lemma lb_loop_at (arr : list num) (k : nat) (lo hi : Z) :
  increasing arr -> (k < length arr)%nat ->
  (0 <= lo <= Z.of_nat k)%Z ->
  (Z.of_nat k <= hi + 1 <= Z.of_nat (length arr))%Z ->
  lb_loop arr (rd arr k) lo hi = Z.of_nat k.
Proof.
  intros Hinc Hk. 
  funelim (lb_loop arr (rd arr k) lo hi); intros Hlo Hhi.
  - pose proof (half_between lo hi l) as Hm.
    set (mid := Z.shiftr (lo + hi) 1) in *.
    assert (Hmid : rdZ arr mid = rd arr (Z.to_nat mid)).
    { rewrite <- (Z2Nat.id mid) at 1 by lia. apply rdZ_nat. }
    rewrite Hmid.
    destruct (Z_lt_ge_dec mid (Z.of_nat k)) as [Hlt|Hge].
    + rewrite Hinc by lia. apply H; auto; lia.
    + assert (Hf : lt (rd arr (Z.to_nat mid)) (rd arr k) = false).
      { destruct (Z.eq_dec mid (Z.of_nat k)) as [E|E].
        - rewrite E, Nat2Z.id. apply lt_irrefl.
        - apply lt_asym, Hinc. lia. }
      rewrite Hf. apply H0; auto; lia.
  - lia.
Qed.

Lemma lowerBound_at (arr : list num) (k : nat) :
  increasing arr -> (k < length arr)%nat ->
  lowerBound arr (rd arr k) = Z.max 1 (Z.of_nat k).
Proof.
  intros Hinc Hk. unfold lowerBound. cbv zeta.
  rewrite (lb_loop_at arr k) by (auto; lia). lia.
Qed.

Lemma catmullRom_at_0 (a b c d u : Q) :
  u == 0 -> num_eq (catmullRom (Fin a) (Fin b) (Fin c) (Fin d) (Fin u)) (Fin b).
Proof.
  intro H. unfold catmullRom. cbn. rewrite H. ring.
Qed.

Lemma catmullRom_at_1 (a b c d u : Q) :
  u == 1 -> num_eq (catmullRom (Fin a) (Fin b) (Fin c) (Fin d) (Fin u)) (Fin c).
Proof.
  intro H. unfold catmullRom. cbn. rewrite H. ring.
Qed.

Lemma clamp01_num_eq (x y : num) : num_eq x y -> in01 y -> num_eq (clamp01 x) y.
Proof.
  destruct x as [a|], y as [b|]; cbn [num_eq in01]; try tauto.
  intros E [H0 H1]. rewrite clamp01_id; [exact E|]. cbn. lra.
Qed.

(** A row of the chunk holds a value of [[0, 1]] in each of its 15 channels. *)
Definition is_pose (row : list num) : Prop :=
  forall i, (i < COLS)%nat -> in01 (rd row i).

Lemma at_Z_in {A : Type} (a : list A) (i : Z) (x : A) :
  at_Z a i = Some x -> In x a.
Proof.
  unfold at_Z. destruct (i <? 0)%Z; [discriminate|]. apply nth_error_In.
Qed.

Lemma frame_or_in (fr : list (list num)) (i j : Z) (f : list num) :
  frame_or fr i j = Some f -> In f fr.
Proof.
  unfold frame_or. destruct (at_Z fr i) eqn:E.
  - intros [= <-]. eapply at_Z_in, E.
  - apply at_Z_in.
Qed.

Lemma frame_or_at (fr : list (list num)) (i : nat) (j : Z) :
  (i < length fr)%nat -> frame_or fr (Z.of_nat i) j = Some (nth i fr []).
Proof.
  intro H. unfold frame_or, at_Z.
  destruct (Z.of_nat i <? 0)%Z eqn:E; [apply Z.ltb_lt in E; lia|].
  rewrite Nat2Z.id. now rewrite (nth_error_nth' fr [] H).
Qed.

Lemma in01_Fin (a : num) : in01 a -> exists q, a = Fin q /\ 0 <= q <= 1.
Proof. destruct a as [q|]; cbn; [eauto | tauto]. Qed.

(** The local parameter at the sample [times[k]]: [0] at the first sample,
    [1] at every later one. *)
Lemma local_parameter_at (ts : list num) (k : nat) :
  increasing ts -> (k < length ts)%nat ->
  let idx1 := Z.max 1 (Z.of_nat k) in
  let t0 := rdZ ts (idx1 - 1) in
  let t1 := rdZ ts idx1 in
  exists u,
    (if gt t1 t0 then ((rd ts k - t0) / (t1 - t0))%js else Fin 0) = Fin u /\
    (k = 0%nat -> u == 0) /\ (k <> 0%nat -> u == 1).
Proof.
  intros Hinc Hk. cbv zeta.
  destruct k as [|k].
  - change (Z.max 1 (Z.of_nat 0)) with 1%Z. change (1 - 1)%Z with (Z.of_nat 0).
    change 1%Z with (Z.of_nat 1). rewrite !rdZ_nat.
    destruct (gt (rd ts 1) (rd ts 0)) eqn:G.
    + unfold gt in G. destruct (rd ts 0) as [a|], (rd ts 1) as [b|]; try discriminate.
      cbn [lt] in G. apply Qltb_true in G. cbn [sub lift2 div].
      assert (Hz : Qeq_bool (b - a) 0 = false).
      { destruct (Qeq_bool (b - a) 0) eqn:E; [|reflexivity].
        apply Qeq_bool_iff in E. lra. }
      rewrite Hz. eexists; split; [reflexivity|]. split; [|congruence].
      intros _. field. intro. lra.
    + exists 0. split; [reflexivity|]. split; [reflexivity | congruence].
  - replace (Z.max 1 (Z.of_nat (S k))) with (Z.of_nat (S k)) by lia.
    replace (Z.of_nat (S k) - 1)%Z with (Z.of_nat k) by lia.
    rewrite !rdZ_nat. unfold gt. rewrite Hinc by lia.
    pose proof (Hinc k (S k) ltac:(lia)) as G.
    destruct (rd ts k) as [a|], (rd ts (S k)) as [b|]; try discriminate.
    cbn [lt] in G. apply Qltb_true in G. cbn [sub lift2 div].
    assert (Hz : Qeq_bool (b - a) 0 = false).
    { destruct (Qeq_bool (b - a) 0) eqn:E; [|reflexivity].
      apply Qeq_bool_iff in E. lra. }
    rewrite Hz. eexists; split; [reflexivity|]. split; [congruence|].
    intros _. field. intro. lra.
Qed.

(** In exact arithmetic the spline passes through its control points: on a
    chunk whose sampling axis is strictly increasing and whose frames are
    poses (15 channels, each in [[0, 1]]), sampling at the query time
    [times[k]] returns the control frame [frames[k]] on every channel.  The
    local parameter is [0] at the first sample and [1] at every later one,
    where the Catmull-Rom basis gives the control point itself. *)
Lemma spline_through_control_point (ch : Chunk) (k : nat) (out : list num) :
  increasing (times ch) ->
  (length (times ch) <= length (frames ch))%nat ->
  (forall row, In row (frames ch) -> is_pose row) ->
  length out = COLS ->
  (k < length (times ch))%nat ->
  exists r,
    sampleCatmullRom ch (rd (times ch) k) out = Some r /\
    length r = COLS /\
    forall i, (i < COLS)%nat ->
      num_eq (rd r i) (rd (nth k (frames ch) []) i).
Proof.
  intros Hinc Hlen Hrows Hout Hk.
  unfold sampleCatmullRom. cbv zeta.
  rewrite (lowerBound_at _ k Hinc Hk).
  destruct (local_parameter_at (times ch) k Hinc Hk) as [u [Hu [Hu0 Hu1]]].
  cbv zeta in Hu. rewrite Hu. clear Hu.
  set (fr := frames ch) in *. set (nF := Z.of_nat (length fr)).
  assert (HnF : (0 <= nF - 1 < nF)%Z) by (unfold nF; lia).
  assert (H0F : (0 <= 0 < nF)%Z) by (unfold nF; lia).
  destruct (frame_or_some fr (Z.max (Z.max 1 (Z.of_nat k) - 1 - 1) 0) 0 H0F) as [f_1 E_1].
  destruct (frame_or_some fr (Z.max 1 (Z.of_nat k) - 1) 0 H0F) as [f0 E0].
  destruct (frame_or_some fr (Z.max 1 (Z.of_nat k)) (nF - 1) HnF) as [f1 E1].
  destruct (frame_or_some fr (Z.min (Z.max 1 (Z.of_nat k) + 1) (nF - 1)) (nF - 1) HnF) as [f2 E2].
  rewrite E_1, E0, E1, E2.
  eexists. split; [reflexivity|]. split; [rewrite fill_loop_length; exact Hout|].
  intros i Hi. rewrite fill_loop_rd by lia.
  destruct (in01_Fin _ (Hrows _ (frame_or_in _ _ _ _ E_1) i Hi)) as [a [-> Ha]].
  destruct (in01_Fin _ (Hrows _ (frame_or_in _ _ _ _ E0) i Hi)) as [b [Eb Hb]].
  destruct (in01_Fin _ (Hrows _ (frame_or_in _ _ _ _ E1) i Hi)) as [c [Ec Hc]].
  destruct (in01_Fin _ (Hrows _ (frame_or_in _ _ _ _ E2) i Hi)) as [d [-> Hd]].
  rewrite Eb, Ec.
  destruct k as [|k].
  - change (Z.max 1 (Z.of_nat 0) - 1)%Z with (Z.of_nat 0) in E0.
    rewrite frame_or_at in E0 by lia. injection E0 as <-.
    rewrite Eb. apply clamp01_num_eq; [|cbn; lra].
    apply catmullRom_at_0. now apply Hu0.
  - replace (Z.max 1 (Z.of_nat (S k))) with (Z.of_nat (S k)) in E1 by lia.
    rewrite frame_or_at in E1 by lia. injection E1 as <-.
    rewrite Ec. apply clamp01_num_eq; [|cbn; lra].
    apply catmullRom_at_1. now apply Hu1.
Qed.

(** Executable versions of [increasing] and [is_pose]. *)
Fixpoint increasingb (l : list num) : bool :=
  match l with
  | a :: (b :: _) as t => lt a b && increasingb t
  | _ => true
  end.

Lemma lt_trans (a b c : num) : lt a b = true -> lt b c = true -> lt a c = true.
Proof.
  destruct a as [x|], b as [y|], c as [z|]; try discriminate. cbn [lt].
  rewrite !Qltb_true. lra.
Qed.

Lemma increasingb_head (a : num) (l : list num) (j : nat) :
  increasingb (a :: l) = true -> (j < length l)%nat -> lt a (rd l j) = true.
Proof.
  revert a j. induction l as [|b l IH]; intros a j H Hj; [simpl in Hj; lia|].
  cbn [increasingb] in H. apply andb_true_iff in H. destruct H as [H1 H2].
  destruct j as [|j]; [exact H1|].
  apply (lt_trans a b); [exact H1|]. apply IH; [exact H2 | simpl in Hj; lia].
Qed.

Lemma increasingb_tail (a : num) (l : list num) :
  increasingb (a :: l) = true -> increasingb l = true.
Proof.
  destruct l as [|b l]; [reflexivity|]. cbn [increasingb].
  intro H. apply andb_true_iff in H. tauto.
Qed.

Lemma increasingb_sound (l : list num) : increasingb l = true -> increasing l.
Proof.
  induction l as [|a l IH]; intros H i j Hij; [simpl in Hij; lia|].
  destruct j as [|j]; [lia|]. destruct i as [|i].
  - apply (increasingb_head a l j H). simpl in Hij. lia.
  - apply (IH (increasingb_tail a l H)). simpl in Hij. lia.
Qed.

Definition in01b (a : num) : bool :=
  match a with
  | Fin q => Qle_bool 0 q && Qle_bool q 1
  | NaN => false
  end.

Definition is_poseb (row : list num) : bool :=
  forallb (fun i => in01b (rd row i)) (seq 0 COLS).

Lemma in01b_sound (a : num) : in01b a = true -> in01 a.
Proof.
  destruct a as [q|]; [|discriminate]. cbn [in01b in01].
  rewrite andb_true_iff, !Qle_bool_iff. tauto.
Qed.

Lemma is_poseb_sound (fr : list (list num)) :
  forallb is_poseb fr = true -> forall row, In row fr -> is_pose row.
Proof.
  intros H row Hin i Hi. rewrite forallb_forall in H.
  specialize (H row Hin). unfold is_poseb in H. rewrite forallb_forall in H.
  apply in01b_sound, H, in_seq. lia.
Qed.

(** Three frames in which only channel 0 moves, at [[0, 0.5, 1]] seconds. *)
Definition msg_jaw : AudioChunkMsg :=
  {| audio := None;
     viseme := [zeros COLS; Fin 1 :: zeros 14; zeros COLS];
     viseme_times := Some [Fin 0; Fin (1 # 2); Fin 1];
     duration_ms := Some (Fin 1000); frame_ms := None; viseme_fps := None |}.

(** That chunk as [startNext] activates it in a fresh scheduler. *)
Definition chunk_jaw : Chunk :=
  activate no_options (env_at 0) (init 0) (new_chunk msg_jaw false).

(** *** With binary64 sums and binary32 stores *)

Lemma grid_add (x y : Q) : grid x -> grid y -> grid (x + y).
Proof.
  intros [m Hm] [n Hn]. exists (m + n)%Z.
  rewrite inject_Z_plus, Hm, Hn. ring.
Qed.

Lemma grid_opp (x : Q) : grid x -> grid (- x).
Proof.
  intros [m Hm]. exists (- m)%Z. rewrite inject_Z_opp, Hm. ring.
Qed.

Lemma grid_sub (x y : Q) : grid x -> grid y -> grid (x - y).
Proof. intros Hx Hy. apply grid_add; [exact Hx | apply grid_opp; exact Hy]. Qed.

Lemma grid_scale (n : Z) (x : Q) : grid x -> grid (inject_Z n * x).
Proof.
  intros [m Hm]. exists (n * m)%Z. rewrite inject_Z_mult, Hm. ring.
Qed.

Lemma fl64_grid (x : Q) : grid x -> Qabs x < 32 -> fl64 x == x.
Proof.
  intros [m Hm] Hb. apply (round_exact 53 (-1074) x m (-48)); [exact Hm | lia |].
  exact Hb.
Qed.

Lemma coarse_grid (x : Q) :
  fround x == x -> x == 0 \/ pow2 (-25) <= x -> grid x.
Proof.
  intros F [Z|L].
  - exists 0%Z. rewrite Z. ring.
  - pose proof (pow2_pos (-25)) as P.
    assert (NZ : ~ x == 0) by lra.
    destruct (binary32_shape x F) as [m [e [S [_ [_ E]]]]].
    specialize (E NZ).
    destruct (ilog2_spec x NZ) as [_ U]. rewrite Qabs_pos in U by lra.
    assert ((-25 < ilog2 x + 1)%Z) by (apply pow2_lt_inv; lra).
    eexists. apply (dyadic_coarser x m e (-48) S). lia.
Qed.

Lemma binary32_dyadic (x : Q) :
  fround x == x -> exists m, x == inject_Z m * pow2 (-149).
Proof.
  intro F. destruct (binary32_shape x F) as [m [e [S [E _]]]].
  eexists. apply (dyadic_coarser x m e (-149) S E).
Qed.

(** A binary32 number times a small integer is a binary64 number. *)
Lemma fl64_scale_binary32 (n : Z) (x : Q) :
  fround x == x -> (Z.abs n < 2 ^ 29)%Z -> fl64 (inject_Z n * x) == inject_Z n * x.
Proof.
  intros F Hn. destruct (binary32_shape x F) as [m [e [S [E [B _]]]]].
  apply (round_exact 53 (-1074) _ (n * m) e).
  - rewrite inject_Z_mult, S. ring.
  - lia.
  - rewrite Qabs_Qmult.
    replace (e + 53)%Z with (29 + (e + 24))%Z by ring. rewrite pow2_add.
    pose proof (Qabs_nonneg x). pose proof (pow2_pos (e + 24)).
    assert (Hq : Qabs (inject_Z n) <= pow2 29).
    { rewrite pow2_Z by lia.
      assert (A : Qabs (inject_Z n) == inject_Z (Z.abs n))
        by (unfold inject_Z; now rewrite Zabs_Qabs).
      rewrite A, <- Zle_Qle. lia. }
    pose proof (Qabs_nonneg (inject_Z n)).
    apply Qle_lt_trans with (pow2 29 * Qabs x).
    + apply Qmult_le_compat_r; assumption.
    + apply Qmult_lt_l; [apply pow2_pos | exact B].
Qed.

Lemma fl64_binary32 (x : Q) : fround x == x -> fl64 x == x.
Proof.
  intro F. pose proof (fl64_scale_binary32 1 x F ltac:(reflexivity)) as H.
  assert (E : inject_Z 1 * x == x) by ring.
  now rewrite E in H.
Qed.

(** The difference of two binary32 numbers is not rounded to 0. *)
Lemma fl64_gap (a b : Q) :
  fround a == a -> fround b == b -> a < b -> 0 < fl64 (b - a).
Proof.
  intros Fa Fb L.
  destruct (binary32_dyadic a Fa) as [m Hm].
  destruct (binary32_dyadic b Fb) as [n Hn].
  pose proof (pow2_pos (-149)) as P.
  assert (D : b - a == inject_Z (n - m) * pow2 (-149)).
  { unfold Z.sub. rewrite inject_Z_plus, inject_Z_opp, Hm, Hn. ring. }
  assert (Hz : (0 < n - m)%Z).
  { rewrite Zlt_Qlt. apply Qnot_le_lt. intro C.
    assert (inject_Z (n - m) * pow2 (-149) <= 0 * pow2 (-149))
      by (apply Qmult_le_compat_r; [exact C | lra]).
    lra. }
  apply round_pos; [lia|].
  apply Qle_trans with (pow2 (-149)); [apply pow2_le; lia|].
  rewrite D. rewrite <- (Qmult_1_l (pow2 (-149))) at 1.
  apply Qmult_le_compat_r; [|lra].
  change 1 with (inject_Z 1). rewrite <- Zle_Qle. lia.
Qed.

Ltac fl64_inner :=
  match goal with
  | |- context [fl64 ?E] =>
      lazymatch E with
      | context [fl64 _] => fail
      | _ => rewrite (fl64_grid E)
      end
  end.

Lemma Qabs_lt_32 (x : Q) : -32 < x < 32 -> Qabs x < 32.
Proof. intro H. apply Qabs_Qlt_condition. exact H. Qed.

(** At [t = 1], on control values of the grid, no operation of the basis
    rounds. *)
Lemma catmullRom_binary_at_1 (a b c d u : Q) :
  u == 1 -> grid a -> grid b -> grid c -> grid d ->
  0 <= a <= 1 -> 0 <= b <= 1 -> 0 <= c <= 1 -> 0 <= d <= 1 ->
  exists r, Binary.catmullRom (Fin a) (Fin b) (Fin c) (Fin d) (Fin u) = Fin r /\
            r == c.
Proof.
  intros Hu Ga Gb Gc Gd Ha Hb Hc Hd.
  eexists. split; [reflexivity|].
  rewrite !Hu. rewrite !Qmult_1_r, !fl64_1, !Qmult_1_r.
  assert (G2 : forall x, grid x -> grid (2 * x)) by (intros; now apply (grid_scale 2)).
  assert (G3 : forall x, grid x -> grid (3 * x)) by (intros; now apply (grid_scale 3)).
  assert (G4 : forall x, grid x -> grid (4 * x)) by (intros; now apply (grid_scale 4)).
  assert (G5 : forall x, grid x -> grid (5 * x)) by (intros; now apply (grid_scale 5)).
  repeat (fl64_inner;
          [ | solve [ repeat first [ assumption | apply grid_add | apply grid_sub
                                   | apply grid_opp | apply G2 | apply G3
                                   | apply G4 | apply G5 ] ]
            | apply Qabs_lt_32; lra ]).
  assert (E : (1 # 2) * (2 * b + (- a + c) + (2 * a - 5 * b + 4 * c - d)
                         + (- a + 3 * b - 3 * c + d)) == c) by ring.
  rewrite E. apply fl64_grid; [exact Gc | apply Qabs_lt_32; lra].
Qed.

(** At [t = 0] every product with [t] vanishes, whatever the neighbours. *)
Lemma catmullRom_binary_at_0 (a b c d u : Q) :
  u == 0 -> fround b == b ->
  exists r, Binary.catmullRom (Fin a) (Fin b) (Fin c) (Fin d) (Fin u) = Fin r /\
            r == b.
Proof.
  intros Hu Fb. eexists. split; [reflexivity|].
  rewrite !Hu. rewrite !Qmult_0_r, !fl64_0, !Qplus_0_r.
  pose proof (fl64_scale_binary32 2 b Fb ltac:(reflexivity)) as H2.
  change (inject_Z 2) with 2 in H2.
  rewrite !H2.
  assert (E : (1 # 2) * (2 * b) == b) by ring.
  rewrite E. now apply fl64_binary32.
Qed.

(** A value of [[0, 1]] that equals a binary32 number is stored as it is. *)
Lemma store32_back (r c : Q) :
  r == c -> 0 <= c <= 1 -> fround c == c ->
  num_eq (Binary.store32 (clamp01 (Fin r))) (Fin c).
Proof.
  intros E Hc F. rewrite clamp01_id by (cbn; lra).
  cbn. now rewrite E.
Qed.

Lemma f32_Fin (a : num) : f32 a -> exists q, a = Fin q /\ fround q == q.
Proof. destruct a as [q|]; cbn; [intros [F _]; eauto | tauto]. Qed.

(** The local parameter at the sample [times[k]], in binary64. *)
Lemma local_parameter_binary (ts : list num) (k : nat) :
  increasing ts -> (forall i, (i < length ts)%nat -> f32 (rd ts i)) ->
  (k < length ts)%nat ->
  let idx1 := Z.max 1 (Z.of_nat k) in
  let t0 := rdZ ts (idx1 - 1) in
  let t1 := rdZ ts idx1 in
  exists u,
    (if gt t1 t0 then Binary.div (Binary.sub (rd ts k) t0) (Binary.sub t1 t0)
     else Fin 0) = Fin u /\
    (k = 0%nat -> u == 0) /\ (k <> 0%nat -> u == 1).
Proof.
  intros Hinc Hf Hk. cbv zeta.
  destruct k as [|k].
  - change (Z.max 1 (Z.of_nat 0)) with 1%Z. change (1 - 1)%Z with (Z.of_nat 0).
    change 1%Z with (Z.of_nat 1). rewrite !rdZ_nat.
    destruct (gt (rd ts 1) (rd ts 0)) eqn:G.
    + destruct (f32_Fin _ (Hf 0%nat Hk)) as [a [Ea Fa]].
      unfold gt in G. rewrite Ea in *.
      destruct (rd ts 1) as [b|] eqn:Eb; [|discriminate].
      assert (H1 : (1 < length ts)%nat).
      { destruct (Nat.lt_ge_cases 1 (length ts)) as [H|H]; [exact H|].
        unfold rd in Eb. rewrite nth_overflow in Eb by lia. discriminate. }
      pose proof (Hf 1%nat H1) as F1. rewrite Eb in F1. destruct F1 as [Fb _].
      cbn [lt] in G. apply Qltb_true in G.
      pose proof (fl64_gap a b Fa Fb G) as P.
      cbn [Binary.sub Binary.div Binary.lift2].
      assert (Hz : Qeq_bool (fl64 (b - a)) 0 = false).
      { destruct (Qeq_bool (fl64 (b - a)) 0) eqn:E; [|reflexivity].
        apply Qeq_bool_iff in E. lra. }
      rewrite Hz. eexists; split; [reflexivity|]. split; [|congruence].
      intros _. assert (Z0 : a - a == 0) by ring. rewrite Z0, fl64_0.
      assert (Z1 : 0 / fl64 (b - a) == 0) by (field; lra).
      rewrite Z1. apply fl64_0.
    + exists 0. split; [reflexivity|]. split; [reflexivity | congruence].
  - replace (Z.max 1 (Z.of_nat (S k))) with (Z.of_nat (S k)) by lia.
    replace (Z.of_nat (S k) - 1)%Z with (Z.of_nat k) by lia.
    rewrite !rdZ_nat. unfold gt. rewrite Hinc by lia.
    pose proof (Hinc k (S k) ltac:(lia)) as G.
    destruct (f32_Fin _ (Hf k ltac:(lia))) as [a [Ea Fa]].
    destruct (f32_Fin _ (Hf (S k) Hk)) as [b [Eb Fb]].
    rewrite Ea, Eb in *.
    cbn [lt] in G. apply Qltb_true in G.
    pose proof (fl64_gap a b Fa Fb G) as P.
    cbn [Binary.sub Binary.div Binary.lift2].
    assert (Hz : Qeq_bool (fl64 (b - a)) 0 = false).
    { destruct (Qeq_bool (fl64 (b - a)) 0) eqn:E; [|reflexivity].
      apply Qeq_bool_iff in E. lra. }
    rewrite Hz. eexists; split; [reflexivity|]. split; [congruence|].
    intros _.
    assert (Z1 : fl64 (b - a) / fl64 (b - a) == 1) by (field; lra).
    rewrite Z1. apply fl64_1.
Qed.

(** C5, amended: on a chunk whose sampling axis is strictly increasing and
    whose rows hold 15 binary32 numbers in [[0, 1]], sampling at the query
    time [times[k]], in binary64 and with the result stored in a
    [Float32Array], returns the control frame [frames[k]] on every channel
    at [k = 0], and at every later [k] when the control values are [0] or at
    least [2^-25].  The local parameter is then exactly [1] and every partial
    sum of the basis is a multiple of [2^-48] below [32], which binary64
    holds without rounding. *)
Theorem sample_at_control_point (ch : Chunk) (k : nat) (out : list num) :
  increasing (times ch) ->
  (forall i, (i < length (times ch))%nat -> f32 (rd (times ch) i)) ->
  (length (times ch) <= length (frames ch))%nat ->
  (forall row, In row (frames ch) ->
     forall i, (i < COLS)%nat -> in01 (rd row i) /\ f32 (rd row i)) ->
  (k <> 0%nat ->
   forall row, In row (frames ch) ->
     forall i, (i < COLS)%nat -> coarse (rd row i)) ->
  length out = COLS ->
  (k < length (times ch))%nat ->
  exists r,
    Binary.sampleCatmullRom ch (rd (times ch) k) out = Some r /\
    length r = COLS /\
    forall i, (i < COLS)%nat ->
      num_eq (rd r i) (rd (nth k (frames ch) []) i).
Proof.
  intros Hinc Hts Hlen Hrows Hcoarse Hout Hk.
  unfold Binary.sampleCatmullRom. cbv zeta.
  rewrite (lowerBound_at _ k Hinc Hk).
  destruct (local_parameter_binary (times ch) k Hinc Hts Hk) as [u [Hu [Hu0 Hu1]]].
  cbv zeta in Hu. rewrite Hu. clear Hu.
  set (fr := frames ch) in *. set (nF := Z.of_nat (length fr)).
  assert (HnF : (0 <= nF - 1 < nF)%Z) by (unfold nF; lia).
  assert (H0F : (0 <= 0 < nF)%Z) by (unfold nF; lia).
  destruct (frame_or_some fr (Z.max (Z.max 1 (Z.of_nat k) - 1 - 1) 0) 0 H0F) as [f_1 E_1].
  destruct (frame_or_some fr (Z.max 1 (Z.of_nat k) - 1) 0 H0F) as [f0 E0].
  destruct (frame_or_some fr (Z.max 1 (Z.of_nat k)) (nF - 1) HnF) as [f1 E1].
  destruct (frame_or_some fr (Z.min (Z.max 1 (Z.of_nat k) + 1) (nF - 1)) (nF - 1) HnF) as [f2 E2].
  rewrite E_1, E0, E1, E2.
  eexists. split; [reflexivity|]. split; [rewrite fill_loop_length; exact Hout|].
  intros i Hi. rewrite fill_loop_rd by lia.
  pose proof (frame_or_in _ _ _ _ E_1) as I_1.
  pose proof (frame_or_in _ _ _ _ E0) as I0.
  pose proof (frame_or_in _ _ _ _ E1) as I1.
  pose proof (frame_or_in _ _ _ _ E2) as I2.
  destruct (Hrows _ I_1 i Hi) as [Ra Fa]. destruct (Hrows _ I0 i Hi) as [Rb Fb].
  destruct (Hrows _ I1 i Hi) as [Rc Fc]. destruct (Hrows _ I2 i Hi) as [Rd Fd].
  destruct k as [|k].
  - change (Z.max 1 (Z.of_nat 0) - 1)%Z with (Z.of_nat 0) in E0.
    rewrite frame_or_at in E0 by lia. injection E0 as <-.
    destruct (rd f_1 i) as [a|]; [|contradiction].
    destruct (rd (nth 0 fr []) i) as [b|]; [|contradiction].
    destruct (rd f1 i) as [c|]; [|contradiction].
    destruct (rd f2 i) as [d|]; [|contradiction].
    destruct Fb as [Fb _].
    destruct (catmullRom_binary_at_0 a b c d u (Hu0 eq_refl) Fb) as [r [-> Er]].
    apply store32_back; [exact Er | exact Rb | exact Fb].
  - replace (Z.max 1 (Z.of_nat (S k))) with (Z.of_nat (S k)) in E1 by lia.
    rewrite frame_or_at in E1 by lia. injection E1 as <-.
    pose proof (Hcoarse ltac:(discriminate) _ I_1 i Hi) as Ca.
    pose proof (Hcoarse ltac:(discriminate) _ I0 i Hi) as Cb.
    pose proof (Hcoarse ltac:(discriminate) _ I1 i Hi) as Cc.
    pose proof (Hcoarse ltac:(discriminate) _ I2 i Hi) as Cd.
    destruct (rd f_1 i) as [a|]; [|contradiction].
    destruct (rd f0 i) as [b|]; [|contradiction].
    destruct (rd (nth (S k) fr []) i) as [c|]; [|contradiction].
    destruct (rd f2 i) as [d|]; [|contradiction].
    destruct Fa as [Fa _], Fb as [Fb _], Fc as [Fc _], Fd as [Fd _].
    cbn [in01 coarse] in *.
    destruct (catmullRom_binary_at_1 a b c d u (Hu1 ltac:(discriminate))
                (coarse_grid a Fa Ca) (coarse_grid b Fb Cb)
                (coarse_grid c Fc Cc) (coarse_grid d Fd Cd) Ra Rb Rc Rd)
      as [r [-> Er]].
    apply store32_back; [exact Er | exact Rc | exact Fc].
Qed.

(** Executable versions of [f32] and [coarse]. *)
Definition f32b (a : num) : bool :=
  match a with
  | Fin x => Qeq_bool (fround x) x && Qltb (Qabs x) (pow2 128)
  | NaN => false
  end.

Definition coarseb (a : num) : bool :=
  match a with
  | Fin x => Qeq_bool x 0 || Qle_bool (pow2 (-25)) x
  | NaN => false
  end.

Lemma f32b_sound (a : num) : f32b a = true -> f32 a.
Proof.
  destruct a as [x|]; [|discriminate]. cbn [f32b f32]. unfold binary32.
  rewrite andb_true_iff, Qltb_true. intros [E L]. apply Qeq_bool_iff in E. tauto.
Qed.

Lemma coarseb_sound (a : num) : coarseb a = true -> coarse a.
Proof.
  destruct a as [x|]; [|discriminate]. cbn [coarseb coarse].
  rewrite orb_true_iff, Qle_bool_iff. intros [E|L]; [left; now apply Qeq_bool_iff | now right].
Qed.

Lemma rows_check (P : num -> Prop) (Pb : num -> bool) (fr : list (list num)) :
  (forall a, Pb a = true -> P a) ->
  forallb (fun row => forallb (fun i => Pb (rd row i)) (seq 0 COLS)) fr = true ->
  forall row, In row fr -> forall i, (i < COLS)%nat -> P (rd row i).
Proof.
  intros S H row Hin i Hi. rewrite forallb_forall in H.
  specialize (H row Hin). rewrite forallb_forall in H.
  apply S, H, in_seq. lia.
Qed.

Lemma axis_check (P : num -> Prop) (Pb : num -> bool) (ts : list num) :
  (forall a, Pb a = true -> P a) ->
  forallb Pb ts = true -> forall i, (i < length ts)%nat -> P (rd ts i).
Proof.
  intros S H i Hi. rewrite forallb_forall in H. apply S, H, nth_In, Hi.
Qed.

(** Four frames in which only channel 0 moves, through
    [[0.25, 1, 2^-100, 0.75]] at [[0, 1, 2, 3]] seconds. *)
Definition msg_faint : AudioChunkMsg :=
  {| audio := None;
     viseme := [Fin (1 # 4) :: zeros 14; Fin 1 :: zeros 14;
                Fin (pow2 (-100)) :: zeros 14; Fin (3 # 4) :: zeros 14];
     viseme_times := Some [Fin 0; Fin 1; Fin 2; Fin 3];
     duration_ms := Some (Fin 3000); frame_ms := None; viseme_fps := None |}.

(** That chunk as [startNext] activates it in a fresh scheduler. *)
Definition chunk_faint : Chunk :=
  activate no_options (env_at 0) (init 0) (new_chunk msg_faint false).

(** C5, counterexample: on that chunk, whose axis is strictly increasing and
    whose rows hold 15 binary32 numbers in [[0, 1]], sampling at [times[2]]
    returns [0] on channel 0 where the control frame holds [2^-100]: the
    binary64 sums of the basis absorb the small value. *)
Lemma faint_control_point_lost :
  increasing (times chunk_faint) /\
  (forall i, (i < length (times chunk_faint))%nat -> f32 (rd (times chunk_faint) i)) /\
  (forall row, In row (frames chunk_faint) ->
     forall i, (i < COLS)%nat -> in01 (rd row i) /\ f32 (rd row i)) /\
  num_eq (rd (nth 2 (frames chunk_faint) []) 0) (Fin (pow2 (-100))) /\
  exists r,
    Binary.sampleCatmullRom chunk_faint (rd (times chunk_faint) 2) (zeros COLS)
    = Some r /\
    num_eq (rd r 0) (Fin 0) /\
    ~ num_eq (rd r 0) (rd (nth 2 (frames chunk_faint) []) 0).
Proof.
  split; [apply increasingb_sound; vm_compute; reflexivity|].
  split; [apply (axis_check f32 f32b); [exact f32b_sound | vm_compute; reflexivity]|].
  split.
  { apply (rows_check (fun a => in01 a /\ f32 a) (fun a => in01b a && f32b a)).
    - intros a H. apply andb_true_iff in H. destruct H as [H1 H2].
      split; [now apply in01b_sound | now apply f32b_sound].
    - vm_compute. reflexivity. }
  split; [vm_compute; reflexivity|].
  eexists. split; [vm_compute; reflexivity|].
  split; [vm_compute; reflexivity|].
  vm_compute. discriminate.
Qed.

Lemma sample_at_control_point_witness :
  increasing (times chunk_jaw) /\
  (forall i, (i < length (times chunk_jaw))%nat -> f32 (rd (times chunk_jaw) i)) /\
  (length (times chunk_jaw) <= length (frames chunk_jaw))%nat /\
  (forall row, In row (frames chunk_jaw) ->
     forall i, (i < COLS)%nat -> in01 (rd row i) /\ f32 (rd row i)) /\
  (1%nat <> 0%nat ->
   forall row, In row (frames chunk_jaw) ->
     forall i, (i < COLS)%nat -> coarse (rd row i)) /\
  length (zeros COLS) = COLS /\
  (1 < length (times chunk_jaw))%nat /\
  exists r,
    Binary.sampleCatmullRom chunk_jaw (rd (times chunk_jaw) 1) (zeros COLS) = Some r /\
    length r = COLS /\
    forall i, (i < COLS)%nat ->
      num_eq (rd r i) (rd (nth 1 (frames chunk_jaw) []) i).
Proof.
  assert (H1 : increasing (times chunk_jaw))
    by (apply increasingb_sound; reflexivity).
  assert (H2 : forall i, (i < length (times chunk_jaw))%nat ->
                         f32 (rd (times chunk_jaw) i))
    by (apply (axis_check f32 f32b); [exact f32b_sound | vm_compute; reflexivity]).
  assert (H3 : (length (times chunk_jaw) <= length (frames chunk_jaw))%nat)
    by (apply Nat.leb_le; reflexivity).
  assert (H4 : forall row, In row (frames chunk_jaw) ->
                 forall i, (i < COLS)%nat -> in01 (rd row i) /\ f32 (rd row i)).
  { apply (rows_check (fun a => in01 a /\ f32 a) (fun a => in01b a && f32b a)).
    - intros a H. apply andb_true_iff in H. destruct H as [Ha Hb].
      split; [now apply in01b_sound | now apply f32b_sound].
    - vm_compute. reflexivity. }
  assert (H5 : 1%nat <> 0%nat ->
               forall row, In row (frames chunk_jaw) ->
                 forall i, (i < COLS)%nat -> coarse (rd row i)).
  { intros _. apply (rows_check coarse coarseb); [exact coarseb_sound|].
    vm_compute. reflexivity. }
  assert (H6 : length (zeros COLS) = COLS) by reflexivity.
  assert (H7 : (1 < length (times chunk_jaw))%nat)
    by (apply Nat.ltb_lt; reflexivity).
  repeat (split; [assumption|]).
  exact (sample_at_control_point chunk_jaw 1 (zeros COLS) H1 H2 H3 H4 H5 H6 H7).
Defined.

(* ===================================================================== *)
(** ** The pose returned for a short row *)
(* ===================================================================== *)

(** C1, at the failing input: after the chunk with the single row [[0.5]] is
    pushed into a fresh scheduler, the first [getFrame] (16 ms later) returns
    a finite channel 0 and [NaN] on channels 1 to 14, whatever [Math.exp]
    is. *)
Theorem short_row_pose_is_NaN (Math_exp : Q -> Q) :
  exists q,
    fst (getFrame Math_exp no_options (env_at (16 # 1000))
           (run Math_exp no_options (init 0)
                [PushChunk msg_short_row (env_at 0)]))
    = Frame (Fin q :: repeat NaN 14).
Proof. eexists. vm_compute. reflexivity. Qed.

(* ===================================================================== *)
(** ** The time axis in every mode *)
(* ===================================================================== *)


Lemma positive_hint_inv (o : option num) :
  positive_hint o = true -> exists f, o = Some (Fin f) /\ 0 < f.
Proof.
  destruct o as [[f|]|]; cbn; try discriminate.
  intro H. apply andb_true_iff in H. destruct H as [_ H].
  apply Qltb_true in H. eauto.
Qed.

Lemma Qeq_bool_pos (x : Q) : 0 < x -> Qeq_bool x 0 = false.
Proof.
  intro H. destruct (Qeq_bool x 0) eqn:E; [|reflexivity].
  apply Qeq_bool_iff in E. lra.
Qed.


Lemma firstn_In {A : Type} (n : nat) (l : list A) (x : A) :
  In x (firstn n l) -> In x l.
Proof.
  revert n. induction l as [|y l IH]; intros [|n]; cbn; try tauto.
  intros [H|H]; [now left | right; eapply IH, H].
Qed.

Lemma firstn_sorted (n : nat) (ts : list Q) :
  StronglySorted Qle ts -> StronglySorted Qle (firstn n ts).
Proof.
  revert n. induction ts as [|x ts IH]; intros [|n] H; cbn; try constructor.
  - inversion H; subst. now apply IH.
  - inversion H as [|? ? _ Hx]; subst. rewrite Forall_forall in *.
    intros y Hy. eapply Hx, firstn_In, Hy.
Qed.

(** X4: [pushChunk] stores the first 15 values of a row, each clamped into
    [[0, 1]] and [NaN] stored as [0]; the stored row has the length of the
    row when that is below 15. *)
Theorem store_row_spec (row : list num) :
  length (store_row row) = Nat.min COLS (length row) /\
  Forall in01 (store_row row) /\
  forall i, (i < Nat.min COLS (length row))%nat ->
    num_eq (rd (store_row row) i)
           (match rd row i with
            | Fin q => Fin (Qmax 0 (Qmin 1 q))
            | NaN => Fin 0
            end).
Proof.
  split; [apply store_row_length|]. split; [apply store_row_in01|].
  intros i Hi. unfold store_row, rd.
  rewrite (nth_indep _ NaN (clamp01 (or_ NaN (Fin 0))))
    by (rewrite length_map, length_firstn; exact Hi).
  rewrite (map_nth (fun v => clamp01 (or_ v (Fin 0)))).
  rewrite nth_firstn. destruct (i <? COLS)%nat eqn:E; [|apply Nat.ltb_ge in E; lia].
  destruct (nth i row NaN) as [q|]; [|reflexivity].
  unfold or_, truthy, clamp01, gt, lt.
  destruct (Q.max_spec 0 (Qmin 1 q)) as [[H1 H2]|[H1 H2]];
    destruct (Q.min_spec 1 q) as [[H3 H4]|[H3 H4]];
    q_cases; cbn [negb]; cbv iota; q_cases; cbn [num_eq]; lra.
Qed.

Lemma sorted_nth (qs : list Q) :
  StronglySorted Qle qs ->
  forall i j, (i <= j < length qs)%nat -> nth i qs 0 <= nth j qs 0.
Proof.
  induction 1 as [|x qs Hs IH Hx]; intros i j Hij; [simpl in Hij; lia|].
  destruct j as [|j].
  - assert (i = 0)%nat by lia. subst. cbn. lra.
  - destruct i as [|i]; cbn.
    + rewrite Forall_forall in Hx. apply Hx, nth_In. simpl in Hij. lia.
    + apply IH. simpl in Hij. lia.
Qed.

Lemma rd_map_Fin (qs : list Q) (i : nat) :
  (i < length qs)%nat -> rd (map Fin qs) i = Fin (nth i qs 0).
Proof.
  intro H. unfold rd. rewrite (nth_indep _ NaN (Fin 0)) by now rewrite length_map.
  apply (map_nth Fin).
Qed.

(** *** The axis as the source stores it *)

(** A timing hint of ordinary size: when positive, between [2^-64] and
    [2^64]. *)
Definition hint_in_range (o : option num) : Prop :=
  match o with
  | Some (Fin x) => 0 < x -> pow2 (-64) <= x <= pow2 64
  | _ => True
  end.

(** The loop of the explicit-timestamp branch on entries below [B]. *)
Lemma floor_loop_axis (B p : Q) (t : list num) :
  0 <= p < B ->
  Forall (fun a => match a with Fin x => x < B | NaN => True end) t ->
  exists qs, floor_loop (Fin p) t = map Fin qs /\
             Forall (fun q => p <= q < B) qs /\ StronglySorted Qle qs.
Proof.
  revert p. induction t as [|x t IH]; intros p Hp Hall.
  - exists []. repeat split; constructor.
  - inversion Hall as [|? ? Hx Hrest]; subst. cbn [floor_loop].
    assert (Hv : exists v, Math_max (Fin 0) (if isFinite x then x else Fin p) = Fin v
                           /\ 0 <= v < B).
    { destruct x as [q|]; cbn [isFinite Math_max]; eexists; split; try reflexivity;
        q_cases; lra. }
    destruct Hv as [v [-> Hv]]. cbn [lt].
    assert (Ho : exists o, (if Qltb v p then Fin p else Fin v) = Fin o /\
                           p <= o /\ 0 <= o < B).
    { q_cases; eexists; split; try reflexivity; lra. }
    destruct Ho as [o [-> [Hpo Ho]]].
    destruct (IH o Ho Hrest) as [qs [-> [Hq Hs]]].
    exists (o :: qs). split; [reflexivity|]. split.
    + constructor; [lra|]. eapply Forall_impl; [|exact Hq].
      intros a Ha. cbv beta in *. lra.
    + constructor; [exact Hs|]. eapply Forall_impl; [|exact Hq].
      intros a Ha. cbv beta in *. lra.
Qed.

Lemma from32_bounded (vt : list num) :
  Forall (fun a => match a with Fin x => x < pow2 128 | NaN => True end)
         (map Binary.from32 vt).
Proof.
  apply Forall_map, Forall_forall. intros [x|] _; cbn [Binary.from32]; [|exact I].
  destruct (Qle_bool (pow2 128) (Qabs (fround x))) eqn:E; [exact I|].
  apply Qle_bool_false in E. pose proof (Qle_Qabs (fround x)). lra.
Qed.

Lemma Forall_firstn {A : Type} (P : A -> Prop) (n : nat) (l : list A) :
  Forall P l -> Forall P (firstn n l).
Proof.
  intro H. rewrite Forall_forall in *. intros x Hx. eapply H, firstn_In, Hx.
Qed.

(** The ramp of a step [d >= 0] whose last product stays below [2^100]. *)
Lemma ramp_binary_axis (n : nat) (d : Q) :
  0 <= d -> inject_Z (Z.of_nat n) * d <= pow2 100 ->
  exists qs, Binary.ramp n (Fin d) = map Fin qs /\
             Forall (fun q => 0 <= q < pow2 128) qs /\ StronglySorted Qle qs.
Proof.
  intros Hd Hn. unfold Binary.ramp, of_nat.
  exists (map (fun i => fround (fl64 (inject_Z (Z.of_nat i) * d))) (seq 0 n)).
  split; [now rewrite map_map|].
  assert (Hprod : forall i j, (i <= j)%nat ->
            inject_Z (Z.of_nat i) * d <= inject_Z (Z.of_nat j) * d).
  { intros i j Hij. apply Qmult_le_compat_r; [|exact Hd].
    rewrite <- Zle_Qle. lia. }
  assert (Hpos : forall i, 0 <= inject_Z (Z.of_nat i) * d).
  { intro i. apply Qmult_le_0_compat; [|exact Hd]. change 0 with (inject_Z 0).
    rewrite <- Zle_Qle. lia. }
  split.
  - apply Forall_map, Forall_forall. intros i Hi. apply in_seq in Hi.
    split; [apply fround_nonneg, fl64_nonneg, Hpos|].
    apply Qle_lt_trans with (pow2 100); [|apply pow2_lt; lia].
    apply fround_le_pow2; [lia | apply fl64_nonneg, Hpos |].
    apply fl64_le_pow2; [lia | apply Hpos |].
    apply Qle_trans with (inject_Z (Z.of_nat n) * d); [apply Hprod; lia | exact Hn].
  - generalize 0%nat as a. induction n as [|n IH]; intro a; cbn; constructor.
    + apply IH. apply Qle_trans with (inject_Z (Z.of_nat (S n)) * d); [|exact Hn].
      apply Hprod. lia.
    + apply Forall_map, Forall_forall. intros j Hj. apply in_seq in Hj.
      apply fround_mono; [apply fl64_nonneg, Hpos|].
      apply fl64_mono; [apply Hpos | apply Hprod; lia].
Qed.

Lemma steps_below (n : nat) (d : Q) :
  (Z.of_nat n <= 2 ^ 32)%Z -> 0 <= d <= pow2 64 ->
  inject_Z (Z.of_nat n) * d <= pow2 100.
Proof.
  intros Hn Hd.
  assert (H1 : inject_Z (Z.of_nat n) <= pow2 32).
  { rewrite pow2_Z by lia. now rewrite <- Zle_Qle. }
  assert (H0 : 0 <= inject_Z (Z.of_nat n)).
  { change 0 with (inject_Z 0). rewrite <- Zle_Qle. lia. }
  apply Qle_trans with (pow2 32 * pow2 64).
  - apply Qle_trans with (pow2 32 * d).
    + apply Qmult_le_compat_r; tauto.
    + apply Qmult_le_l; [apply pow2_pos | tauto].
  - rewrite <- pow2_add. apply pow2_le. lia.
Qed.

Lemma fl64_hundredth : 0 <= fl64 (2 # 100) <= pow2 64.
Proof.
  split; [apply fl64_nonneg; lra|].
  apply fl64_le_pow2; [lia | lra |].
  apply Qle_trans with (pow2 0); [cbn; lra | apply pow2_le; lia].
Qed.

Lemma durS_binary (msg : AudioChunkMsg) :
  hint_in_range (duration_ms msg) ->
  exists D, Binary.durS_of msg = Fin D /\ 0 <= D <= pow2 64.
Proof.
  intro Hr. unfold Binary.durS_of. pose proof fl64_hundredth as Hc.
  assert (Hx : exists x, or_ (Number (duration_ms msg)) (Fin 0) = Fin x /\
                         (0 < x -> x <= pow2 64)).
  { destruct (duration_ms msg) as [[x|]|]; unfold or_, truthy; cbn [Number].
    - destruct (negb (Qeq_bool x 0)); eexists; (split; [reflexivity|]).
      + intro P. cbn [hint_in_range] in Hr. apply (Hr P).
      + intro; lra.
    - exists 0. split; [reflexivity | intro; lra].
    - exists 0. split; [reflexivity | intro; lra]. }
  destruct Hx as [x [-> Hx]]. cbn [Binary.div].
  change (Qeq_bool 1000 0) with false. cbv iota. cbn [Math_max].
  eexists; split; [reflexivity|].
  destruct (Qle_bool (fl64 (2 # 100)) (fl64 (x / 1000))) eqn:E; [|exact Hc].
  apply Qle_bool_iff in E. split; [lra|].
  destruct (Qlt_le_dec 0 x) as [P|N].
  - apply fl64_le_pow2; [lia | |].
    + apply Qlt_le_weak, Qlt_shift_div_l; lra.
    + apply Qle_shift_div_r; [lra|]. specialize (Hx P).
      pose proof (pow2_pos 64). lra.
  - assert (fl64 (x / 1000) <= 0).
    { apply round_nonpos. apply Qle_shift_div_r; lra. }
    pose proof (pow2_pos 64). lra.
Qed.

(** X1: for at most [2^32] frames and timing hints that, when positive, lie
    between [2^-64] and [2^64], the raw time axis that [buildTimes] computes
    in binary64 and returns in a [Float32Array] holds only finite numbers,
    none negative, in non-decreasing order: for [i <= j] in range,
    [0 <= times[i] <= times[j] < 2^128]. *)
Theorem buildTimes_sorted (n : nat) (msg : AudioChunkMsg) (i j : nat) :
  (Z.of_nat n <= 2 ^ 32)%Z ->
  hint_in_range (frame_ms msg) -> hint_in_range (viseme_fps msg) ->
  hint_in_range (duration_ms msg) ->
  (i <= j < length (Binary.buildTimes n msg))%nat ->
  exists a b,
    rd (Binary.buildTimes n msg) i = Fin a /\
    rd (Binary.buildTimes n msg) j = Fin b /\
    0 <= a /\ a <= b /\ b < pow2 128.
Proof.
  intros Hn Hf Hp Hd Hij.
  assert (Hax : exists qs, Binary.buildTimes n msg = map Fin qs /\
                  Forall (fun q => 0 <= q < pow2 128) qs /\ StronglySorted Qle qs).
  { unfold Binary.buildTimes. destruct (explicit_times msg) as [vt|].
    - apply floor_loop_axis.
      + split; [lra | apply pow2_pos].
      + apply Forall_firstn, from32_bounded.
    - destruct (positive_hint (frame_ms msg)) eqn:Ef.
      + apply positive_hint_inv in Ef. destruct Ef as [f [Ef Pf]].
        rewrite Ef in *. cbn [hint_in_range] in Hf. specialize (Hf Pf).
        cbn [Number Binary.div]. change (Qeq_bool 1000 0) with false. cbv iota.
        assert (Hq : 0 <= f / 1000 <= pow2 64).
        { split; [apply Qlt_le_weak, Qlt_shift_div_l; lra|].
          apply Qle_shift_div_r; [lra|]. pose proof (pow2_pos 64). lra. }
        apply ramp_binary_axis; [apply fl64_nonneg; tauto|].
        apply steps_below; [exact Hn|].
        split; [apply fl64_nonneg; tauto | apply fl64_le_pow2; [lia | tauto | tauto]].
      + destruct (positive_hint (viseme_fps msg)) eqn:Ev.
        * apply positive_hint_inv in Ev. destruct Ev as [p [Ev Pp]].
          rewrite Ev in *. cbn [hint_in_range] in Hp. specialize (Hp Pp).
          cbn [Number Binary.div]. rewrite Qeq_bool_pos by assumption.
          assert (Hq : 0 <= 1 / p <= pow2 64).
          { split; [apply Qlt_le_weak, Qlt_shift_div_l; lra|].
            apply Qle_shift_div_r; [lra|].
            assert (E : pow2 64 * pow2 (-64) == 1) by (now rewrite <- pow2_add).
            pose proof (pow2_pos 64) as P64.
            assert (pow2 64 * pow2 (-64) <= pow2 64 * p)
              by (apply Qmult_le_l; [exact P64 | tauto]).
            lra. }
          apply ramp_binary_axis; [apply fl64_nonneg; tauto|].
          apply steps_below; [exact Hn|].
          split; [apply fl64_nonneg; tauto | apply fl64_le_pow2; [lia | tauto | tauto]].
        * cbv zeta. destruct (durS_binary msg Hd) as [D [-> HD]].
          destruct (1 <? n)%nat eqn:En.
          -- apply Nat.ltb_lt in En. unfold of_nat. cbn [Binary.div].
             rewrite inject_nat_nonzero by lia.
             pose proof (inject_nat_pos (n - 1) ltac:(lia)) as Pn.
             assert (H1 : 1 <= inject_Z (Z.of_nat (n - 1))).
             { change 1 with (inject_Z 1). rewrite <- Zle_Qle. lia. }
             assert (Hq : 0 <= D / inject_Z (Z.of_nat (n - 1)) <= pow2 64).
             { split.
               - apply Qle_shift_div_l; [exact Pn|]. lra.
               - apply Qle_shift_div_r; [exact Pn|].
                 pose proof (pow2_pos 64) as P64.
                 assert (pow2 64 * 1 <= pow2 64 * inject_Z (Z.of_nat (n - 1)))
                   by (apply Qmult_le_l; assumption).
                 lra. }
             apply ramp_binary_axis; [apply fl64_nonneg; tauto|].
             apply steps_below; [exact Hn|].
             split; [apply fl64_nonneg; tauto
                    | apply fl64_le_pow2; [lia | tauto | tauto]].
          -- apply ramp_binary_axis; [tauto|]. now apply steps_below. }
  destruct Hax as [qs [E [Hb Hs]]].
  rewrite E in *. rewrite length_map in Hij.
  exists (nth i qs 0), (nth j qs 0).
  split; [apply rd_map_Fin; lia|]. split; [apply rd_map_Fin; lia|].
  rewrite Forall_forall in Hb.
  assert (Hi : 0 <= nth i qs 0 < pow2 128) by (apply Hb, nth_In; lia).
  assert (Hj : 0 <= nth j qs 0 < pow2 128) by (apply Hb, nth_In; lia).
  split; [tauto|]. split; [apply sorted_nth; assumption | tauto].
Qed.

(** [b] is [a] up to [k] roundings to binary64. *)
Definition near (k : Z) (a b : Q) : Prop :=
  a * (1 - inject_Z k * pow2 (-53)) <= b <= a * (1 + inject_Z k * pow2 (-53)).

Lemma near_fl64 (k : Z) (a b : Q) :
  (0 <= k <= 4)%Z -> pow2 (-1000) <= a -> near k a b -> near (k + 2) a (fl64 b).
Proof.
  intros Hk Ha [L U]. unfold near in *. rewrite inject_Z_plus.
  change (inject_Z 2) with 2.
  set (e := pow2 (-53)) in *. set (K := inject_Z k) in *.
  assert (He : 0 < e) by apply pow2_pos.
  assert (Ne : e <= 1 # 100) by (apply Qle_bool_iff; vm_compute; reflexivity).
  assert (HK : 0 <= K <= 4).
  { unfold K. change 0 with (inject_Z 0). change 4 with (inject_Z 4).
    rewrite <- !Zle_Qle. exact Hk. }
  pose proof (pow2_pos (-1000)) as P.
  assert (HKe : 0 <= K * e) by (apply Qmult_le_0_compat; lra).
  assert (HKe' : K * e <= 4 * e) by (apply Qmult_le_compat_r; lra).
  assert (Hb : a * (1 # 2) <= b).
  { apply Qle_trans with (a * (1 - K * e)); [|exact L]. apply Qmult_le_l; lra. }
  assert (Hb' : pow2 (-1022) <= b).
  { apply Qle_trans with (pow2 (-1001)); [apply pow2_le; lia|].
    assert (E : pow2 (-1000) == 2 * pow2 (-1001))
      by (change 2 with (pow2 1); now rewrite <- pow2_add).
    lra. }
  pose proof (fl64_rel b Hb') as [L' U']. fold e in L', U'.
  assert (Pb : 0 < b) by lra.
  assert (Hee : 0 <= K * e * e) by (apply Qmult_le_0_compat; lra).
  assert (Hee' : e * (K * e) <= (1 # 100) * (K * e))
    by (apply Qmult_le_compat_r; lra).
  split.
  - apply Qle_trans with (b * (1 - e)); [|exact L'].
    apply Qle_trans with (a * (1 - K * e) * (1 - e)).
    + setoid_replace (a * (1 - K * e) * (1 - e))
        with (a * ((1 - K * e) * (1 - e))) by ring.
      apply Qmult_le_l; [lra|]. lra.
    + apply Qmult_le_compat_r; lra.
  - apply Qle_trans with (b * (1 + e)); [exact U'|].
    apply Qle_trans with (a * (1 + K * e) * (1 + e)).
    + apply Qmult_le_compat_r; lra.
    + setoid_replace (a * (1 + K * e) * (1 + e))
        with (a * ((1 + K * e) * (1 + e))) by ring.
      apply Qmult_le_l; [lra|]. lra.
Qed.

Lemma near_refl (a : Q) : near 0 a a.
Proof. unfold near. change (inject_Z 0) with 0. split; ring_simplify; lra. Qed.

Lemma near_scale (k : Z) (c a b : Q) : 0 <= c -> near k a b -> near k (c * a) (c * b).
Proof.
  intros Hc [L U]. unfold near in *. set (t := inject_Z k * pow2 (-53)) in *. split.
  - setoid_replace (c * a * (1 - t)) with (c * (a * (1 - t))) by ring.
    destruct (Qeq_dec c 0) as [Z|N]; [rewrite Z; lra|]. apply Qmult_le_l; lra.
  - setoid_replace (c * a * (1 + t)) with (c * (a * (1 + t))) by ring.
    destruct (Qeq_dec c 0) as [Z|N]; [rewrite Z; lra|]. apply Qmult_le_l; lra.
Qed.

Lemma near_weaken (k k' : Z) (a b : Q) :
  0 <= a -> (k <= k')%Z -> near k a b -> near k' a b.
Proof.
  intros Ha Hk [L U]. unfold near in *.
  pose proof (pow2_pos (-53)) as He. set (e := pow2 (-53)) in *.
  assert (HK : inject_Z k * e <= inject_Z k' * e).
  { apply Qmult_le_compat_r; [|lra]. now rewrite <- Zle_Qle. }
  assert (a * (inject_Z k * e) <= a * (inject_Z k' * e)).
  { destruct (Qeq_dec a 0) as [Z|N]; [rewrite Z; lra|]. apply Qmult_le_l; lra. }
  split; lra.
Qed.

(** [Math.max] of two numbers known up to the same error. *)
Lemma near_max (k : Z) (a a' b b' : Q) :
  (0 <= k <= 6)%Z -> 0 <= a -> 0 <= a' -> near k a b -> near k a' b' ->
  near k (Qmax a a') (if Qle_bool b b' then b' else b).
Proof.
  intros Hk Ha Ha' [L U] [L' U']. unfold near in *.
  pose proof (pow2_pos (-53)) as He. set (e := pow2 (-53)) in *.
  assert (Ne : e <= 1 # 100) by (apply Qle_bool_iff; vm_compute; reflexivity).
  assert (HK : 0 <= inject_Z k <= 6).
  { change 0 with (inject_Z 0). change 6 with (inject_Z 6).
    rewrite <- !Zle_Qle. exact Hk. }
  set (K := inject_Z k) in *.
  assert (HKe : 0 <= K * e) by (apply Qmult_le_0_compat; lra).
  assert (HKe' : K * e <= 6 * e) by (apply Qmult_le_compat_r; lra).
  assert (M1 : forall x y, 0 <= x -> x <= y -> x * (1 - K * e) <= y * (1 - K * e))
    by (intros; apply Qmult_le_compat_r; lra).
  assert (M2 : forall x y, 0 <= x -> x <= y -> x * (1 + K * e) <= y * (1 + K * e))
    by (intros; apply Qmult_le_compat_r; lra).
  destruct (Q.max_spec a a') as [[H1 H2]|[H1 H2]]; rewrite H2;
    destruct (Qle_bool b b') eqn:E;
    try (apply Qle_bool_iff in E); try (apply Qle_bool_false in E).
  - tauto.
  - split; [lra|]. pose proof (M2 a a' Ha ltac:(lra)). lra.
  - split; [lra|]. pose proof (M2 a' a Ha' H1). lra.
  - tauto.
Qed.

(** What the [Float32Array] keeps of a number known up to six roundings. *)
Lemma near_fround (k : Z) (a b : Q) :
  (0 <= k <= 6)%Z -> pow2 (-100) <= a -> near k a b ->
  Qabs (fround b - a) <= pow2 (-23) * a.
Proof.
  intros Hk Ha [L U]. unfold near in *.
  pose proof (pow2_pos (-53)) as He. set (e := pow2 (-53)) in *.
  set (h := pow2 (-24)).
  assert (Hh : 0 < h) by apply pow2_pos.
  assert (HK : 0 <= inject_Z k <= 6).
  { change 0 with (inject_Z 0). change 6 with (inject_Z 6).
    rewrite <- !Zle_Qle. exact Hk. }
  set (K := inject_Z k) in *.
  assert (N1 : (1 + 6 * e) * (1 + h) <= 1 + pow2 (-23))
    by (apply Qle_bool_iff; vm_compute; reflexivity).
  assert (N2 : 1 - pow2 (-23) <= (1 - 6 * e) * (1 - h))
    by (apply Qle_bool_iff; vm_compute; reflexivity).
  assert (Ne : e <= 1 # 100) by (apply Qle_bool_iff; vm_compute; reflexivity).
  assert (Nh : h <= 1 # 100) by (apply Qle_bool_iff; vm_compute; reflexivity).
  assert (HKe : 0 <= K * e) by (apply Qmult_le_0_compat; lra).
  assert (HKe' : K * e <= 6 * e) by (apply Qmult_le_compat_r; lra).
  pose proof (pow2_pos (-100)) as P.
  assert (Hb : a * (1 # 2) <= b).
  { apply Qle_trans with (a * (1 - K * e)); [|exact L]. apply Qmult_le_l; lra. }
  assert (Hb' : pow2 (-126) <= b).
  { apply Qle_trans with (pow2 (-101)); [apply pow2_le; lia|].
    assert (E : pow2 (-100) == 2 * pow2 (-101))
      by (change 2 with (pow2 1); now rewrite <- pow2_add).
    lra. }
  pose proof (fround_rel b Hb') as [L' U']. fold h in L', U'.
  assert (Pb : 0 < b) by lra.
  apply Qabs_Qle_condition. split.
  - assert (a * (1 - 6 * e) * (1 - h) <= b * (1 - h)).
    { apply Qmult_le_compat_r; [|lra].
      apply Qle_trans with (a * (1 - K * e)); [|exact L]. apply Qmult_le_l; lra. }
    assert (a * (1 - pow2 (-23)) <= a * ((1 - 6 * e) * (1 - h)))
      by (apply Qmult_le_l; lra).
    lra.
  - assert (b * (1 + h) <= a * (1 + 6 * e) * (1 + h)).
    { apply Qmult_le_compat_r; [|lra].
      apply Qle_trans with (a * (1 + K * e)); [exact U|]. apply Qmult_le_l; lra. }
    assert (a * ((1 + 6 * e) * (1 + h)) <= a * (1 + pow2 (-23)))
      by (apply Qmult_le_l; lra).
    lra.
Qed.

(** Entry [i] of the ramp of a step known up to four roundings. *)
Lemma ramp_entry (n : nat) (d dt : Q) (i : nat) :
  (i < n)%nat -> pow2 (-100) <= d -> near 4 d dt ->
  exists t, rd (Binary.ramp n (Fin dt)) i = Fin t /\
            Qabs (t - inject_Z (Z.of_nat i) * d)
            <= pow2 (-23) * (inject_Z (Z.of_nat i) * d).
Proof.
  intros Hi Hd Hn. unfold Binary.ramp, rd.
  rewrite (nth_indep _ NaN (Binary.store32 (Binary.mul (of_nat 0) (Fin dt))))
    by now rewrite length_map, length_seq.
  rewrite (map_nth (fun i => Binary.store32 (Binary.mul (of_nat i) (Fin dt)))).
  rewrite seq_nth by assumption. cbn [Nat.add of_nat Binary.mul Binary.lift2 Binary.store32].
  eexists; split; [reflexivity|].
  set (I := inject_Z (Z.of_nat i)).
  destruct i as [|i].
  - assert (E : I * dt == 0) by (unfold I; cbn; ring).
    assert (E' : I * d == 0) by (unfold I; cbn; ring).
    rewrite E, E'. cbn. lra.
  - assert (HI : 1 <= I).
    { unfold I. change 1 with (inject_Z 1). rewrite <- Zle_Qle. lia. }
    pose proof (pow2_pos (-100)) as P.
    assert (Ha : pow2 (-100) <= I * d).
    { assert (1 * d <= I * d) by (apply Qmult_le_compat_r; lra). lra. }
    apply near_fround with (k := 6%Z); [lia | exact Ha |].
    apply (near_fl64 4); [lia | |].
    + apply Qle_trans with (pow2 (-100)); [apply pow2_le; lia | exact Ha].
    + apply near_scale; [lra | exact Hn].
Qed.

Lemma near_eq (k : Z) (a a' b b' : Q) :
  a == a' -> b == b' -> near k a b -> near k a' b'.
Proof. unfold near. intros Ea Eb. now rewrite Ea, Eb. Qed.

Lemma pow2_chain (a b : Z) (x : Q) : (a <= b)%Z -> pow2 b <= x -> pow2 a <= x.
Proof. intros H Hx. apply Qle_trans with (pow2 b); [now apply pow2_le | exact Hx]. Qed.

Lemma milli_lower (x : Q) : pow2 (-64) <= x -> pow2 (-74) <= x / 1000.
Proof.
  intro H. apply Qle_shift_div_l; [lra|].
  assert (E : pow2 (-64) == pow2 (-74) * pow2 10) by (now rewrite <- pow2_add).
  assert (pow2 10 == 1024) by reflexivity.
  pose proof (pow2_pos (-74)).
  assert (pow2 (-74) * 1000 <= pow2 (-74) * pow2 10) by (apply Qmult_le_l; lra).
  lra.
Qed.

(** The step of a rounded hint. *)
Lemma step_near (d : Q) :
  pow2 (-100) <= d -> near 2 d (fl64 d).
Proof.
  intro Hd. apply (near_fl64 0); [lia | | apply near_refl].
  apply pow2_chain with (-100)%Z; [lia | exact Hd].
Qed.

Lemma durS_near (msg : AudioChunkMsg) :
  hint_in_range (duration_ms msg) ->
  exists D, Binary.durS_of msg = Fin D /\ near 2 (spec_duration msg) D.
Proof.
  intro Hr. unfold Binary.durS_of, spec_duration.
  assert (Hc : near 2 (2 # 100) (fl64 (2 # 100))).
  { apply step_near. apply Qle_bool_iff. vm_compute. reflexivity. }
  assert (Pc : 0 < fl64 (2 # 100)).
  { destruct Hc as [L _].
    assert (pow2 (-53) <= 1 # 100) by (apply Qle_bool_iff; vm_compute; reflexivity).
    change (inject_Z 2) with 2 in L. pose proof (pow2_pos (-53)). nra. }
  assert (Hlow : forall x, x <= 0 ->
            Math_max (Fin (fl64 (2 # 100))) (Fin (fl64 (x / 1000))) = Fin (fl64 (2 # 100))).
  { intros x Hx. cbn [Math_max].
    assert (fl64 (x / 1000) <= 0) by (apply round_nonpos, Qle_shift_div_r; lra).
    destruct (Qle_bool (fl64 (2 # 100)) (fl64 (x / 1000))) eqn:E; [|reflexivity].
    apply Qle_bool_iff in E. lra. }
  destruct (duration_ms msg) as [[x|]|]; unfold or_, truthy; cbn [Number].
  - destruct (Qlt_le_dec 0 x) as [P|N].
    + rewrite Qeq_bool_pos by assumption. cbn [negb Binary.div].
      change (Qeq_bool 1000 0) with false. cbv iota. cbn [Math_max].
      eexists; split; [reflexivity|].
      cbn [hint_in_range] in Hr. specialize (Hr P).
      apply near_max; [lia | lra | apply Qlt_le_weak, Qlt_shift_div_l; lra | exact Hc |].
      apply step_near. apply pow2_chain with (-74)%Z; [lia|].
      apply milli_lower; tauto.
    + assert (Em : Qmax (2 # 100) (x / 1000) == 2 # 100).
      { apply Q.max_l. apply Qle_trans with 0; [apply Qle_shift_div_r|]; lra. }
      destruct (negb (Qeq_bool x 0)); cbn [Binary.div];
        change (Qeq_bool 1000 0) with false; cbv iota.
      * rewrite Hlow by assumption. eexists; split; [reflexivity|].
        eapply near_eq; [symmetry; exact Em | reflexivity | exact Hc].
      * rewrite Hlow by lra. eexists; split; [reflexivity|].
        eapply near_eq; [symmetry; exact Em | reflexivity | exact Hc].
  - cbn [Binary.div]. change (Qeq_bool 1000 0) with false. cbv iota.
    rewrite Hlow by lra. eexists; split; [reflexivity | exact Hc].
  - cbn [Binary.div]. change (Qeq_bool 1000 0) with false. cbv iota.
    rewrite Hlow by lra. eexists; split; [reflexivity | exact Hc].
Qed.

(** X2: without explicit timestamps, for at most [2^32] frames and timing
    hints that, when positive, lie between [2^-64] and [2^64], the raw axis
    follows the grid [i * d] with [d > 0]: entry [i] is within the relative
    error [2^-23] of [i * d], and entry [0] is [0].  A positive [frame_ms]
    fixes [d = frame_ms / 1000] whatever the other hints, otherwise a
    positive [viseme_fps] fixes [d = 1 / viseme_fps], and otherwise [d] is
    the step of the duration fallback. *)
Theorem synthetic_axis_is_grid (n : nat) (msg : AudioChunkMsg) :
  explicit_times msg = None ->
  (Z.of_nat n <= 2 ^ 32)%Z ->
  hint_in_range (frame_ms msg) -> hint_in_range (viseme_fps msg) ->
  hint_in_range (duration_ms msg) ->
  exists d,
    0 < d /\
    (forall i, (i < n)%nat ->
       exists t, rd (Binary.buildTimes n msg) i = Fin t /\
                 Qabs (t - inject_Z (Z.of_nat i) * d)
                 <= pow2 (-23) * (inject_Z (Z.of_nat i) * d)) /\
    ((0 < n)%nat -> num_eq (rd (Binary.buildTimes n msg) 0) (Fin 0)) /\
    (forall f, frame_ms msg = Some (Fin f) -> 0 < f -> d == f / 1000) /\
    (forall p, positive_hint (frame_ms msg) = false ->
               viseme_fps msg = Some (Fin p) -> 0 < p -> d == 1 / p) /\
    (positive_hint (frame_ms msg) = false -> positive_hint (viseme_fps msg) = false ->
     d == spec_step n (spec_duration msg)).
Proof.
  intros He Hn Hf Hp Hd.
  assert (Hax : exists d dt,
            Binary.buildTimes n msg = Binary.ramp n (Fin dt) /\
            pow2 (-100) <= d /\ near 4 d dt /\
            (forall f, frame_ms msg = Some (Fin f) -> 0 < f -> d == f / 1000) /\
            (forall p, positive_hint (frame_ms msg) = false ->
                       viseme_fps msg = Some (Fin p) -> 0 < p -> d == 1 / p) /\
            (positive_hint (frame_ms msg) = false ->
             positive_hint (viseme_fps msg) = false ->
             d == spec_step n (spec_duration msg))).
  { unfold Binary.buildTimes. rewrite He.
    destruct (positive_hint (frame_ms msg)) eqn:Ef.
    - apply positive_hint_inv in Ef. destruct Ef as [f [Ef Pf]].
      rewrite Ef in *. cbn [hint_in_range] in Hf. specialize (Hf Pf).
      cbn [Number Binary.div]. change (Qeq_bool 1000 0) with false. cbv iota.
      assert (Hq : pow2 (-100) <= f / 1000).
      { apply pow2_chain with (-74)%Z; [lia | apply milli_lower; tauto]. }
      exists (f / 1000), (fl64 (f / 1000)). split; [reflexivity|].
      split; [exact Hq|].
      split; [apply near_weaken with 2%Z;
              [pose proof (pow2_pos (-100)); lra | lia | now apply step_near]|].
      split; [intros f' E _; injection E as <-; reflexivity|].
      split; intros; discriminate.
    - destruct (positive_hint (viseme_fps msg)) eqn:Ev.
      + apply positive_hint_inv in Ev. destruct Ev as [p [Ev Pp]].
        rewrite Ev in *. cbn [hint_in_range] in Hp. specialize (Hp Pp).
        cbn [Number Binary.div]. rewrite Qeq_bool_pos by assumption.
        assert (Hq : pow2 (-100) <= 1 / p).
        { apply Qle_shift_div_l; [exact Pp|].
          assert (E : pow2 (-100) * pow2 100 == 1) by (now rewrite <- pow2_add).
          pose proof (pow2_pos (-100)) as P100.
          assert (pow2 64 <= pow2 100) by (apply pow2_le; lia).
          assert (pow2 (-100) * p <= pow2 (-100) * pow2 100)
            by (apply Qmult_le_l; [exact P100 | lra]).
          lra. }
        exists (1 / p), (fl64 (1 / p)). split; [reflexivity|].
        split; [exact Hq|].
        split; [apply near_weaken with 2%Z;
                [pose proof (pow2_pos (-100)); lra | lia | now apply step_near]|].
        split.
        { intros f E Pf. rewrite E in Ef. cbn in Ef.
          rewrite Qeq_bool_pos in Ef by assumption.
          apply Qltb_true in Pf. rewrite Pf in Ef. discriminate. }
        split; [intros p' _ E _; injection E as <-; reflexivity|].
        intros; discriminate.
      + cbv zeta. destruct (durS_near msg Hd) as [D [-> HD]].
        pose proof (spec_duration_floor msg) as Hfl.
        assert (Hno1 : forall f, frame_ms msg = Some (Fin f) -> 0 < f ->
                                 spec_step n (spec_duration msg) == f / 1000).
        { intros f E Pf. rewrite E in Ef. cbn in Ef.
          rewrite Qeq_bool_pos in Ef by assumption.
          apply Qltb_true in Pf. rewrite Pf in Ef. discriminate. }
        assert (Hno2 : forall p, false = false -> viseme_fps msg = Some (Fin p) -> 0 < p ->
                                 spec_step n (spec_duration msg) == 1 / p).
        { intros p _ E Pp. rewrite E in Ev. cbn in Ev.
          rewrite Qeq_bool_pos in Ev by assumption.
          apply Qltb_true in Pp. rewrite Pp in Ev. discriminate. }
        unfold spec_step in *.
        destruct (1 <? n)%nat eqn:En.
        * apply Nat.ltb_lt in En. unfold of_nat. cbn [Binary.div].
          rewrite inject_nat_nonzero by lia.
          pose proof (inject_nat_pos (n - 1) ltac:(lia)) as Pn.
          set (N := inject_Z (Z.of_nat (n - 1))) in *.
          assert (HN : N <= pow2 32).
          { unfold N. rewrite pow2_Z by lia. rewrite <- Zle_Qle. lia. }
          assert (Hq : pow2 (-100) <= spec_duration msg / N).
          { apply Qle_shift_div_l; [exact Pn|].
            assert (E : pow2 (-100) * pow2 32 == pow2 (-68)) by (now rewrite <- pow2_add).
            pose proof (pow2_pos (-100)) as P100.
            assert (pow2 (-100) * N <= pow2 (-100) * pow2 32)
              by (apply Qmult_le_l; [exact P100 | exact HN]).
            assert (pow2 (-68) <= 2 # 100) by (apply Qle_bool_iff; vm_compute; reflexivity).
            lra. }
          exists (spec_duration msg / N), (fl64 (D / N)). split; [reflexivity|].
          split; [exact Hq|].
          split.
          { apply (near_fl64 2); [lia | apply pow2_chain with (-100)%Z; [lia | exact Hq] |].
            apply near_eq with ((1 / N) * spec_duration msg) ((1 / N) * D);
              [field; lra | field; lra |].
            apply near_scale; [apply Qlt_le_weak, Qlt_shift_div_l; lra | exact HD]. }
          split; [exact Hno1|]. split; [exact Hno2 | reflexivity].
        * assert (Hq : pow2 (-100) <= spec_duration msg).
          { assert (pow2 (-100) <= 2 # 100) by (apply Qle_bool_iff; vm_compute; reflexivity).
            lra. }
          exists (spec_duration msg), D. split; [reflexivity|].
          split; [exact Hq|].
          split; [apply near_weaken with 2%Z; [lra | lia | exact HD]|].
          split; [exact Hno1|]. split; [exact Hno2 | reflexivity]. }
  destruct Hax as [d [dt [E [Hq [Hnear [H1 [H2 H3]]]]]]].
  exists d. pose proof (pow2_pos (-100)) as P.
  split; [lra|]. rewrite E.
  split; [intros i Hi; now apply ramp_entry|].
  split; [|split; [exact H1 | split; [exact H2 | exact H3]]].
  intro Pn. destruct (ramp_entry n d dt 0 Pn Hq Hnear) as [t [-> Ht]].
  cbn [num_eq]. change (inject_Z (Z.of_nat 0)) with 0 in Ht.
  apply Qabs_Qle_condition in Ht. lra.
Qed.

Lemma from32_binary32 (x : Q) : binary32 x -> Binary.from32 (Fin x) = Fin (fround x).
Proof.
  intros [F B]. cbn [Binary.from32].
  destruct (Qle_bool (pow2 128) (Qabs (fround x))) eqn:E; [|reflexivity].
  apply Qle_bool_iff in E. rewrite F in E. lra.
Qed.

(** Sorted binary32 timestamps pass the conversion and the loop unchanged. *)
Lemma floor_loop_binary32 (p : Q) (ts : list Q) :
  0 <= p -> Forall (Qle p) ts -> StronglySorted Qle ts -> Forall binary32 ts ->
  Forall2 num_eq (floor_loop (Fin p) (map Binary.from32 (map Fin ts)))
          (map Fin ts).
Proof.
  revert p. induction ts as [|x ts IH]; intros p Hp Hall Hs Hb; [constructor|].
  inversion Hall as [|? ? Hx Hrest]; subst. inversion Hs as [|? ? Hs' Hxs]; subst.
  inversion Hb as [|? ? Bx Bs]; subst.
  cbn [map floor_loop]. rewrite (from32_binary32 x Bx).
  cbn [isFinite Math_max lt]. destruct Bx as [Fx _].
  assert (E1 : Qle_bool 0 (fround x) = true) by (apply Qle_bool_iff; rewrite Fx; lra).
  rewrite E1.
  assert (E2 : Qltb (fround x) p = false) by (apply Qltb_false; rewrite Fx; exact Hx).
  rewrite E2. constructor; [exact Fx|].
  apply IH; [rewrite Fx; lra | | exact Hs' | exact Bs].
  eapply Forall_impl; [|exact Hxs]. intros a Ha. cbv beta in *. now rewrite Fx.
Qed.

(** X3: explicit timestamps that are at least two, binary32 numbers, not
    negative and sorted are returned as they are by [buildTimes], cut to the
    number of frames. *)
Theorem explicit_times_verbatim (n : nat) (msg : AudioChunkMsg) (ts : list Q) :
  viseme_times msg = Some (map Fin ts) ->
  (2 <= length ts)%nat ->
  Forall binary32 ts -> Forall (Qle 0) ts -> StronglySorted Qle ts ->
  Forall2 num_eq (Binary.buildTimes n msg) (map Fin (firstn n ts)).
Proof.
  intros Hv Hlen Hb Hpos Hs. unfold Binary.buildTimes, explicit_times. rewrite Hv.
  rewrite length_map. destruct (2 <=? length ts)%nat eqn:E;
    [|apply Nat.leb_gt in E; lia].
  rewrite !firstn_map.
  apply floor_loop_binary32; [lra | | now apply firstn_sorted | now apply Forall_firstn].
  now apply Forall_firstn.
Qed.

(* ===================================================================== *)
(** ** The binary search on a sorted axis *)
(* ===================================================================== *)


(** The binary search on a sorted axis: it returns the number of entries
    below [x], provided the entries left of [lo] are below [x] and those
    right of [hi] are not. *)
Lemma lb_loop_sorted (qs : list Q) (x : Q) (lo hi : Z) :
  StronglySorted Qle qs ->
  (0 <= lo <= hi + 1)%Z -> (hi < Z.of_nat (length qs))%Z ->
  (forall i, (Z.of_nat i < lo)%Z -> nth i qs 0 < x) ->
  (forall i, (hi < Z.of_nat i)%Z -> (i < length qs)%nat -> x <= nth i qs 0) ->
  let r := lb_loop (map Fin qs) (Fin x) lo hi in
  (lo <= r <= hi + 1)%Z /\
  (forall i, (Z.of_nat i < r)%Z -> nth i qs 0 < x) /\
  (forall i, (r <= Z.of_nat i)%Z -> (i < length qs)%nat -> x <= nth i qs 0).
Proof.
  intro Hs. cbv zeta.
  funelim (lb_loop (map Fin qs) (Fin x) lo hi); intros Hlo Hhi Hbelow Habove.
  - pose proof (half_between lo hi l) as Hm.
    set (mid := Z.shiftr (lo + hi) 1) in *.
    assert (Hmid : rdZ (map Fin qs) mid = Fin (nth (Z.to_nat mid) qs 0)).
    { rewrite <- (Z2Nat.id mid) at 1 by lia. rewrite rdZ_nat.
      apply rd_map_Fin. lia. }
    rewrite Hmid. cbn [lt].
    destruct (Qltb (nth (Z.to_nat mid) qs 0) x) eqn:E.
    + apply Qltb_true in E.
      destruct (H Hs) as [H1 [H2 H3]]; try lia; try assumption.
      * intros i Hi.
        pose proof (sorted_nth qs Hs i (Z.to_nat mid) ltac:(lia)). lra.
      * repeat split; try lia; assumption.
    + apply Qltb_false in E.
      destruct (H0 Hs) as [H1 [H2 H3]]; try lia; try assumption.
      * intros i Hi Hlen.
        pose proof (sorted_nth qs Hs (Z.to_nat mid) i ltac:(lia)). lra.
      * repeat split; try lia; assumption.
  - repeat split; try lia.
    + intros i Hi. apply Hbelow. lia.
    + intros i Hi Hlen. apply Habove; [lia | assumption].
Qed.

(** The count of entries below [x], and what [lowerBound] makes of it. *)
Lemma lb_count_sorted (qs : list Q) (x : Q) :
  StronglySorted Qle qs ->
  exists r : nat,
    (r <= length qs)%nat /\
    (forall i, (i < r)%nat -> nth i qs 0 < x) /\
    (forall i, (r <= i < length qs)%nat -> x <= nth i qs 0) /\
    lowerBound (map Fin qs) (Fin x)
    = Z.max 1 (Z.min (Z.of_nat (length qs) - 1) (Z.of_nat r)).
Proof.
  intro Hs.
  destruct (lb_loop_sorted qs x 0 (Z.of_nat (length qs) - 1) Hs)
    as [H1 [H2 H3]]; try lia.
  set (r := lb_loop (map Fin qs) (Fin x) 0 (Z.of_nat (length qs) - 1)) in *.
  exists (Z.to_nat r). repeat split.
  - lia.
  - intros i Hi. apply H2. lia.
  - intros i Hi. apply H3; lia.
  - unfold lowerBound. cbv zeta. rewrite length_map. fold r.
    rewrite Z2Nat.id by lia. reflexivity.
Qed.

(** X5: on a sorted axis the binary search of [lowerBound] finds the number
    [r] of entries below [x] (every entry before [r] is below [x], none from
    [r] on is), and [lowerBound] returns [r] clamped into [[1, len - 1]],
    hence never less than [1]. *)
Theorem lowerBound_sorted (qs : list Q) (x : Q) :
  StronglySorted Qle qs ->
  exists r : nat,
    (r <= length qs)%nat /\
    (forall i, (i < r)%nat -> nth i qs 0 < x) /\
    (forall i, (r <= i < length qs)%nat -> x <= nth i qs 0) /\
    lowerBound (map Fin qs) (Fin x)
    = Z.max 1 (Z.min (Z.of_nat (length qs) - 1) (Z.of_nat r)) /\
    (1 <= lowerBound (map Fin qs) (Fin x))%Z /\
    ((2 <= length qs)%nat ->
     (lowerBound (map Fin qs) (Fin x) <= Z.of_nat (length qs) - 1)%Z).
Proof.
  intro Hs. destruct (lb_count_sorted qs x Hs) as [r [Hr [Hlow [Hhigh E]]]].
  exists r. split; [exact Hr|]. split; [exact Hlow|]. split; [exact Hhigh|].
  split; [exact E|]. rewrite E. split.
  - apply Z.le_max_l.
  - intro Hlen. apply Z.max_lub; [lia|]. apply Z.le_min_l.
Qed.

(* ===================================================================== *)
(** ** The local parameter and held poses *)
(* ===================================================================== *)


(** The local parameter [u] that [sampleCatmullRom] computes. *)
Definition local_param (times : list num) (t : num) : num :=
  let idx1 := lowerBound times t in
  let t0 := rdZ times (idx1 - 1) in
  let t1 := rdZ times idx1 in
  if gt t1 t0 then ((t - t0) / (t1 - t0))%js else Fin 0.

Definition control_frames (ch : Chunk) (t : num)
  : option (list num * list num * list num * list num) :=
  let idx1 := lowerBound (times ch) t in
  let nF := Z.of_nat (length (frames ch)) in
  match frame_or (frames ch) (Z.max (idx1 - 1 - 1) 0) 0,
        frame_or (frames ch) (idx1 - 1) 0,
        frame_or (frames ch) idx1 (nF - 1),
        frame_or (frames ch) (Z.min (idx1 + 1) (nF - 1)) (nF - 1) with
  | Some f_1, Some f0, Some f1, Some f2 => Some (f_1, f0, f1, f2)
  | _, _, _, _ => None
  end.

Lemma sampleCatmullRom_unfold (ch : Chunk) (t : num) (out : list num) :
  sampleCatmullRom ch t out =
  match control_frames ch t with
  | Some (f_1, f0, f1, f2) =>
      Some (for_loop COLS
              (fun i out =>
                 set out i (clamp01 (catmullRom (rd f_1 i) (rd f0 i) (rd f1 i)
                                                (rd f2 i)
                                                (local_param (times ch) t))))
              out)
  | None => None
  end.
Proof.
  unfold sampleCatmullRom, control_frames, local_param. cbv zeta.
  destruct (frame_or _ _ _); [|reflexivity].
  destruct (frame_or _ _ _); [|reflexivity].
  destruct (frame_or _ _ _); [|reflexivity].
  destruct (frame_or _ _ _); reflexivity.
Qed.

Lemma rdZ_out (a : list num) (i : Z) :
  (Z.of_nat (length a) <= i)%Z -> rdZ a i = NaN.
Proof.
  intro H. unfold rdZ, rd. destruct (i <? 0)%Z; [reflexivity|].
  apply nth_overflow. lia.
Qed.

Lemma rdZ_map_Fin (qs : list Q) (i : Z) :
  (0 <= i < Z.of_nat (length qs))%Z ->
  rdZ (map Fin qs) i = Fin (nth (Z.to_nat i) qs 0).
Proof.
  intro H. rewrite <- (Z2Nat.id i) at 1 by lia. rewrite rdZ_nat.
  apply rd_map_Fin. lia.
Qed.

Lemma gt_NaN (a : num) : gt NaN a = false.
Proof. unfold gt, lt. now destruct a. Qed.

(** X6: on a sorted axis and for a query time between its first and its
    last entry, the local parameter of [sampleCatmullRom] lies in [[0, 1]]:
    the sampler interpolates inside a bracket and never extrapolates. *)
Theorem local_param_unit (qs : list Q) (x : Q) :
  StronglySorted Qle qs ->
  nth 0 qs 0 <= x <= nth (length qs - 1) qs 0 ->
  exists u, local_param (map Fin qs) (Fin x) = Fin u /\ 0 <= u <= 1.
Proof.
  intros Hs Hx. unfold local_param. cbv zeta.
  destruct (lb_count_sorted qs x Hs) as [r [Hr [Hlow [Hhigh ->]]]].
  destruct (le_lt_dec (length qs) 1) as [Hshort|Hlong].
  - replace (Z.max 1 (Z.min (Z.of_nat (length qs) - 1) (Z.of_nat r))) with 1%Z by lia.
    rewrite (rdZ_out _ 1) by (rewrite length_map; lia). rewrite gt_NaN.
    exists 0. split; [reflexivity | lra].
  - assert (Hr' : (r <= length qs - 1)%nat).
    { destruct (Nat.eq_dec r (length qs)) as [->|]; [|lia].
      pose proof (Hlow (length qs - 1)%nat ltac:(lia)). lra. }
    replace (Z.min (Z.of_nat (length qs) - 1) (Z.of_nat r)) with (Z.of_nat r) by lia.
    set (i1 := Z.max 1 (Z.of_nat r)).
    rewrite !rdZ_map_Fin by (unfold i1; lia).
    unfold gt. cbn [lt sub lift2 div].
    destruct (Qltb _ _) eqn:G; [|exists 0; split; [reflexivity | lra]].
    apply Qltb_true in G.
    set (t0 := nth (Z.to_nat (i1 - 1)) qs 0) in *.
    set (t1 := nth (Z.to_nat i1) qs 0) in *.
    rewrite Qeq_bool_pos by lra.
    eexists; split; [reflexivity|].
    assert (Hb : t0 <= x <= t1).
    { unfold t0, t1, i1. destruct r as [|r].
      - change (Z.to_nat (Z.max 1 (Z.of_nat 0) - 1)) with 0%nat.
        change (Z.to_nat (Z.max 1 (Z.of_nat 0))) with 1%nat.
        split; [tauto|]. apply Hhigh. lia.
      - replace (Z.to_nat (Z.max 1 (Z.of_nat (S r)) - 1)) with r by lia.
        replace (Z.to_nat (Z.max 1 (Z.of_nat (S r)))) with (S r) by lia.
        split; [apply Qlt_le_weak, Hlow; lia | apply Hhigh; lia]. }
    split.
    + apply Qle_shift_div_l; lra.
    + apply Qle_shift_div_r; lra.
Qed.

Lemma catmullRom_const (c u : Q) :
  num_eq (catmullRom (Fin c) (Fin c) (Fin c) (Fin c) (Fin u)) (Fin c).
Proof. unfold catmullRom. cbn. ring. Qed.

Lemma at_Z_single {A : Type} (f : A) (i : Z) :
  at_Z [f] i = if (i =? 0)%Z then Some f else None.
Proof.
  unfold at_Z. destruct (i <? 0)%Z eqn:E.
  - apply Z.ltb_lt in E. destruct (i =? 0)%Z eqn:E0; [apply Z.eqb_eq in E0; lia|].
    reflexivity.
  - apply Z.ltb_ge in E. destruct (i =? 0)%Z eqn:E0.
    + apply Z.eqb_eq in E0. subst. reflexivity.
    + apply Z.eqb_neq in E0. destruct (Z.to_nat i) as [|n] eqn:En; [lia|].
      cbn. now destruct n.
Qed.

Lemma frame_or_single (f : list num) (i : Z) : frame_or [f] i 0 = Some f.
Proof.
  unfold frame_or. rewrite at_Z_single. now destruct (i =? 0)%Z.
Qed.

(** X7: a chunk of one frame is a held pose: whatever the query time, also
    [NaN], [sampleCatmullRom] returns that frame. *)
Theorem single_frame_held (ch : Chunk) (f : list num) (t : num) (out : list num) :
  frames ch = [f] -> (length (times ch) <= 1)%nat ->
  is_pose f -> length out = COLS ->
  exists r,
    sampleCatmullRom ch t out = Some r /\
    forall i, (i < COLS)%nat -> num_eq (rd r i) (rd f i).
Proof.
  intros Hf Hlen Hpose Hout. rewrite sampleCatmullRom_unfold.
  unfold control_frames, local_param. cbv zeta. rewrite Hf.
  change (Z.of_nat (length [f]) - 1)%Z with 0%Z.
  rewrite !frame_or_single.
  assert (Hidx : lowerBound (times ch) t = 1%Z) by (unfold lowerBound; lia).
  rewrite Hidx. rewrite (rdZ_out _ 1) by lia. rewrite gt_NaN.
  eexists; split; [reflexivity|]. intros i Hi.
  rewrite fill_loop_rd by lia.
  destruct (in01_Fin _ (Hpose i Hi)) as [c [Ec Hc]]. rewrite Ec.
  apply clamp01_num_eq; [apply catmullRom_const | cbn; lra].
Qed.

(* ===================================================================== *)
(** ** Duration after rescaling, and the clocks *)
(* ===================================================================== *)


Lemma tail_of_map (f : Q -> Q) (qs : list Q) :
  qs <> [] -> tail_of (map (fun q => Fin (f q)) qs) = Fin (f (last qs 0)).
Proof.
  unfold tail_of. induction qs as [|q qs IH]; [congruence|]. intros _.
  destruct qs as [|q' qs]; [reflexivity|].
  change (last (map (fun q => Fin (f q)) (q' :: qs)) NaN = Fin (f (last (q' :: qs) 0))).
  apply IH. discriminate.
Qed.

Lemma rescale_error (D r : Q) :
  pow2 (-149) <= r -> r < pow2 128 -> pow2 (-125) <= D -> D <= pow2 126 ->
  Qabs (fround (fl64 (r * fl64 (D / r))) - D) <= pow2 (-23) * D.
Proof.
  intros Hr1 Hr2 HD1 HD2.
  pose proof (pow2_pos (-149)) as P149. pose proof (pow2_pos (-125)) as P125.
  set (e := pow2 (-53)). set (h := pow2 (-24)).
  assert (He : 0 < e) by apply pow2_pos. assert (Hh : 0 < h) by apply pow2_pos.
  assert (Ne : (1 + e) * (1 + e) * (1 + h) <= 1 + pow2 (-23))
    by (apply Qle_bool_iff; vm_compute; reflexivity).
  assert (Ne' : 1 - pow2 (-23) <= (1 - e) * (1 - e) * (1 - h))
    by (apply Qle_bool_iff; vm_compute; reflexivity).
  assert (Ne1 : e <= 1 # 4) by (apply Qle_bool_iff; vm_compute; reflexivity).
  assert (Nh1 : h <= 1 # 2) by (apply Qle_bool_iff; vm_compute; reflexivity).
  set (x1 := D / r).
  assert (Hx1 : pow2 (-1022) <= x1).
  { unfold x1. apply Qle_shift_div_l; [lra|].
    apply Qle_trans with (pow2 (-1022) * pow2 128).
    - apply Qmult_le_l; [apply pow2_pos | lra].
    - rewrite <- pow2_add. apply Qle_trans with (pow2 (-125)); [apply pow2_le; lia | exact HD1]. }
  pose proof (fl64_rel x1 Hx1) as S. fold e in S. set (s := fl64 x1) in *.
  assert (X1 : r * x1 == D) by (unfold x1; field; lra).
  assert (Px1 : 0 < x1) by (pose proof (pow2_pos (-1022)); lra).
  set (x2 := r * s).
  assert (Hx2 : D * (1 - e) <= x2 <= D * (1 + e)).
  { unfold x2. split.
    - rewrite <- X1. setoid_replace (r * x1 * (1 - e)) with (r * (x1 * (1 - e))) by ring.
      apply Qmult_le_l; lra.
    - rewrite <- X1. setoid_replace (r * x1 * (1 + e)) with (r * (x1 * (1 + e))) by ring.
      apply Qmult_le_l; lra. }
  assert (HDh : D * (1 # 2) <= D * (1 - e)) by (apply Qmult_le_l; lra).
  assert (P126 : pow2 (-126) <= D * (1 # 2)).
  { assert (E : pow2 (-125) == 2 * pow2 (-126))
      by (change 2 with (pow2 1); now rewrite <- pow2_add).
    lra. }
  assert (Hx2' : pow2 (-1022) <= x2).
  { apply Qle_trans with (pow2 (-126)); [apply pow2_le; lia | lra]. }
  pose proof (fl64_rel x2 Hx2') as Pp. fold e in Pp. set (p := fl64 x2) in *.
  assert (Px2 : 0 < x2) by (pose proof (pow2_pos (-126)); lra).
  assert (Hp : D * ((1 - e) * (1 - e)) <= p <= D * ((1 + e) * (1 + e))).
  { split.
    - apply Qle_trans with (x2 * (1 - e)); [|tauto].
      setoid_replace (D * ((1 - e) * (1 - e))) with (D * (1 - e) * (1 - e)) by ring.
      apply Qmult_le_compat_r; lra.
    - apply Qle_trans with (x2 * (1 + e)); [tauto|].
      setoid_replace (D * ((1 + e) * (1 + e))) with (D * (1 + e) * (1 + e)) by ring.
      apply Qmult_le_compat_r; lra. }
  assert (Hq : D * (1 # 2) <= D * ((1 - e) * (1 - e))).
  { apply Qmult_le_l; [lra|].
    assert (0 <= e * e) by (apply Qmult_le_0_compat; lra). lra. }
  assert (Hp' : pow2 (-126) <= p) by lra.
  pose proof (fround_rel p Hp') as Pd. fold h in Pd. set (d := fround p) in *.
  assert (Pp0 : 0 < p) by (pose proof (pow2_pos (-126)); lra).
  apply Qabs_Qle_condition. split.
  - assert (D * ((1 - e) * (1 - e)) * (1 - h) <= p * (1 - h))
      by (apply Qmult_le_compat_r; lra).
    assert (D * (1 - pow2 (-23)) <= D * ((1 - e) * (1 - e) * (1 - h)))
      by (apply Qmult_le_l; lra).
    lra.
  - assert (p * (1 + h) <= D * ((1 + e) * (1 + e)) * (1 + h))
      by (apply Qmult_le_compat_r; lra).
    assert (D * ((1 + e) * (1 + e) * (1 + h)) <= D * (1 + pow2 (-23)))
      by (apply Qmult_le_l; lra).
    lra.
Qed.

Lemma binary32_pos_min (r : Q) : fround r == r -> 0 < r -> pow2 (-149) <= r.
Proof.
  intros F P. destruct (binary32_dyadic r F) as [m Hm].
  pose proof (pow2_pos (-149)) as P149.
  assert (Hz : (0 < m)%Z).
  { rewrite Zlt_Qlt. apply Qnot_le_lt. intro C.
    assert (inject_Z m * pow2 (-149) <= 0 * pow2 (-149))
      by (apply Qmult_le_compat_r; [exact C | lra]).
    lra. }
  rewrite Hm. rewrite <- (Qmult_1_l (pow2 (-149))) at 1.
  apply Qmult_le_compat_r; [|lra].
  change 1 with (inject_Z 1). rewrite <- Zle_Qle. lia.
Qed.

(** X8: [begin] with a duration [D] between [2^-125] and [2^126], on a raw
    axis whose last entry is a positive binary32 number: the scaled axis,
    computed in binary64 and stored in a [Float32Array], ends at a number
    [d] within the relative error [2^-23] of [D], and the duration of the
    chunk is that [d].  When the last entry of the raw axis is [0], the
    duration is [max(0.02, D)]. *)
Theorem begin_duration (qs : list Q) (D : Q) :
  (0 < last qs 0 -> binary32 (last qs 0) ->
   pow2 (-125) <= D -> D <= pow2 126 ->
   exists d,
     tail_of (fst (Binary.begin_axis (map Fin qs) (Fin D))) = Fin d /\
     snd (Binary.begin_axis (map Fin qs) (Fin D)) = Fin d /\
     Qabs (d - D) <= pow2 (-23) * D) /\
  (last qs 0 == 0 ->
   num_eq (snd (Binary.begin_axis (map Fin qs) (Fin D)))
          (Math_max (Fin (fl64 (2 # 100))) (Fin D))).
Proof.
  split.
  - intros Hr [Fr Br] HD1 HD2. set (r := last qs 0) in *.
    assert (Hne : qs <> []) by (intros ->; cbn in Hr; lra).
    assert (Hraw : or_ (tail_of (map Fin qs)) (Fin 0) = Fin r).
    { rewrite (tail_of_map_Fin qs Hne). fold r. unfold or_, truthy.
      now rewrite (Qeq_bool_pos r Hr). }
    assert (G : Qltb 0 r = true) by (now apply Qltb_true).
    unfold Binary.begin_axis. cbv zeta. rewrite !Hraw.
    unfold gt. cbn [lt]. rewrite G. cbn [Binary.div]. rewrite (Qeq_bool_pos r Hr).
    set (s := fl64 (D / r)).
    rewrite map_map. cbn [Binary.mul Binary.lift2 Binary.store32 fst snd].
    rewrite !(tail_of_map (fun q => fround (fl64 (q * s))) qs Hne). fold r.
    pose proof (rescale_error D r (binary32_pos_min r Fr Hr)) as E.
    rewrite Qabs_pos in Br by lra. specialize (E Br HD1 HD2). fold s in E.
    exists (fround (fl64 (r * s))). split; [reflexivity|]. split; [|exact E].
    assert (Pd : 0 < fround (fl64 (r * s))).
    { apply Qabs_Qle_condition in E. pose proof (pow2_pos (-125)).
      assert (N : pow2 (-23) <= 1 # 2) by (apply Qle_bool_iff; vm_compute; reflexivity).
      assert (pow2 (-23) * D <= (1 # 2) * D) by (apply Qmult_le_compat_r; lra).
      lra. }
    unfold or_, truthy. now rewrite (Qeq_bool_pos _ Pd).
  - intro Hz. destruct qs as [|q qs]; [apply num_eq_refl|].
    set (r := last (q :: qs) 0) in *.
    assert (Zr : Qeq_bool r 0 = true) by (now apply Qeq_bool_iff).
    assert (Hraw : or_ (tail_of (map Fin (q :: qs))) (Fin 0) = Fin 0).
    { rewrite (tail_of_map_Fin (q :: qs)) by discriminate. fold r.
      unfold or_, truthy. now rewrite Zr. }
    unfold Binary.begin_axis. cbv zeta. rewrite !Hraw.
    unfold gt. cbn [lt]. change (Qltb 0 0) with false. cbv iota.
    rewrite map_map. cbn [Binary.mul Binary.lift2 Binary.store32 fst snd].
    rewrite !(tail_of_map (fun q => fround (fl64 (q * 1))) (q :: qs)) by discriminate.
    fold r.
    assert (Zd : Qeq_bool (fround (fl64 (r * 1))) 0 = true).
    { apply Qeq_bool_iff. assert (E : r * 1 == 0) by (rewrite Hz; ring).
      rewrite E. reflexivity. }
    unfold or_, truthy. rewrite Zd. apply num_eq_refl.
Qed.

(** X9: the playback position used by [getFrame], read from the audio
    element or from the wall clock, lies in [[0, duration]]. *)
Theorem playback_time_range (e : Env) (ch : Chunk) (d st : Q) :
  duration ch = Fin d -> startedAt ch = Fin st -> 0 <= d ->
  exists t, playback_time e ch = Fin t /\ 0 <= t <= d.
Proof.
  intros Hd Hst Hpos. unfold playback_time. rewrite Hd, Hst.
  destruct (isSome (audioEl ch) && negb (isNaN (audio_currentTime e))) eqn:E.
  - apply andb_true_iff in E. destruct E as [_ E].
    destruct (audio_currentTime e) as [c|]; [|discriminate].
    cbn [Math_min Math_max]. eexists; split; [reflexivity|]. q_cases; lra.
  - cbn [sub lift2 Math_min Math_max]. eexists; split; [reflexivity|].
    q_cases; lra.
Qed.

(** X10: the time step of a tick is the time since the last tick clamped
    into [[0.001, 0.033]] seconds, whatever the clock reads. *)
Theorem tick_dt_range (e : Env) (s : State) (l : Q) :
  lastTick s = Fin l ->
  exists dt, tick_dt e s = Fin dt /\ 1 # 1000 <= dt <= 33 # 1000 /\
             dt == Qmax (1 # 1000) (Qmin (33 # 1000) (now e - l)).
Proof.
  intro Hl. unfold tick_dt. rewrite Hl. cbn [sub lift2 Math_min Math_max].
  set (x := now e - l).
  destruct (Q.min_spec (33 # 1000) x) as [[H1 H2]|[H1 H2]];
    destruct (Q.max_spec (1 # 1000) (Qmin (33 # 1000) x)) as [[H3 H4]|[H3 H4]];
    destruct (Qle_bool (33 # 1000) x) eqn:E1;
    try (apply Qle_bool_iff in E1); try (apply Qle_bool_false in E1);
    (eexists; split; [reflexivity|]); q_cases; lra.
Qed.

Lemma lerp_convex (a b t : Q) :
  exists c, lerp (Fin a) (Fin b) (Fin t) = Fin (a + (b - a) * c) /\
            0 <= c <= 1 /\ (t <= 0 -> c == 0) /\ (1 <= t -> c == 1) /\
            (0 <= t <= 1 -> c == t).
Proof.
  unfold lerp, gt. cbn [lt].
  destruct (Qltb t 0) eqn:E0; [|destruct (Qltb 1 t) eqn:E1].
  - apply Qltb_true in E0. exists 0. split; [reflexivity|].
    repeat split; intros; lra.
  - apply Qltb_true in E1. exists 1. split; [reflexivity|].
    repeat split; intros; lra.
  - apply Qltb_false in E0, E1. exists t. split; [reflexivity|].
    repeat split; intros; lra.
Qed.

(* ===================================================================== *)
(** ** Crossfade, idle ticks and activation paths *)
(* ===================================================================== *)

Lemma finite_Fin (a : num) : finite a -> exists q, a = Fin q.
Proof. destruct a as [q|]; [eauto | discriminate]. Qed.

Lemma set_set (p : list num) (i : nat) (y z : num) :
  set (set p i y) i z = set p i z.
Proof.
  revert i. induction p as [|x p IH]; intros [|i]; cbn; try reflexivity.
  now rewrite IH.
Qed.

(** [Math.exp] maps the non-positive numbers into [[0, 1]]. *)
Definition exp_ok (Math_exp : Q -> Q) : Prop :=
  forall x, x <= 0 -> 0 <= Math_exp x <= 1.


Lemma Qsquare_nonneg (a : Q) : 0 <= a * a.
Proof.
  destruct (Qlt_le_dec a 0) as [H|H].
  - assert (0 <= (- a) * (- a)) by (apply Qmult_le_0_compat; lra).
    assert ((- a) * (- a) == a * a) by ring. lra.
  - apply Qmult_le_0_compat; assumption.
Qed.

Lemma exp_approx_ok : exp_ok exp_approx.
Proof.
  intros x Hx. unfold exp_approx.
  assert (E1 : x / 2 == x * (1 # 2)) by field.
  assert (E2 : x * x / 12 == x * x * (1 # 12)) by field.
  pose proof (Qsquare_nonneg x) as Hsq.
  pose proof (Qsquare_nonneg (x + 3)) as Hsq3.
  assert (E3 : (x + 3) * (x + 3) == x * x + 6 * x + 9) by ring.
  assert (Hd : 0 < 1 - x / 2 + x * x / 12) by lra.
  assert (Hn : 0 <= 1 + x / 2 + x * x / 12) by lra.
  split.
  - apply Qle_shift_div_l; lra.
  - apply Qle_shift_div_r; lra.
Qed.

Section Behaviour.

Variable Math_exp : Q -> Q.
Variable opts : Options.

(** X12: the crossfade leaves the target alone from [fadeInEnd] on; before,
    every channel is [from + (target - from) * k] with [k] in [[0, 1]], where
    [k] rises linearly from [0] at [fadeInEnd - crossfadeS] to [1] at
    [fadeInEnd] and is [0] earlier. *)
Theorem crossfade_ramp (ch : Chunk) (n : Q) (t : list num) (c fe : Q) :
  crossfadeS opts = Fin c -> 0 < c -> fadeInEnd ch = Fin fe ->
  is_pose (fadeInFrom ch) -> length t = COLS -> is_pose t ->
  (fe <= n -> crossfade opts ch (Fin n) t = t) /\
  (n < fe ->
   forall i, (i < COLS)%nat ->
     exists a b k,
       rd (fadeInFrom ch) i = Fin a /\ rd t i = Fin b /\ 0 <= k <= 1 /\
       rd (crossfade opts ch (Fin n) t) i = Fin (a + (b - a) * k) /\
       (fe - c <= n -> k == (n - (fe - c)) / c) /\
       (n <= fe - c -> k == 0)).
Proof.
  intros Ec Hc Efe Hfrom Hlen Ht. unfold crossfade. rewrite Efe, Ec. cbn [lt].
  split.
  - intro H. apply Qltb_false in H. now rewrite H.
  - intros H i Hi. apply Qltb_true in H. rewrite H. apply Qltb_true in H.
    cbn [sub lift2 div]. rewrite Qeq_bool_pos by assumption.
    cbn [Math_max sub lift2].
    rewrite (update_loop_rd COLS (fun i x => lerp (rd (fadeInFrom ch) i) x _)) by lia.
    destruct (in01_Fin _ (Hfrom i Hi)) as [a [-> Ha]].
    destruct (in01_Fin _ (Ht i Hi)) as [b [-> Hb]].
    set (cfk := 1 - (if Qle_bool 0 ((fe - n) / c) then (fe - n) / c else 0)).
    destruct (lerp_convex a b cfk) as [k [-> [Hk [Hk0 [Hk1 Hkt]]]]].
    exists a, b, k. repeat (split; [reflexivity || exact Hk|]).
    assert (Hpos : 0 < (fe - n) / c) by (apply Qlt_shift_div_l; lra).
    assert (Hcfk : cfk == 1 - (fe - n) / c).
    { unfold cfk. destruct (Qle_bool 0 ((fe - n) / c)) eqn:E; [reflexivity|].
      apply Qle_bool_false in E. lra. }
    assert (Hsplit : 1 - (fe - n) / c == (n - (fe - c)) / c) by (field; lra).
    split.
    + intro Hn. rewrite <- Hsplit, <- Hcfk. apply Hkt. rewrite Hcfk, Hsplit.
      split; [apply Qle_shift_div_l | apply Qle_shift_div_r]; lra.
    + intro Hn. apply Hk0. rewrite Hcfk, Hsplit.
      apply Qle_shift_div_r; lra.
Qed.


(** X15: a chunk without audio, or pushed while muted, that finds the
    scheduler idle is started at once by [begin] with
    [max(0.02, duration_ms / 1000)], whatever its timestamps: the fallback on
    the raw tail is never taken. *)
Theorem silent_chunk_duration (msg : AudioChunkMsg) (e : Env) (s : State) :
  active s = None -> queue s = [] ->
  nonempty (audio msg) && negb (muted s) = false ->
  active (pushChunk opts msg e s)
  = Some (begin opts e (pos s) (new_chunk msg (muted s)) (durS_of msg)) /\
  num_eq (durS_of msg) (Fin (spec_duration msg)) /\
  2 # 100 <= spec_duration msg.
Proof.
  intros Ha Hq Haud. split; [|split; [apply durS_of_spec | apply spec_duration_floor]].
  unfold pushChunk, startNext. cbn [active queue set_queue]. rewrite Ha, Hq.
  cbn [app]. cbn [set_active set_queue active]. f_equal.
  unfold activate.
  assert (Hael : audioEl (new_chunk msg (muted s)) = None).
  { unfold new_chunk. cbn [audioEl]. now rewrite Haud. }
  rewrite Hael. cbn [isSome andb pos set_queue].
  f_equal. cbn [duration new_chunk].
  pose proof (durS_of_spec msg) as Hd. pose proof (spec_duration_floor msg) as Hf.
  destruct (durS_of msg) as [q|]; [|contradiction]. cbn [num_eq] in Hd.
  unfold or_ at 1. unfold truthy. rewrite Qeq_bool_pos by lra. reflexivity.
Qed.

End Behaviour.

(** X13: in the idle branch of [getFrame], for a decay rate and a time step
    that are not negative and a [Math.exp] that maps the non-positive
    numbers into [[0, 1]], a channel of the pose that holds a binary32 number
    in [[0, 1]] holds after the tick a binary32 number between [0] and the
    one it held. *)
Theorem idle_tick_decays (Math_exp : Q -> Q) (c dt : Q) (p v : list num) (i : nat) :
  exp_ok Math_exp -> 0 <= c -> 0 <= dt ->
  length p = COLS -> length v = COLS -> (i < COLS)%nat ->
  in01 (rd p i) -> f32 (rd p i) ->
  exists a b,
    rd p i = Fin a /\
    rd (fst (Binary.relax Math_exp (Fin c) (Fin dt) p v)) i = Fin b /\
    0 <= b <= a /\ binary32 b.
Proof.
  intros Hexp Hc Hdt Hlp Hlv Hi Hin Hf.
  destruct (rd p i) as [a|] eqn:Ea; [|contradiction].
  cbn [in01 f32] in Hin, Hf. destruct Hf as [Fa Ba].
  set (x := fl64 (- c * dt)).
  assert (Hx : x <= 0).
  { apply round_nonpos. assert (0 <= c * dt) by (apply Qmult_le_0_compat; lra). lra. }
  pose proof (Hexp x Hx) as Hk. set (k := Math_exp x) in *.
  assert (Hrd : rd (fst (Binary.relax Math_exp (Fin c) (Fin dt) p v)) i
                = Fin (fround (fl64 (a * k)))).
  { unfold Binary.relax. cbn [neg Binary.mul Binary.lift2 exp_num]. fold x. fold k.
    assert (Hsplit : forall n pv,
              fst (for_loop n
                     (fun i pv =>
                        (set (fst pv) i (Binary.store32 (Binary.mul (rd (fst pv) i) (Fin k))),
                         set (snd pv) i (Binary.store32 (Binary.mul (rd (snd pv) i) (Fin k)))))
                     pv)
              = for_loop n
                  (fun i q => set q i (Binary.store32 (Binary.mul (rd q i) (Fin k))))
                  (fst pv)).
    { induction n as [|n IH]; intro pv; [reflexivity|].
      rewrite !for_loop_S. cbn [fst]. now rewrite IH. }
    rewrite Hsplit. cbn [fst].
    rewrite (update_loop_rd COLS (fun _ y => Binary.store32 (Binary.mul y (Fin k))))
      by lia.
    rewrite Ea. reflexivity. }
  exists a, (fround (fl64 (a * k))). split; [reflexivity|]. split; [exact Hrd|].
  assert (H0 : 0 <= a * k) by (apply Qmult_le_0_compat; lra).
  assert (H1 : a * k <= a).
  { assert (0 <= a * (1 - k)) by (apply Qmult_le_0_compat; lra). lra. }
  assert (U : fround (fl64 (a * k)) <= a).
  { rewrite <- Fa at 2. apply fround_mono; [now apply fl64_nonneg|].
    rewrite <- (fl64_binary32 a Fa) at 2. now apply fl64_mono. }
  assert (L : 0 <= fround (fl64 (a * k))) by (apply fround_nonneg, fl64_nonneg, H0).
  split; [split; assumption|].
  split; [apply round_idem; lia|].
  rewrite Qabs_pos by exact L. rewrite Qabs_pos in Ba by lra. lra.
Qed.

(* ===================================================================== *)
(** ** The spring on one channel *)
(* ===================================================================== *)


(** A loop that rewrites slot [i] of two arrays from their slots [i]. *)
Lemma pair_loop_rd (F G : nat -> num -> num -> num)
  (body : nat -> list num * list num -> list num * list num)
  (m : nat) (p v : list num) :
  (m <= length p)%nat -> (m <= length v)%nat ->
  (forall i pv, (i < m)%nat ->
     length (fst pv) = length p -> length (snd pv) = length v ->
     body i pv = (set (fst pv) i (F i (rd (fst pv) i) (rd (snd pv) i)),
                  set (snd pv) i (G i (rd (fst pv) i) (rd (snd pv) i)))) ->
  forall n, (n <= m)%nat ->
  length (fst (for_loop n body (p, v))) = length p /\
  length (snd (for_loop n body (p, v))) = length v /\
  (forall i, rd (fst (for_loop n body (p, v))) i
             = if (i <? n)%nat then F i (rd p i) (rd v i) else rd p i) /\
  (forall i, rd (snd (for_loop n body (p, v))) i
             = if (i <? n)%nat then G i (rd p i) (rd v i) else rd v i).
Proof.
  intros Hp Hv Hbody n. induction n as [|n IH]; intro Hn; [repeat split|].
  destruct IH as [L1 [L2 [R1 R2]]]; try lia.
  rewrite for_loop_S. set (st := for_loop n body (p, v)) in *.
  rewrite (Hbody n st) by (try assumption; lia). cbn [fst snd].
  rewrite !set_length. split; [exact L1|]. split; [exact L2|].
  pose proof (R1 n) as R1n. pose proof (R2 n) as R2n.
  rewrite Nat.ltb_irrefl in R1n, R2n.
  split; intro i.
  - destruct (Nat.eq_dec n i) as [<-|Hne].
    + rewrite rd_set_same by lia. rewrite R1n, R2n.
      now rewrite (proj2 (Nat.ltb_lt n (S n))) by lia.
    + rewrite rd_set_other by assumption. rewrite R1.
      destruct (i <? n)%nat eqn:E1, (i <? S n)%nat eqn:E2; try reflexivity;
        [apply Nat.ltb_lt in E1; apply Nat.ltb_ge in E2; lia
        |apply Nat.ltb_ge in E1; apply Nat.ltb_lt in E2; lia].
  - destruct (Nat.eq_dec n i) as [<-|Hne].
    + rewrite rd_set_same by lia. rewrite R1n, R2n.
      now rewrite (proj2 (Nat.ltb_lt n (S n))) by lia.
    + rewrite rd_set_other by assumption. rewrite R2.
      destruct (i <? n)%nat eqn:E1, (i <? S n)%nat eqn:E2; try reflexivity;
        [apply Nat.ltb_lt in E1; apply Nat.ltb_ge in E2; lia
        |apply Nat.ltb_ge in E1; apply Nat.ltb_lt in E2; lia].
Qed.

Section Spring.

Variable Math_exp : Q -> Q.
Variable opts : Options.

(** What one spring tick does to channel [i], from its target [t], its
    position [p] and its velocity [v]. *)
Definition channel_velocity (dt : num) (i : nat) (t p v : num) : num :=
  let f := if (i =? 0)%nat then freqJaw opts else freqBase opts in
  let w := (Fin 2 * Math_PI * f)%js in
  let acc := (w * w * (t - p) - Fin 2 * zeta opts * w * v)%js in
  (v + acc * dt)%js.

Definition channel_position (dt : num) (i : nat) (t p v : num) : num :=
  clamp01 ((p + channel_velocity dt i t p v * dt)
           * or_ (exaggeration opts) (Fin 1))%js.

Lemma spring_channels (dt : num) (target p v : list num) (i : nat) :
  length p = COLS -> length v = COLS -> (i < COLS)%nat ->
  rd (fst (spring opts dt target p v)) i
  = channel_position dt i (rd target i) (rd p i) (rd v i) /\
  rd (snd (spring opts dt target p v)) i
  = channel_velocity dt i (rd target i) (rd p i) (rd v i).
Proof.
  intros Hp Hv Hi.
  destruct (pair_loop_rd
              (fun i p v => channel_position dt i (rd target i) p v)
              (fun i p v => channel_velocity dt i (rd target i) p v)
              (spring_body opts dt target) COLS p v) with (n := COLS)
    as [_ [_ [R1 R2]]]; try lia.
  - intros j pv Hj L1 L2. unfold spring_body. cbn [fst snd].
    rewrite set_set, !rd_set_same by lia. reflexivity.
  - unfold spring. rewrite R1, R2.
    now rewrite (proj2 (Nat.ltb_lt i COLS)) by assumption.
Qed.

(** X16: a channel that sits on its target with no velocity keeps a zero
    velocity, and its position becomes [clamp01(position * exaggeration)]: it
    stays put when the exaggeration is [1] and does not decrease when the
    exaggeration is above [1]. *)
Theorem spring_at_rest (dt : Q) (target p v : list num) (i : nat) (a x : Q) :
  length p = COLS -> length v = COLS -> (i < COLS)%nat ->
  finite (zeta opts) -> finite (freqBase opts) -> finite (freqJaw opts) ->
  or_ (exaggeration opts) (Fin 1) = Fin x ->
  rd target i = Fin a -> rd p i = Fin a -> rd v i = Fin 0 -> 0 <= a <= 1 ->
  num_eq (rd (snd (spring opts (Fin dt) target p v)) i) (Fin 0) /\
  num_eq (rd (fst (spring opts (Fin dt) target p v)) i) (clamp01 (Fin (a * x))) /\
  (x == 1 -> num_eq (rd (fst (spring opts (Fin dt) target p v)) i) (Fin a)) /\
  (1 < x -> a * x <= 1 ->
   exists b, rd (fst (spring opts (Fin dt) target p v)) i = Fin b /\ a <= b).
Proof.
  intros Hp Hv Hi Hz Hfb Hfj Hx Ht Hpi Hvi Ha.
  destruct (spring_channels (Fin dt) target p v i Hp Hv Hi) as [-> ->].
  rewrite Ht, Hpi, Hvi. unfold channel_position, channel_velocity. rewrite Hx.
  assert (Hf : finite (if (i =? 0)%nat then freqJaw opts else freqBase opts))
    by (destruct (i =? 0)%nat; assumption).
  destruct (finite_Fin _ Hf) as [f ->]. destruct (finite_Fin _ Hz) as [z ->].
  unfold Math_PI. cbn [mul add sub lift2].
  set (w := 2 * (884279719003555 # 281474976710656) * f).
  assert (Hvel : 0 + (w * w * (a - a) - 2 * z * w * 0) * dt == 0) by ring.
  assert (Hpos : (a + (0 + (w * w * (a - a) - 2 * z * w * 0) * dt) * dt) * x
                 == a * x) by ring.
  split; [exact Hvel|].
  assert (Hcl : forall y y', y == y' ->
            num_eq (clamp01 (Fin y)) (clamp01 (Fin y'))).
  { intros y y' E. unfold clamp01, gt, lt. q_cases; cbn [num_eq]; lra. }
  split; [apply Hcl, Hpos|]. split.
  - intro E. eapply num_eq_trans; [apply Hcl, Hpos|].
    apply clamp01_num_eq; [cbn; rewrite E; ring | cbn; lra].
  - intros Hgt Hle.
    pose proof (Hcl _ _ Hpos) as Hc.
    assert (Hin : in01 (Fin (a * x))).
    { cbn. split; [apply Qmult_le_0_compat; lra | exact Hle]. }
    rewrite (clamp01_id (Fin (a * x)) Hin) in Hc.
    destruct (clamp01 (Fin _)) as [b|]; [|contradiction].
    exists b. split; [reflexivity|]. cbn [num_eq] in Hc. rewrite Hc.
    assert (0 <= a * (x - 1)) by (apply Qmult_le_0_compat; lra). lra.
Qed.

(** X23: a channel that sits on its target with the velocity [x] leaves a
    spring tick with the velocity [(1 - 2 * zeta * w * dt) * x], where
    [w = 2 * pi * f] and [f] is the frequency of the channel.  For a damping
    of [0.84] or more, a frequency of [7.5] or more (the defaults are [0.84],
    and [7.5] or [10]) and a time step of [0.033] or more (the largest that
    [getFrame] takes), that factor is below [-1.5]: the velocity changes
    sign and grows by half at least. *)
Theorem spring_velocity_at_target (dt : Q) (target p v : list num) (i : nat)
  (a x z f : Q) :
  length p = COLS -> length v = COLS -> (i < COLS)%nat ->
  zeta opts = Fin z ->
  (if (i =? 0)%nat then freqJaw opts else freqBase opts) = Fin f ->
  rd target i = Fin a -> rd p i = Fin a -> rd v i = Fin x ->
  exists y,
    rd (snd (spring opts (Fin dt) target p v)) i = Fin y /\
    y == (1 - 2 * z * (2 * Q_of Math_PI * f) * dt) * x /\
    (84 # 100 <= z -> 15 # 2 <= f -> 33 # 1000 <= dt ->
     (3 # 2) * Qabs x <= Qabs y /\ (0 < x -> y < 0) /\ (x < 0 -> 0 < y)).
Proof.
  intros Hp Hv Hi Hz Hf Ht Hpi Hvi.
  destruct (spring_channels (Fin dt) target p v i Hp Hv Hi) as [_ ->].
  rewrite Ht, Hpi, Hvi. unfold channel_velocity. rewrite Hf, Hz.
  unfold Math_PI. cbn [mul add sub lift2 Q_of].
  eexists; split; [reflexivity|].
  set (pi := 884279719003555 # 281474976710656).
  assert (Hpi3 : 314 # 100 <= pi) by (apply Qle_bool_iff; vm_compute; reflexivity).
  split; [ring|].
  intros Bz Bf Bdt.
  set (c := 2 * z * (2 * pi * f) * dt).
  assert (E : x + (2 * pi * f * (2 * pi * f) * (a - a) - 2 * z * (2 * pi * f) * x) * dt
              == (1 - c) * x) by (unfold c; ring).
  rewrite E.
  assert (Hc : 26 # 10 <= c).
  { unfold c.
    assert (H1 : 471 # 10 <= 2 * pi * f) by nra.
    assert (H2 : (168 # 100) <= 2 * z) by lra.
    assert (H3 : (168 # 100) * (471 # 10) <= 2 * z * (2 * pi * f)) by nra.
    nra. }
  split; [|split].
  - destruct (Qlt_le_dec x 0) as [N|P].
    + rewrite (Qabs_neg x) by lra. rewrite Qabs_pos by nra. nra.
    + rewrite (Qabs_pos x) by lra. rewrite Qabs_neg by nra. nra.
  - intro P. nra.
  - intro N. nra.
Qed.

End Spring.

(* ===================================================================== *)
(** ** Pending chunks *)
(* ===================================================================== *)


Section Pending.

Variable Math_exp : Q -> Q.
Variable opts : Options.

(** No chunk waits in the queue while the active slot is free. *)
Definition no_stall (s : State) : Prop := active s = None -> queue s = [].

Lemma startNext_no_stall (e : Env) (s : State) : no_stall (startNext opts e s).
Proof.
  unfold no_stall, startNext.
  destruct (active s) eqn:Ea; [intro H; rewrite Ea in H; discriminate|].
  destruct (queue s) eqn:Eq; [intros _; exact Eq|].
  cbn. discriminate.
Qed.

Lemma step_no_stall (s : State) (ev : event) :
  no_stall s -> no_stall (step Math_exp opts s ev).
Proof.
  intro H. destruct ev as [msg e|e|e|e|v|]; cbn [step].
  - apply startNext_no_stall.
  - unfold no_stall.
    destruct (getFrame_queue Math_exp opts e s) as [-> [-> _]]. exact H.
  - unfold onMeta. destruct (active s) as [ch|] eqn:Ea; [|exact H].
    destruct (metaListener ch); [|exact H]. unfold no_stall. cbn. discriminate.
  - apply startNext_no_stall.
  - exact H.
  - intros _. reflexivity.
Qed.

(** X17: in every state reached from a fresh scheduler, an empty active
    slot means an empty queue: no chunk waits while nothing plays. *)
Theorem no_pending_behind_idle (t0 : Q) (evs : list event) :
  active (run Math_exp opts (init t0) evs) = None ->
  queue (run Math_exp opts (init t0) evs) = [].
Proof.
  assert (H : forall s, no_stall s -> no_stall (run Math_exp opts s evs)).
  { induction evs as [|ev evs' IH]; intros s Hs; [exact Hs|].
    apply IH, step_no_stall, Hs. }
  apply H. intros _. reflexivity.
Qed.

End Pending.

(* ===================================================================== *)
(** ** A poisoned channel *)
(* ===================================================================== *)


Section Poison.

Variable Math_exp : Q -> Q.
Variable opts : Options.

Lemma getFrame_keeps_NaN (e : Env) (s : State) (i : nat) :
  length (pos s) = COLS -> length (vel s) = COLS -> (i < COLS)%nat ->
  rd (pos s) i = NaN ->
  rd (pos (snd (getFrame Math_exp opts e s))) i = NaN.
Proof.
  intros Hp Hv Hi Hn.
  assert (Hidle : rd (fst (relax Math_exp opts (tick_dt e s) (pos s) (vel s))) i = NaN).
  { rewrite relax_rd by assumption. now rewrite Hn. }
  unfold getFrame. cbn [active set_lastTick pos vel tmp].
  destruct (active s) as [ch|]; [|exact Hidle].
  destruct (_ || _); [exact Hidle|].
  destruct (sampleCatmullRom _ _ _) as [r|]; cbn [snd pos set_pose set_lastTick];
    [|exact Hn].
  destruct (spring_channels opts (tick_dt e s) (crossfade opts ch (Fin (now e)) r)
              (pos s) (vel s) i Hp Hv Hi) as [-> _].
  rewrite Hn. reflexivity.
Qed.

Lemma step_keeps_NaN (s : State) (ev : event) (i : nat) :
  length (pos s) = COLS -> length (vel s) = COLS -> (i < COLS)%nat ->
  rd (pos s) i = NaN ->
  rd (pos (step Math_exp opts s ev)) i = NaN.
Proof.
  intros Hp Hv Hi Hn. destruct ev as [msg e|e|e|e|v|]; cbn [step].
  - unfold pushChunk. destruct (startNext_pose opts e (set_queue s (queue s ++ [new_chunk msg (muted s)]))) as [-> _]. exact Hn.
  - now apply getFrame_keeps_NaN.
  - unfold onMeta. destruct (active s) as [ch|]; [|exact Hn].
    destruct (metaListener ch); exact Hn.
  - unfold completed. destruct (startNext_pose opts e (set_active s None)) as [-> _].
    exact Hn.
  - exact Hn.
  - exact Hn.
Qed.

(** X19: a channel of the filtered pose that is [NaN] stays [NaN] through
    every later event, [stop] and new chunks included. *)
Theorem NaN_channel_never_recovers (t0 : Q) (evs more : list event) (i : nat) :
  (i < COLS)%nat ->
  rd (pos (run Math_exp opts (init t0) evs)) i = NaN ->
  rd (pos (run Math_exp opts (run Math_exp opts (init t0) evs) more)) i = NaN.
Proof.
  intros Hi.
  pose proof (run_pose_ok Math_exp opts (init t0) evs (conj eq_refl eq_refl)) as Hok.
  generalize dependent (run Math_exp opts (init t0) evs).
  induction more as [|ev more IH]; intros s Hok Hn; [exact Hn|].
  cbn [run fold_left]. apply IH.
  - now apply step_pose_ok.
  - destruct Hok as [Hp Hv]. now apply step_keeps_NaN.
Qed.

End Poison.

(* ===================================================================== *)
(** ** The render loop that consumes the frames *)
(* ===================================================================== *)


Module AvatarCanvas.

(** [const ema = 0.06]. *)
Definition ema : num := Fin (6 # 100).

(** [Math.max(0, Math.min(1, f[i] || 0))]. *)
Definition sanitize (x : num) : num :=
  Math_max (Fin 0) (Math_min (Fin 1) (or_ x (Fin 0))).

(** The part of the render loop that consumes [getVisemeFrame()]: the
    smoothing when the frame is an array of at least 15 entries, the mild
    relaxation otherwise.  An exception of [getVisemeFrame] leaves the loop
    before [vis] is written. *)
Definition consume (f : result) (vis : list num) : list num :=
  match f with
  | Frame a =>
      if (15 <=? length a)%nat
      then for_loop 15
             (fun i v => set v i (rd v i * ema
                                  + sanitize (rd a i) * (Fin 1 - ema))%js)
             vis
      else for_loop 15 (fun i v => set v i (rd v i * Fin (94 # 100))%js) vis
  | Null => for_loop 15 (fun i v => set v i (rd v i * Fin (94 # 100))%js) vis
  | Throws => vis
  end.

End AvatarCanvas.

Import AvatarCanvas.

Lemma sanitize_range (x : num) :
  exists t, sanitize x = Fin t /\ 0 <= t <= 1 /\
            (x = NaN -> t == 0) /\ (in01 x -> num_eq x (Fin t)).
Proof.
  unfold sanitize, or_, truthy. destruct x as [q|].
  - destruct (Qeq_bool q 0) eqn:E; cbn [negb Math_min Math_max].
    + apply Qeq_bool_iff in E. change (Qle_bool 1 0) with false. cbv iota.
      change (Qle_bool 0 0) with true. cbv iota.
      exists 0. split; [reflexivity|]. split; [lra|]. split; [discriminate|].
      cbn [in01 num_eq]. intros _. exact E.
    + destruct (Qle_bool 1 q) eqn:E1;
        [apply Qle_bool_iff in E1 | apply Qle_bool_false in E1];
        (eexists; split; [reflexivity|]).
      * change (Qle_bool 0 1) with true. cbv iota.
        split; [lra|]. split; [discriminate|].
        cbn [in01 num_eq]. intros [H0 H1]. lra.
      * split; [q_cases; lra|]. split; [discriminate|].
        cbn [in01 num_eq]. intros [H0 H1]. q_cases; lra.
  - cbn [negb Math_min Math_max]. eexists; split; [reflexivity|].
    split; [q_cases; lra|]. split; [intros _; q_cases; lra | intros []].
Qed.

(** X20: the render loop of [AvatarCanvas] keeps its 15 smoothed values in
    [[0, 1]] whatever [getVisemeFrame] returns; a [NaN] channel of the frame
    counts as [0], a channel in [[0, 1]] is mixed in with weight [1 - ema]. *)
Theorem consume_range (f : result) (vis : list num) :
  length vis = COLS -> is_pose vis ->
  length (consume f vis) = COLS /\ is_pose (consume f vis) /\
  forall a i, f = Frame a -> (15 <= length a)%nat -> (i < COLS)%nat ->
    (rd a i = NaN ->
     num_eq (rd (consume f vis) i) (rd vis i * ema)%js) /\
    (in01 (rd a i) ->
     num_eq (rd (consume f vis) i)
            (rd vis i * ema + rd a i * (Fin 1 - ema))%js).
Proof.
  intros Hl Hp.
  assert (Hrelax :
    length (for_loop 15 (fun i v => set v i (rd v i * Fin (94 # 100))%js) vis) = COLS /\
    is_pose (for_loop 15 (fun i v => set v i (rd v i * Fin (94 # 100))%js) vis)).
  { split; [now rewrite (update_loop_length 15 (fun _ x => (x * _)%js))|].
    intros i Hi.
    rewrite (update_loop_rd 15 (fun _ x => (x * _)%js)) by (unfold COLS in *; lia).
    destruct (in01_Fin _ (Hp i Hi)) as [a [-> Ha]]. cbn. lra. }
  destruct f as [a| |]; cbn [consume].
  - destruct (15 <=? length a)%nat eqn:E.
    + assert (Hrd : forall i, (i < COLS)%nat ->
        rd (for_loop 15
              (fun i v => set v i (rd v i * ema
                                   + sanitize (rd a i) * (Fin 1 - ema))%js) vis) i
        = (rd vis i * ema + sanitize (rd a i) * (Fin 1 - ema))%js).
      { intros i Hi.
        apply (update_loop_rd 15
                 (fun i x => (x * ema + sanitize (rd a i) * (Fin 1 - ema))%js));
          unfold COLS in *; lia. }
      split; [now rewrite (update_loop_length 15
                 (fun i x => (x * ema + sanitize (rd a i) * (Fin 1 - ema))%js))|].
      split.
      * intros i Hi. rewrite (Hrd i Hi).
        destruct (in01_Fin _ (Hp i Hi)) as [x [-> Hx]].
        destruct (sanitize_range (rd a i)) as [t [-> [Ht _]]].
        unfold ema. cbn. lra.
      * intros a' i Ea _ Hi. injection Ea as <-. rewrite (Hrd i Hi).
        destruct (in01_Fin _ (Hp i Hi)) as [x [-> Hx]].
        destruct (sanitize_range (rd a i)) as [t [-> [Ht [Hnan Hin]]]].
        unfold ema. split.
        -- intro Hn. cbn. rewrite (Hnan Hn). ring.
        -- intro H01. specialize (Hin H01).
           destruct (rd a i) as [y|]; [|contradiction]. cbn in *. rewrite Hin. ring.
    + split; [apply Hrelax|]. split; [apply Hrelax|].
      intros a' i Ea Hlen. injection Ea as <-. apply Nat.leb_gt in E. lia.
  - split; [apply Hrelax|]. split; [apply Hrelax|]. intros a i [=].
  - split; [exact Hl|]. split; [exact Hp|]. intros a i [=].
Qed.

(* ===================================================================== *)
(** ** Concrete instances *)
(* ===================================================================== *)

Fixpoint sortedb (qs : list Q) : bool :=
  match qs with
  | [] => true
  | x :: r => forallb (Qle_bool x) r && sortedb r
  end.

Lemma sortedb_sound (qs : list Q) : sortedb qs = true -> StronglySorted Qle qs.
Proof.
  induction qs as [|x r IH]; intro H; [constructor|].
  cbn [sortedb] in H. apply andb_true_iff in H. destruct H as [H1 H2].
  constructor; [now apply IH|].
  apply Forall_forall. intros y Hy. rewrite forallb_forall in H1.
  apply Qle_bool_iff, H1, Hy.
Qed.

Lemma nonnegb_sound (qs : list Q) :
  forallb (Qle_bool 0) qs = true -> Forall (Qle 0) qs.
Proof.
  intro H. apply Forall_forall. intros y Hy. rewrite forallb_forall in H.
  apply Qle_bool_iff, H, Hy.
Qed.

Lemma is_poseb_row (row : list num) : is_poseb row = true -> is_pose row.
Proof.
  intro H. apply (is_poseb_sound [row]); [|now left].
  cbn [forallb]. rewrite H. reflexivity.
Qed.

Lemma Qltb_sound (x y : Q) : Qltb x y = true -> x < y.
Proof. apply Qltb_true. Qed.

Lemma Qleb_sound (x y : Q) : Qle_bool x y = true -> x <= y.
Proof. apply Qle_bool_iff. Qed.

(** Three rows with an empty timestamp list, [frame_ms = 11] and
    [viseme_fps = 90]. *)
Definition msg_frame_ms : AudioChunkMsg :=
  {| audio := None;
     viseme := [zeros COLS; zeros COLS; zeros COLS];
     viseme_times := Some [];
     duration_ms := Some (Fin 1000);
     frame_ms := Some (Fin 11); viseme_fps := Some (Fin 90) |}.

(** The timestamps of [msg_jaw]. *)
Definition jaw_times : list Q := [0; 1 # 2; 1].

(** Executable version of [hint_in_range]. *)
Definition hint_in_rangeb (o : option num) : bool :=
  match o with
  | Some (Fin x) => Qle_bool (pow2 (-64)) x && Qle_bool x (pow2 64)
  | _ => true
  end.

Lemma hint_in_rangeb_sound (o : option num) :
  hint_in_rangeb o = true -> hint_in_range o.
Proof.
  destruct o as [[x|]|]; cbn [hint_in_rangeb hint_in_range]; auto.
  rewrite andb_true_iff, !Qle_bool_iff. tauto.
Qed.

Lemma binary32b_sound (qs : list Q) :
  forallb (fun q => f32b (Fin q)) qs = true -> Forall binary32 qs.
Proof.
  intro H. apply Forall_forall. intros q Hq. rewrite forallb_forall in H.
  apply (f32b_sound (Fin q)), H, Hq.
Qed.

Lemma buildTimes_sorted_witness :
  (Z.of_nat 3 <= 2 ^ 32)%Z /\
  hint_in_range (frame_ms msg_frame_ms) /\ hint_in_range (viseme_fps msg_frame_ms) /\
  hint_in_range (duration_ms msg_frame_ms) /\
  (1 <= 2 < length (Binary.buildTimes 3 msg_frame_ms))%nat /\
  exists a b,
    rd (Binary.buildTimes 3 msg_frame_ms) 1 = Fin a /\
    rd (Binary.buildTimes 3 msg_frame_ms) 2 = Fin b /\
    0 <= a /\ a <= b /\ b < pow2 128.
Proof.
  assert (H0 : (Z.of_nat 3 <= 2 ^ 32)%Z) by (vm_compute; discriminate).
  assert (H1 : hint_in_range (frame_ms msg_frame_ms))
    by (apply hint_in_rangeb_sound; vm_compute; reflexivity).
  assert (H2 : hint_in_range (viseme_fps msg_frame_ms))
    by (apply hint_in_rangeb_sound; vm_compute; reflexivity).
  assert (H3 : hint_in_range (duration_ms msg_frame_ms))
    by (apply hint_in_rangeb_sound; vm_compute; reflexivity).
  assert (H4 : (1 <= 2 < length (Binary.buildTimes 3 msg_frame_ms))%nat)
    by (vm_compute; lia).
  repeat (split; [assumption|]).
  exact (buildTimes_sorted 3 msg_frame_ms 1 2 H0 H1 H2 H3 H4).
Defined.

Lemma synthetic_axis_is_grid_witness :
  explicit_times msg_frame_ms = None /\
  (Z.of_nat 3 <= 2 ^ 32)%Z /\
  hint_in_range (frame_ms msg_frame_ms) /\ hint_in_range (viseme_fps msg_frame_ms) /\
  hint_in_range (duration_ms msg_frame_ms) /\
  exists d,
    0 < d /\
    (forall i, (i < 3)%nat ->
       exists t, rd (Binary.buildTimes 3 msg_frame_ms) i = Fin t /\
                 Qabs (t - inject_Z (Z.of_nat i) * d)
                 <= pow2 (-23) * (inject_Z (Z.of_nat i) * d)) /\
    ((0 < 3)%nat -> num_eq (rd (Binary.buildTimes 3 msg_frame_ms) 0) (Fin 0)) /\
    (forall f, frame_ms msg_frame_ms = Some (Fin f) -> 0 < f -> d == f / 1000) /\
    (forall p, positive_hint (frame_ms msg_frame_ms) = false ->
               viseme_fps msg_frame_ms = Some (Fin p) -> 0 < p -> d == 1 / p) /\
    (positive_hint (frame_ms msg_frame_ms) = false ->
     positive_hint (viseme_fps msg_frame_ms) = false ->
     d == spec_step 3 (spec_duration msg_frame_ms)).
Proof.
  assert (He : explicit_times msg_frame_ms = None) by reflexivity.
  assert (H0 : (Z.of_nat 3 <= 2 ^ 32)%Z) by (vm_compute; discriminate).
  assert (H1 : hint_in_range (frame_ms msg_frame_ms))
    by (apply hint_in_rangeb_sound; vm_compute; reflexivity).
  assert (H2 : hint_in_range (viseme_fps msg_frame_ms))
    by (apply hint_in_rangeb_sound; vm_compute; reflexivity).
  assert (H3 : hint_in_range (duration_ms msg_frame_ms))
    by (apply hint_in_rangeb_sound; vm_compute; reflexivity).
  repeat (split; [assumption|]).
  exact (synthetic_axis_is_grid 3 msg_frame_ms He H0 H1 H2 H3).
Defined.

Lemma explicit_times_verbatim_witness :
  viseme_times msg_jaw = Some (map Fin jaw_times) /\
  (2 <= length jaw_times)%nat /\
  Forall binary32 jaw_times /\
  Forall (Qle 0) jaw_times /\ StronglySorted Qle jaw_times /\
  Forall2 num_eq (Binary.buildTimes 2 msg_jaw) (map Fin (firstn 2 jaw_times)).
Proof.
  assert (H1 : viseme_times msg_jaw = Some (map Fin jaw_times)) by reflexivity.
  assert (H2 : (2 <= length jaw_times)%nat) by (cbn; lia).
  assert (Hb : Forall binary32 jaw_times) by (apply binary32b_sound; vm_compute; reflexivity).
  assert (H3 : Forall (Qle 0) jaw_times) by (apply nonnegb_sound; reflexivity).
  assert (H4 : StronglySorted Qle jaw_times) by (apply sortedb_sound; reflexivity).
  repeat (split; [assumption|]).
  exact (explicit_times_verbatim 2 msg_jaw jaw_times H1 H2 Hb H3 H4).
Defined.

(** A short row with an out-of-range value and a [NaN]. *)
Definition row_mixed : list num := [Fin 2; NaN; Fin (1 # 4)].

Lemma store_row_spec_witness :
  (1 < Nat.min COLS (length row_mixed))%nat /\
  num_eq (rd (store_row row_mixed) 1)
         (match rd row_mixed 1 with
          | Fin q => Fin (Qmax 0 (Qmin 1 q))
          | NaN => Fin 0
          end).
Proof.
  assert (H : (1 < Nat.min COLS (length row_mixed))%nat)
    by (cbn; lia).
  split; [exact H|].
  exact (proj2 (proj2 (store_row_spec row_mixed)) 1%nat H).
Defined.

Lemma lowerBound_sorted_witness :
  StronglySorted Qle jaw_times /\
  exists r : nat,
    (r <= length jaw_times)%nat /\
    (forall i, (i < r)%nat -> nth i jaw_times 0 < 3 # 4) /\
    (forall i, (r <= i < length jaw_times)%nat -> 3 # 4 <= nth i jaw_times 0) /\
    lowerBound (map Fin jaw_times) (Fin (3 # 4))
    = Z.max 1 (Z.min (Z.of_nat (length jaw_times) - 1) (Z.of_nat r)) /\
    (1 <= lowerBound (map Fin jaw_times) (Fin (3 # 4)))%Z /\
    ((2 <= length jaw_times)%nat ->
     (lowerBound (map Fin jaw_times) (Fin (3 # 4))
      <= Z.of_nat (length jaw_times) - 1)%Z).
Proof.
  assert (H : StronglySorted Qle jaw_times) by (apply sortedb_sound; reflexivity).
  split; [exact H|].
  exact (lowerBound_sorted jaw_times (3 # 4) H).
Defined.

Lemma local_param_unit_witness :
  StronglySorted Qle jaw_times /\
  nth 0 jaw_times 0 <= 3 # 4 <= nth (length jaw_times - 1) jaw_times 0 /\
  exists u, local_param (map Fin jaw_times) (Fin (3 # 4)) = Fin u /\ 0 <= u <= 1.
Proof.
  assert (H : StronglySorted Qle jaw_times) by (apply sortedb_sound; reflexivity).
  assert (H' : nth 0 jaw_times 0 <= 3 # 4
               <= nth (length jaw_times - 1) jaw_times 0)
    by (split; apply Qleb_sound; reflexivity).
  split; [exact H|]. split; [exact H'|].
  exact (local_param_unit jaw_times (3 # 4) H H').
Defined.

(** The chunk of one frame as [startNext] activates it. *)
Definition chunk_single : Chunk :=
  activate no_options (env_at 0) (init 0) (new_chunk msg_single false).

Lemma single_frame_held_witness :
  frames chunk_single = [zeros COLS] /\
  (length (times chunk_single) <= 1)%nat /\
  is_pose (zeros COLS) /\ length (zeros COLS) = COLS /\
  exists r,
    sampleCatmullRom chunk_single (Fin (1 # 3)) (zeros COLS) = Some r /\
    forall i, (i < COLS)%nat -> num_eq (rd r i) (rd (zeros COLS) i).
Proof.
  assert (H1 : frames chunk_single = [zeros COLS]) by reflexivity.
  assert (H2 : (length (times chunk_single) <= 1)%nat) by (apply Nat.leb_le; reflexivity).
  assert (H3 : is_pose (zeros COLS)) by (apply is_poseb_row; reflexivity).
  assert (H4 : length (zeros COLS) = COLS) by reflexivity.
  repeat (split; [assumption|]).
  exact (single_frame_held chunk_single (zeros COLS) (Fin (1 # 3)) (zeros COLS)
           H1 H2 H3 H4).
Defined.

Lemma begin_duration_witness :
  0 < last jaw_times 0 /\ binary32 (last jaw_times 0) /\
  pow2 (-125) <= 27 # 10 /\ 27 # 10 <= pow2 126 /\
  exists d,
    tail_of (fst (Binary.begin_axis (map Fin jaw_times) (Fin (27 # 10)))) = Fin d /\
    snd (Binary.begin_axis (map Fin jaw_times) (Fin (27 # 10))) = Fin d /\
    Qabs (d - (27 # 10)) <= pow2 (-23) * (27 # 10).
Proof.
  assert (H1 : 0 < last jaw_times 0) by reflexivity.
  assert (H2 : binary32 (last jaw_times 0))
    by (apply (f32b_sound (Fin (last jaw_times 0))); vm_compute; reflexivity).
  assert (H3 : pow2 (-125) <= 27 # 10) by (apply Qleb_sound; vm_compute; reflexivity).
  assert (H4 : 27 # 10 <= pow2 126) by (apply Qleb_sound; vm_compute; reflexivity).
  repeat (split; [assumption|]).
  exact (proj1 (begin_duration jaw_times (27 # 10)) H1 H2 H3 H4).
Defined.

Lemma playback_time_range_witness :
  let d := Q_of (duration chunk_jaw) in
  duration chunk_jaw = Fin d /\ startedAt chunk_jaw = Fin 0 /\ 0 <= d /\
  exists t, playback_time (env_at (7 # 10)) chunk_jaw = Fin t /\ 0 <= t <= d.
Proof.
  cbv zeta.
  assert (H1 : duration chunk_jaw = Fin (Q_of (duration chunk_jaw))) by reflexivity.
  assert (H2 : startedAt chunk_jaw = Fin 0) by reflexivity.
  assert (H3 : 0 <= Q_of (duration chunk_jaw)) by (apply Qleb_sound; reflexivity).
  repeat (split; [assumption|]).
  exact (playback_time_range (env_at (7 # 10)) chunk_jaw _ 0 H1 H2 H3).
Defined.

Lemma tick_dt_range_witness :
  lastTick (init 0) = Fin 0 /\
  exists dt, tick_dt (env_at 5) (init 0) = Fin dt /\ 1 # 1000 <= dt <= 33 # 1000 /\
             dt == Qmax (1 # 1000) (Qmin (33 # 1000) (now (env_at 5) - 0)).
Proof.
  split; [reflexivity|].
  exact (tick_dt_range (env_at 5) (init 0) 0 eq_refl).
Defined.

Lemma crossfade_ramp_witness :
  let fe := Q_of (fadeInEnd chunk_jaw) in
  crossfadeS no_options = Fin (85 # 1000) /\ 0 < 85 # 1000 /\
  fadeInEnd chunk_jaw = Fin fe /\ is_pose (fadeInFrom chunk_jaw) /\
  length (store_row (Fin 1 :: zeros 14)) = COLS /\
  is_pose (store_row (Fin 1 :: zeros 14)) /\
  1 # 100 < fe /\
  exists a b k,
    rd (fadeInFrom chunk_jaw) 0 = Fin a /\
    rd (store_row (Fin 1 :: zeros 14)) 0 = Fin b /\ 0 <= k <= 1 /\
    rd (crossfade no_options chunk_jaw (Fin (1 # 100))
          (store_row (Fin 1 :: zeros 14))) 0 = Fin (a + (b - a) * k) /\
    (fe - (85 # 1000) <= 1 # 100 -> k == ((1 # 100) - (fe - (85 # 1000))) / (85 # 1000)) /\
    (1 # 100 <= fe - (85 # 1000) -> k == 0).
Proof.
  cbv zeta.
  assert (H1 : crossfadeS no_options = Fin (85 # 1000)) by reflexivity.
  assert (H2 : 0 < 85 # 1000) by reflexivity.
  assert (H3 : fadeInEnd chunk_jaw = Fin (Q_of (fadeInEnd chunk_jaw))) by reflexivity.
  assert (H4 : is_pose (fadeInFrom chunk_jaw)) by (apply is_poseb_row; reflexivity).
  assert (H5 : length (store_row (Fin 1 :: zeros 14)) = COLS) by reflexivity.
  assert (H6 : is_pose (store_row (Fin 1 :: zeros 14)))
    by (apply is_poseb_row; reflexivity).
  assert (H7 : 1 # 100 < Q_of (fadeInEnd chunk_jaw)) by (apply Qltb_sound; reflexivity).
  assert (H8 : (0 < COLS)%nat) by (unfold COLS; lia).
  repeat (split; [assumption|]).
  exact (proj2 (crossfade_ramp no_options chunk_jaw (1 # 100)
                  (store_row (Fin 1 :: zeros 14)) (85 # 1000) _
                  H1 H2 H3 H4 H5 H6) H7 0%nat H8).
Defined.

(** A chunk is pushed, then its completion callback fires. *)
Definition played_events : list event :=
  [PushChunk msg_jaw (env_at 0);
   GetFrame (env_at (1 # 2));
   Completed (env_at (11 # 10))].

(** A pose with the jaw a third open. *)
Definition pose_third : list num := Fin (fround (1 # 3)) :: zeros 14.

Lemma idle_tick_decays_witness :
  exp_ok exp_approx /\ 0 <= 6 /\ 0 <= 33 # 1000 /\
  length pose_third = COLS /\ length (zeros COLS) = COLS /\ (0 < COLS)%nat /\
  in01 (rd pose_third 0) /\ f32 (rd pose_third 0) /\
  exists a b,
    rd pose_third 0 = Fin a /\
    rd (fst (Binary.relax exp_approx (Fin 6) (Fin (33 # 1000)) pose_third (zeros COLS))) 0
      = Fin b /\
    0 <= b <= a /\ binary32 b.
Proof.
  assert (H1 : 0 <= 6) by (apply Qleb_sound; reflexivity).
  assert (H2 : 0 <= 33 # 1000) by (apply Qleb_sound; reflexivity).
  assert (H3 : length pose_third = COLS) by reflexivity.
  assert (H4 : length (zeros COLS) = COLS) by reflexivity.
  assert (H5 : (0 < COLS)%nat) by (unfold COLS; lia).
  assert (H6 : in01 (rd pose_third 0)) by (apply in01b_sound; vm_compute; reflexivity).
  assert (H7 : f32 (rd pose_third 0)) by (apply f32b_sound; vm_compute; reflexivity).
  split; [exact exp_approx_ok|].
  repeat (split; [assumption|]).
  exact (idle_tick_decays exp_approx 6 (33 # 1000) pose_third (zeros COLS) 0
           exp_approx_ok H1 H2 H3 H4 H5 H6 H7).
Defined.



Lemma silent_chunk_duration_witness :
  active (init 0) = None /\ queue (init 0) = [] /\
  nonempty (audio msg_jaw) && negb (muted (init 0)) = false /\
  active (pushChunk no_options msg_jaw (env_at 0) (init 0))
  = Some (begin no_options (env_at 0) (pos (init 0))
            (new_chunk msg_jaw (muted (init 0))) (durS_of msg_jaw)).
Proof.
  repeat (split; [reflexivity|]).
  exact (proj1 (silent_chunk_duration no_options msg_jaw (env_at 0) (init 0)
                  eq_refl eq_refl eq_refl)).
Defined.

Lemma spring_at_rest_witness :
  let half := repeat (Fin (1 # 2)) COLS in
  length half = COLS /\ length (zeros COLS) = COLS /\ (0 < COLS)%nat /\
  finite (zeta no_options) /\ finite (freqBase no_options) /\
  finite (freqJaw no_options) /\
  or_ (exaggeration no_options) (Fin 1) = Fin (104 # 100) /\
  rd half 0 = Fin (1 # 2) /\ rd (zeros COLS) 0 = Fin 0 /\ 0 <= 1 # 2 <= 1 /\
  num_eq (rd (snd (spring no_options (Fin (16 # 1000)) half half (zeros COLS))) 0)
         (Fin 0) /\
  num_eq (rd (fst (spring no_options (Fin (16 # 1000)) half half (zeros COLS))) 0)
         (clamp01 (Fin ((1 # 2) * (104 # 100)))).
Proof.
  cbv zeta.
  assert (H1 : length (repeat (Fin (1 # 2)) COLS) = COLS) by reflexivity.
  assert (H2 : length (zeros COLS) = COLS) by reflexivity.
  assert (H3 : (0 < COLS)%nat) by (unfold COLS; lia).
  assert (H4 : finite (zeta no_options)) by reflexivity.
  assert (H5 : finite (freqBase no_options)) by reflexivity.
  assert (H6 : finite (freqJaw no_options)) by reflexivity.
  assert (H7 : or_ (exaggeration no_options) (Fin 1) = Fin (104 # 100)) by reflexivity.
  assert (H8 : rd (repeat (Fin (1 # 2)) COLS) 0 = Fin (1 # 2)) by reflexivity.
  assert (H9 : rd (zeros COLS) 0 = Fin 0) by reflexivity.
  assert (H10 : 0 <= 1 # 2 <= 1) by (split; apply Qleb_sound; reflexivity).
  repeat (split; [assumption|]).
  pose proof (spring_at_rest no_options (16 # 1000) (repeat (Fin (1 # 2)) COLS)
                (repeat (Fin (1 # 2)) COLS) (zeros COLS) 0 (1 # 2) (104 # 100)
                H1 H2 H3 H4 H5 H6 H7 H8 H8 H9 H10) as [Hv [Hp _]].
  split; assumption.
Defined.

Lemma spring_velocity_at_target_witness :
  let half := repeat (Fin (1 # 2)) COLS in
  let unit := repeat (Fin 1) COLS in
  length half = COLS /\ length unit = COLS /\ (1 < COLS)%nat /\
  zeta no_options = Fin (84 # 100) /\
  (if (1 =? 0)%nat then freqJaw no_options else freqBase no_options) = Fin (75 # 10) /\
  rd half 1 = Fin (1 # 2) /\ rd unit 1 = Fin 1 /\
  exists y,
    rd (snd (spring no_options (Fin (33 # 1000)) half half unit)) 1 = Fin y /\
    y == (1 - 2 * (84 # 100) * (2 * Q_of Math_PI * (75 # 10)) * (33 # 1000)) * 1 /\
    (84 # 100 <= 84 # 100 -> 15 # 2 <= 75 # 10 -> 33 # 1000 <= 33 # 1000 ->
     (3 # 2) * Qabs 1 <= Qabs y /\ (0 < 1 -> y < 0) /\ (1 < 0 -> 0 < y)).
Proof.
  cbv zeta.
  assert (H1 : length (repeat (Fin (1 # 2)) COLS) = COLS) by reflexivity.
  assert (H2 : length (repeat (Fin 1) COLS) = COLS) by reflexivity.
  assert (H3 : (1 < COLS)%nat) by (unfold COLS; lia).
  assert (H4 : zeta no_options = Fin (84 # 100)) by reflexivity.
  assert (H5 : (if (1 =? 0)%nat then freqJaw no_options else freqBase no_options)
               = Fin (75 # 10)) by reflexivity.
  assert (H6 : rd (repeat (Fin (1 # 2)) COLS) 1 = Fin (1 # 2)) by reflexivity.
  assert (H7 : rd (repeat (Fin 1) COLS) 1 = Fin 1) by reflexivity.
  repeat (split; [assumption|]).
  exact (spring_velocity_at_target no_options (33 # 1000) (repeat (Fin (1 # 2)) COLS)
           (repeat (Fin (1 # 2)) COLS) (repeat (Fin 1) COLS) 1 (1 # 2) 1
           (84 # 100) (75 # 10) H1 H2 H3 H4 H5 H6 H6 H7).
Defined.

Lemma no_pending_behind_idle_witness :
  active (run exp_approx no_options (init 0) played_events) = None /\
  queue (run exp_approx no_options (init 0) played_events) = [].
Proof.
  split; [reflexivity|].
  exact (no_pending_behind_idle exp_approx no_options 0 played_events eq_refl).
Defined.

(** The short row is pushed and one frame is read. *)
Definition poisoned_events : list event :=
  [PushChunk msg_short_row (env_at 0); GetFrame (env_at (16 # 1000))].

Lemma NaN_channel_never_recovers_witness :
  (1 < COLS)%nat /\
  rd (pos (run exp_approx no_options (init 0) poisoned_events)) 1 = NaN /\
  rd (pos (run exp_approx no_options
             (run exp_approx no_options (init 0) poisoned_events)
             (Stop :: demo_events))) 1 = NaN.
Proof.
  assert (H1 : (1 < COLS)%nat) by (unfold COLS; lia).
  assert (H2 : rd (pos (run exp_approx no_options (init 0) poisoned_events)) 1 = NaN)
    by (vm_compute; reflexivity).
  split; [exact H1|]. split; [exact H2|].
  exact (NaN_channel_never_recovers exp_approx no_options 0 poisoned_events
           (Stop :: demo_events) 1 H1 H2).
Defined.

Lemma consume_range_witness :
  let f := Frame (Fin (1 # 2) :: repeat NaN 14) in
  length (zeros COLS) = COLS /\ is_pose (zeros COLS) /\
  length (AvatarCanvas.consume f (zeros COLS)) = COLS /\
  is_pose (AvatarCanvas.consume f (zeros COLS)).
Proof.
  cbv zeta.
  assert (H1 : length (zeros COLS) = COLS) by reflexivity.
  assert (H2 : is_pose (zeros COLS)) by (apply is_poseb_row; reflexivity).
  split; [exact H1|]. split; [exact H2|].
  pose proof (consume_range (Frame (Fin (1 # 2) :: repeat NaN 14)) (zeros COLS) H1 H2)
    as [Hl [Hp _]].
  split; assumption.
Defined.

(* ===================================================================== *)
(** ** URL building ([env.ts], [http.ts]) *)
(* ===================================================================== *)

Local Close Scope Q_scope.
Local Open Scope string_scope.

Module Http.

(** [s.replace(/\/+$/, "")]: drop the run of slashes at the end of [s]. *)
Fixpoint strip_slashes (s : string) : string :=
  match s with
  | EmptyString => EmptyString
  | String c r =>
      match strip_slashes r with
      | EmptyString => if Ascii.eqb c "/" then EmptyString else String c EmptyString
      | r' => String c r'
      end
  end.






End Http.

Import Http.

Fixpoint slashes (k : nat) : string :=
  match k with
  | O => EmptyString
  | S k' => String "/" (slashes k')
  end.

Lemma strip_slashes_decompose (s : string) :
  exists k, s = strip_slashes s ++ slashes k.
Proof.
  induction s as [|c r [k IH]]; [exists 0; reflexivity|].
  cbn [strip_slashes]. destruct (strip_slashes r) as [|c' r'] eqn:E.
  - destruct (Ascii.eqb c "/") eqn:Ec.
    + apply Ascii.eqb_eq in Ec. subst c. exists (S k). cbn. now rewrite IH at 1.
    + exists k. cbn. now rewrite IH at 1.
  - exists k. cbn. f_equal. exact IH.
Qed.

Lemma strip_slashes_no_tail (s t : string) : strip_slashes s <> t ++ "/".
Proof.
  revert t. induction s as [|c r IH]; intro t; cbn [strip_slashes].
  - destruct t; discriminate.
  - destruct (strip_slashes r) as [|c' r'] eqn:E.
    + destruct (Ascii.eqb c "/") eqn:Ec.
      * destruct t; discriminate.
      * destruct t as [|a t]; cbn.
        -- intro H. injection H as H. subst c. cbn in Ec. discriminate.
        -- intro H. injection H as _ H. destruct t; discriminate.
    + destruct t as [|a t]; cbn.
      * intro H. injection H as _ H. discriminate.
      * intro H. injection H as _ H. exact (IH t H).
Qed.

Lemma strip_slashes_fixed (s : string) :
  (forall t, s <> t ++ "/") -> strip_slashes s = s.
Proof.
  induction s as [|c r IH]; intro H; [reflexivity|].
  cbn [strip_slashes].
  assert (Hr : r <> EmptyString -> forall t, r <> t ++ "/").
  { intros _ t Ht. apply (H (String c t)). cbn. now rewrite Ht. }
  destruct r as [|c' r'].
  - cbn. destruct (Ascii.eqb c "/") eqn:Ec; [|reflexivity].
    apply Ascii.eqb_eq in Ec. subst. exfalso. apply (H EmptyString). reflexivity.
  - rewrite IH by (apply Hr; discriminate). reflexivity.
Qed.

(** X21: [s.replace(/\/+$/, "")] removes exactly the slashes at the end of
    [s]: what is left does not end with a slash and is left alone by a second
    pass. *)
Theorem strip_slashes_spec (s : string) :
  (exists k, s = strip_slashes s ++ slashes k) /\
  (forall t, strip_slashes s <> t ++ "/") /\
  strip_slashes (strip_slashes s) = strip_slashes s.
Proof.
  split; [apply strip_slashes_decompose|].
  split; [apply strip_slashes_no_tail|].
  apply strip_slashes_fixed, strip_slashes_no_tail.
Qed.






